(** * qrouter: LEF/DEF readers (lef.c, def.c)

    A shallow embedding of the parts of [lef.c] and [def.c] that build the
    router's geometric database, with the properties of the technology
    model, the geometry engine and the design reader stated over it.

    Conventions of the embedding:
    - a C [double] or [float] is an exact rational [Q]; arithmetic is exact
      (rounding of the machine formats is not modelled), [==] on doubles is
      [Qeq_bool];
    - a C [int] is a [Z] (no overflow occurs in the ranges used);
    - a NULL-terminated singly linked list is a Rocq [list], in link order;
      a pointer to a node of such a list is the position of the node;
    - a [char *] that may be NULL is an [option string];
    - an array indexed by a layer number is a [gmap Z _], an absent key being
      a NULL (or zero) entry;
    - flag bits ([RT_CHECK], [NET_IGNORED], [MX], [MY], [R90]) are boolean
      fields;
    - a dereference of NULL makes a function return [None]. *)

From Stdlib Require Import ZArith QArith Qround Lqa Lia List String Ascii Bool.
From Stdlib Require Import Sorting.Sorted Sorting.Permutation.
From stdpp Require Import base option list gmap strings.

Import ListNotations.
Local Open Scope string_scope.
Local Open Scope Z_scope.

(** ** Numbers *)

Definition double := Q.
Bind Scope Q_scope with double.

Definition Qltb (a b : Q) : bool := negb (Qle_bool b a).
Definition Qgtb (a b : Q) : bool := Qltb b a.
Definition Qgeb (a b : Q) : bool := Qle_bool b a.

(** Modelled from the spec: the macro [MIN] of the missing header
    [qrouter.h], "the smaller of" its two arguments. *)
Definition MIN (a b : Q) : Q := if Qltb a b then a else b.

(** Modelled from the spec: the macro [ABSDIFF] of the missing header
    [qrouter.h], the absolute value of the difference of its arguments. *)
Definition ABSDIFF (a b : Q) : Q := if Qltb b a then a - b else b - a.

Definition ABSDIFFZ (a b : Z) : Z := if b <? a then a - b else b - a.

(** The C cast [(int)d]: truncation towards zero. *)
Definition int_of_double (d : Q) : Z := Z.quot (Qnum d) (Zpos (Qden d)).

(** ** Geometry records (qrouter.h) *)

(** [struct dseg_]: a rectangle with a layer; [next] is the list link. *)
Record DSEG := mkDSEG {
  ds_x1 : double; ds_y1 : double; ds_x2 : double; ds_y2 : double;
  ds_layer : Z }.

(** [struct dpoint_]: a point with a layer; [next] is the list link.  The
    grid position fields are not used by the functions modelled here. *)
Record DPOINT := mkDPOINT { dp_x : double; dp_y : double; dp_layer : Z }.

(** ** The technology model (lef.h) *)

Inductive lefClassT :=
  CLASS_ROUTE | CLASS_CUT | CLASS_VIA | CLASS_MASTER | CLASS_OVERLAP | CLASS_IGNORE.

Definition lefClass_eqb (a b : lefClassT) : bool :=
  match a, b with
  | CLASS_ROUTE, CLASS_ROUTE | CLASS_CUT, CLASS_CUT | CLASS_VIA, CLASS_VIA
  | CLASS_MASTER, CLASS_MASTER | CLASS_OVERLAP, CLASS_OVERLAP
  | CLASS_IGNORE, CLASS_IGNORE => true
  | _, _ => false
  end.

Record lefSpacingRule := mkSpacingRule { sr_width : double; sr_spacing : double }.

(** [lefRoute]: the [info.route] member of a layer record. *)
Record lefRoute := mkLefRoute {
  rt_width : double;
  rt_spacing : list lefSpacingRule;
  rt_pitchx : double; rt_pitchy : double;
  rt_offsetx : double; rt_offsety : double;
  rt_hdirection : bool;
  rt_minarea : double }.

(** [lefVia]: the [info.via] member of a layer record. *)
Record lefVia := mkLefVia {
  via_area : DSEG;
  via_lr : list DSEG;
  via_generated : bool;
  via_respervia : double }.

(** [lefLayer].  The C record holds [info.route] and [info.via] in a union;
    the readers only use the member that [lefClass] selects, and the two
    members are kept as two fields here. *)
Record lefLayer := mkLefLayer {
  lefName : string;
  type : Z;
  obsType : Z;
  lefClass : lefClassT;
  info_route : lefRoute;
  info_via : lefVia }.

(** [LefFindLayer]: the first record of [LefInfo] with the given name. *)
Fixpoint LefFindLayer_from (n : nat) (LefInfo : list lefLayer) (token : string)
  : option nat :=
  match LefInfo with
  | [] => None
  | lefl :: rest =>
      if String.eqb (lefName lefl) token then Some n
      else LefFindLayer_from (S n) rest token
  end.

Definition LefFindLayer (LefInfo : list lefLayer) (token : string) : option nat :=
  LefFindLayer_from 0 LefInfo token.

(** The record a layer pointer designates. *)
Definition LefDeref (LefInfo : list lefLayer) (p : option nat) : option lefLayer :=
  match p with Some n => LefInfo !! n | None => None end.

Fixpoint LefFindLayerByNum (LefInfo : list lefLayer) (layer : Z) : option lefLayer :=
  match LefInfo with
  | [] => None
  | lefl :: rest =>
      if type lefl =? layer then Some lefl else LefFindLayerByNum rest layer
  end.

Definition LefFindLayerNum (LefInfo : list lefLayer) (token : string) : Z :=
  match LefDeref LefInfo (LefFindLayer LefInfo token) with
  | Some lefl => type lefl
  | None => -1
  end.

Fixpoint LefGetMaxLayer_from (maxlayer : Z) (LefInfo : list lefLayer) : Z :=
  match LefInfo with
  | [] => maxlayer + 1
  | lefl :: rest =>
      LefGetMaxLayer_from (if maxlayer <? type lefl then type lefl else maxlayer) rest
  end.

Definition LefGetMaxLayer (LefInfo : list lefLayer) : Z := LefGetMaxLayer_from (-1) LefInfo.

Section RouteQueries.

(** The technology registry and the globals of [qconfig.c] the queries
    read. *)
Variable LefInfo : list lefLayer.
Variables PitchX PitchY : double.
Variable PathWidth : Z -> double.


Definition LefGetRouteWidth (layer : Z) : double :=
  match LefFindLayerByNum LefInfo layer with
  | Some lefl =>
      if lefClass_eqb (lefClass lefl) CLASS_ROUTE then rt_width (info_route lefl)
      else (MIN PitchX PitchY / 2)%Q
  | None => (MIN PitchX PitchY / 2)%Q
  end.

Definition LefGetRouteSpacing (layer : Z) : double :=
  match LefFindLayerByNum LefInfo layer with
  | Some lefl =>
      if lefClass_eqb (lefClass lefl) CLASS_ROUTE then
        match rt_spacing (info_route lefl) with
        | sr :: _ => sr_spacing sr
        | [] => 0%Q
        end
      else (MIN PitchX PitchY / 2)%Q
  | None => (MIN PitchX PitchY / 2)%Q
  end.

(** No route-layer record answers for [layer]: the lookup by number finds
    nothing, or finds a record that is not of class ROUTE. *)
Definition no_route_record (layer : Z) : Prop :=
  match LefFindLayerByNum LefInfo layer with
  | Some lefl => lefClass lefl <> CLASS_ROUTE
  | None => True
  end.

End RouteQueries.

(** ** Diagnostics: [LefError] *)

Inductive err_type := LEF_ERROR | LEF_WARNING | DEF_ERROR | DEF_WARNING.

(** The two static counters of [LefError]. *)
Record err_counts := mkErr { fatal : Z; nonfatal : Z }.

(** What [LefError] prints: an input diagnostic (the line number it carries
    is not modelled), the notice that further diagnostics are suppressed, or
    the totals of the read. *)
Inductive diag :=
| DiagMessage (lefordef : ascii) (fmt : string)
| DiagSuppressed (lefordef : ascii)
| DiagTotals (lefordef : ascii) (nfatal nnonfatal : Z).

Definition is_totals (d : diag) : bool :=
  match d with DiagTotals _ _ _ => true | _ => false end.

Definition is_fatal (type : err_type) : bool :=
  match type with LEF_ERROR | DEF_ERROR => true | _ => false end.

Section Diagnostics.

(** [LEF_MAX_ERRORS] of the missing header [lef.h]. *)
Variable LEF_MAX_ERRORS : Z.

(** The global [Verbose]. *)
Variable Verbose : Z.

Definition LefError (type : err_type) (fmt : option string) (st : err_counts)
  : err_counts * list diag :=
  if Verbose =? 0 then (st, [])
  else
    let lefordef :=
      match type with DEF_WARNING | DEF_ERROR => "D"%char | _ => "L"%char end in
    let errors := fatal st + nonfatal st in
    match fmt with
    | None =>
        if 0 <? errors
        then (mkErr 0 0, [DiagTotals lefordef (fatal st) (nonfatal st)])
        else (st, [])
    | Some msg =>
        let out :=
          if errors <? LEF_MAX_ERRORS then [DiagMessage lefordef msg]
          else if errors =? LEF_MAX_ERRORS then [DiagSuppressed lefordef]
          else [] in
        match type with
        | LEF_ERROR | DEF_ERROR => (mkErr (fatal st + 1) (nonfatal st), out)
        | LEF_WARNING | DEF_WARNING => (mkErr (fatal st) (nonfatal st + 1), out)
        end
    end.

End Diagnostics.

(** ** Redefinition of a technology name: [LefRedefined] *)

(** The loop of [LefRedefined] over the registry: [records] counts the
    entries that are the record [lefl] itself, [altName] is the first name of
    the registry that differs from [redefname]. *)
Fixpoint LefRedefined_scan (n : nat) (LefInfo : list lefLayer) (lefl : nat)
    (redefname : string) (records : Z) (altName : option string)
  : Z * option string :=
  match LefInfo with
  | [] => (records, altName)
  | slef :: rest =>
      let records := if Nat.eqb n lefl then records + 1 else records in
      let altName :=
        match altName with
        | None => if String.eqb (lefName slef) redefname then None
                  else Some (lefName slef)
        | Some a => Some a
        end in
      LefRedefined_scan (S n) rest lefl redefname records altName
  end.

(** The assignments that close [LefRedefined]. *)
Definition lef_clear (newlefl : lefLayer) : lefLayer :=
  {| lefName := lefName newlefl;
     type := -1;
     obsType := -1;
     lefClass := lefClass newlefl;
     info_route := info_route newlefl;
     info_via :=
       {| via_area := mkDSEG 0%Q 0%Q 0%Q 0%Q (-1);
          via_lr := [];
          via_generated := via_generated (info_via newlefl);
          via_respervia := via_respervia (info_via newlefl) |} |}.

Definition set_lefName (l : lefLayer) (name : string) : lefLayer :=
  {| lefName := name; type := type l; obsType := obsType l;
     lefClass := lefClass l; info_route := info_route l; info_via := info_via l |}.

(** [LefRedefined].  [uninit] is the content of the record that [malloc]
    returns on the split path; the source copies the name of the new record
    from that record itself.  The result is the registry and the returned
    record. *)
Definition LefRedefined (uninit : lefLayer) (LefInfo : list lefLayer)
    (lefl : nat) (redefname : string) : option (list lefLayer * nat) :=
  let '(records, altName) := LefRedefined_scan 0 LefInfo lefl redefname 0 None in
  if records =? 1 then
    match LefInfo !! lefl with
    | Some l => Some (<[lefl := lef_clear l]> LefInfo, lefl)
    | None => None
    end
  else
    match LefFindLayer LefInfo redefname with
    | Some s =>
        match LefInfo !! s with
        | Some slef =>
            let newlefl := set_lefName uninit (lefName uninit) in
            let LefInfo1 :=
              if String.eqb (lefName slef) redefname then
                match altName with
                | Some a => <[s := set_lefName slef a]> LefInfo
                | None => LefInfo
                end
              else LefInfo in
            Some (lef_clear newlefl :: LefInfo1, 0%nat)
        | None => None
        end
    | None => None
    end.

(** The record that a lookup by name returns. *)
Definition LefLookup (LefInfo : list lefLayer) (token : string) : option lefLayer :=
  LefDeref LefInfo (LefFindLayer LefInfo token).

(** ** The via selection heuristic: [LefAssignLayerVias] *)

(** The four tables of via names indexed by base layer: [ViaXX], [ViaXY],
    [ViaYX], [ViaYY] (and the local [newViaXX] ... of the heuristic). *)
Record via_tables := mkViaTables {
  ViaXX : gmap Z string;
  ViaXY : gmap Z string;
  ViaYX : gmap Z string;
  ViaYY : gmap Z string }.

Definition no_vias : via_tables := mkViaTables ∅ ∅ ∅ ∅.

Definition set_generated (l : lefLayer) (g : bool) : lefLayer :=
  {| lefName := lefName l; type := type l; obsType := obsType l;
     lefClass := lefClass l; info_route := info_route l;
     info_via :=
       {| via_area := via_area (info_via l); via_lr := via_lr (info_via l);
          via_generated := g; via_respervia := via_respervia (info_via l) |} |}.

(** X extent less Y extent of a rectangle. *)
Definition xydiff (r : DSEG) : double :=
  ((ds_x2 r - ds_x1 r) - (ds_y2 r - ds_y1 r))%Q.

Section ViaSelection.

(** [MAX_LAYERS] and [EPS] of the missing header [qrouter.h]. *)
Variable MAX_LAYERS : Z.
Variable EPS : double.

(** The global [AllowedVias]. *)
Variable AllowedVias : list string.

(** One step of the first loop: the record as the loop leaves it and the
    base layer whose [hasGenerate] entry is set, if any.  A generated via
    with no rectangle list makes the loop dereference NULL. *)
Definition generate_step (lefl : lefLayer) : option (lefLayer * option Z) :=
  if lefClass_eqb (lefClass lefl) CLASS_VIA && via_generated (info_via lefl) then
    let baselayer := ds_layer (via_area (info_via lefl)) in
    match via_lr (info_via lefl) with
    | [] => None
    | r1 :: rest =>
        if ds_layer r1 <? 0 then Some (set_generated lefl false, None)
        else
          let baselayer :=
            if (baselayer <? 0) || (ds_layer r1 <? baselayer)
            then ds_layer r1 else baselayer in
          match rest with
          | r2 :: _ =>
              if ds_layer r2 <? 0 then Some (set_generated lefl false, None)
              else
                let baselayer :=
                  if (baselayer <? 0) || (ds_layer r2 <? baselayer)
                  then ds_layer r2 else baselayer in
                Some (lefl,
                      if (0 <=? baselayer) && (baselayer <? MAX_LAYERS)
                      then Some baselayer else None)
          | [] =>
              Some (lefl,
                    if (0 <=? baselayer) && (baselayer <? MAX_LAYERS)
                    then Some baselayer else None)
          end
    end
  else Some (lefl, None).

Fixpoint generate_loop (LefInfo : list lefLayer) (hasGenerate : gset Z)
  : option (list lefLayer * gset Z) :=
  match LefInfo with
  | [] => Some ([], hasGenerate)
  | lefl :: rest =>
      match generate_step lefl with
      | None => None
      | Some (lefl', flag) =>
          let hasGenerate :=
            match flag with Some b => {[ b ]} ∪ hasGenerate | None => hasGenerate end in
          match generate_loop rest hasGenerate with
          | None => None
          | Some (rest', hg) => Some (lefl' :: rest', hg)
          end
      end
  end.

(** The second loop: the lowest and highest route layer numbers. *)
Fixpoint route_range (LefInfo : list lefLayer) (minroute maxroute : Z) : Z * Z :=
  match LefInfo with
  | [] => (minroute, maxroute)
  | lefl :: rest =>
      if lefClass_eqb (lefClass lefl) CLASS_ROUTE then
        if minroute =? -1 then route_range rest (type lefl) (type lefl)
        else
          route_range rest
            (if type lefl <? minroute then type lefl else minroute)
            (if maxroute <? type lefl then type lefl else maxroute)
      else route_range rest minroute maxroute
  end.

Section Passes.

Variables minroute maxroute : Z.
Variable hasGenerate : gset Z.

Definition in_route_range (layer : Z) : bool :=
  (minroute <=? layer) && (layer <=? maxroute).

(** The head that the three passes share: base and top layer of a via and
    the elongations of its base and top rectangles.  [xybdiff] and [xytdiff]
    are locals of the function and keep their value from one via to the
    next when no rectangle sets them. *)
Definition via_extent (lefl : lefLayer) (xybdiff xytdiff : double)
  : Z * Z * double * double :=
  let area := via_area (info_via lefl) in
  let '(baselayer, xybdiff, xytdiff) :=
    if in_route_range (ds_layer area)
    then (ds_layer area, xydiff area, xydiff area)
    else (MAX_LAYERS, xybdiff, xytdiff) in
  let '(baselayer, xybdiff) :=
    fold_left
      (fun '(b, d) grect =>
         if in_route_range (ds_layer grect) && (ds_layer grect <? b)
         then (ds_layer grect, xydiff grect) else (b, d))
      (via_lr (info_via lefl)) (baselayer, xybdiff) in
  let '(toplayer, xytdiff) :=
    fold_left
      (fun '(t, d) grect =>
         if in_route_range (ds_layer grect) && (t <? ds_layer grect)
         then (ds_layer grect, xydiff grect) else (t, d))
      (via_lr (info_via lefl)) (baselayer, xytdiff) in
  (baselayer, toplayer, xybdiff, xytdiff).

(** The test that lets a via take part in a pass. *)
Definition via_usable (lefl : lefLayer) (baselayer toplayer : Z) : bool :=
  (baselayer <? MAX_LAYERS) && (toplayer <? MAX_LAYERS) &&
  (0 <=? baselayer) && (0 <=? toplayer) &&
  match AllowedVias with
  | _ :: _ => existsb (String.eqb (lefName lefl)) AllowedVias
  | [] => negb (bool_decide (baselayer ∈ hasGenerate) &&
                negb (via_generated (info_via lefl)))
  end.

(** A pass over the registry, [assign] being the body of the pass. *)
Fixpoint via_pass
    (assign : string -> Z -> double -> double -> via_tables -> via_tables)
    (LefInfo : list lefLayer) (st : via_tables * double * double)
  : via_tables * double * double :=
  match LefInfo with
  | [] => st
  | lefl :: rest =>
      let '(new, xybdiff, xytdiff) := st in
      if lefClass_eqb (lefClass lefl) CLASS_VIA then
        match via_lr (info_via lefl) with
        | [] => via_pass assign rest st
        | _ :: _ =>
            let '(baselayer, toplayer, xybdiff, xytdiff) :=
              via_extent lefl xybdiff xytdiff in
            if via_usable lefl baselayer toplayer
            then via_pass assign rest
                   (assign (lefName lefl) baselayer xybdiff xytdiff new,
                    xybdiff, xytdiff)
            else via_pass assign rest (new, xybdiff, xytdiff)
        end
      else via_pass assign rest st
  end.

End Passes.

Definition fill (m : gmap Z string) (b : Z) (name : string) : gmap Z string :=
  match m !! b with Some _ => m | None => <[b := name]> m end.

(** First pass: vias longer in one direction on both layers. *)
Definition assign1 (name : string) (b : Z) (xybdiff xytdiff : double)
    (new : via_tables) : via_tables :=
  if Qltb EPS xytdiff && Qltb xybdiff (- EPS) then
    mkViaTables (ViaXX new) (ViaXY new) (<[b := name]> (ViaYX new)) (ViaYY new)
  else if Qltb xytdiff (- EPS) && Qltb EPS xybdiff then
    mkViaTables (ViaXX new) (<[b := name]> (ViaXY new)) (ViaYX new) (ViaYY new)
  else if Qltb EPS xytdiff && Qltb EPS xybdiff then
    mkViaTables (<[b := name]> (ViaXX new)) (ViaXY new) (ViaYX new) (ViaYY new)
  else if Qltb xytdiff (- EPS) && Qltb xybdiff (- EPS) then
    mkViaTables (ViaXX new) (ViaXY new) (ViaYX new) (<[b := name]> (ViaYY new))
  else new.

(** Second pass: vias square on the top or on the bottom. *)
Definition assign2 (name : string) (b : Z) (xybdiff xytdiff : double)
    (new : via_tables) : via_tables :=
  if Qltb xytdiff EPS && Qltb (- EPS) xytdiff then
    let new :=
      if Qltb EPS xybdiff then
        mkViaTables (fill (ViaXX new) b name) (fill (ViaXY new) b name)
                    (ViaYX new) (ViaYY new)
      else new in
    if Qltb xybdiff (- EPS) then
      mkViaTables (ViaXX new) (ViaXY new)
                  (fill (ViaYX new) b name) (fill (ViaYY new) b name)
    else new
  else if Qltb xybdiff EPS && Qltb (- EPS) xybdiff then
    let new :=
      if Qltb EPS xytdiff then
        mkViaTables (fill (ViaXX new) b name) (ViaXY new)
                    (fill (ViaYX new) b name) (ViaYY new)
      else new in
    if Qltb xytdiff (- EPS) then
      mkViaTables (ViaXX new) (fill (ViaXY new) b name)
                  (ViaYX new) (fill (ViaYY new) b name)
    else new
  else new.

(** Third pass: vias square on both layers. *)
Definition assign3 (name : string) (b : Z) (xybdiff xytdiff : double)
    (new : via_tables) : via_tables :=
  if (Qltb xytdiff EPS && Qltb (- EPS) xytdiff) &&
     (Qltb xybdiff EPS && Qltb (- EPS) xybdiff) then
    mkViaTables (fill (ViaXX new) b name) (fill (ViaXY new) b name)
                (fill (ViaYX new) b name) (fill (ViaYY new) b name)
  else new.

(** The three passes, from empty tables. *)
Definition via_passes (minroute maxroute : Z) (hasGenerate : gset Z)
    (LefInfo : list lefLayer) (xybdiff xytdiff : double) : via_tables :=
  let st1 := via_pass minroute maxroute hasGenerate assign1 LefInfo
               (no_vias, xybdiff, xytdiff) in
  let st2 := via_pass minroute maxroute hasGenerate assign2 LefInfo st1 in
  let st3 := via_pass minroute maxroute hasGenerate assign3 LefInfo st2 in
  st3.1.1.

(** A slot of a table takes the value of a [char *]. *)
Definition set_slot (m : gmap Z string) (b : Z) (v : option string) : gmap Z string :=
  match v with Some name => <[b := name]> m | None => delete b m end.

Definition first_of (a b c : option string) : option string :=
  match a with
  | Some _ => a
  | None => match b with Some _ => b | None => c end
  end.

(** The body of the loop that copies the new tables into the global ones. *)
Definition backfill_layer (new : via_tables) (V : via_tables) (b : Z) : via_tables :=
  match ViaXX new !! b, ViaXY new !! b, ViaYX new !! b, ViaYY new !! b with
  | None, None, None, None => V
  | nxx, nxy, nyx, nyy =>
      let vxx := match nxx with Some _ => nxx | None => first_of nxy nyx nyy end in
      let vxy := match nxy with Some _ => nxy | None => first_of nxx nyy nyx end in
      let vyx := match nyx with Some _ => nyx | None => first_of nyy nxx nxy end in
      let vyy := match nyy with Some _ => nyy | None => first_of nyx nxy nxx end in
      mkViaTables (set_slot (ViaXX V) b vxx) (set_slot (ViaXY V) b vxy)
                  (set_slot (ViaYX V) b vyx) (set_slot (ViaYY V) b vyy)
  end.

Definition backfill (new : via_tables) (V : via_tables) : via_tables :=
  fold_left (backfill_layer new) (seqZ 0 MAX_LAYERS) V.

(** The tables [newVia**] as the three passes leave them; [None] when the
    first loop dereferences NULL. *)
Definition LefAssignLayerVias_new (LefInfo : list lefLayer)
    (xybdiff xytdiff : double) : option (list lefLayer * via_tables) :=
  match generate_loop LefInfo ∅ with
  | None => None
  | Some (LefInfo', hasGenerate) =>
      let '(minroute, maxroute) := route_range LefInfo' (-1) (-1) in
      Some (LefInfo',
            via_passes minroute maxroute hasGenerate LefInfo' xybdiff xytdiff)
  end.

(** [LefAssignLayerVias].  [xybdiff] and [xytdiff] are the values the two
    uninitialised locals hold on entry; [V] holds the global tables. *)
Definition LefAssignLayerVias (LefInfo : list lefLayer)
    (xybdiff xytdiff : double) (V : via_tables)
  : option (list lefLayer * via_tables) :=
  match LefAssignLayerVias_new LefInfo xybdiff xytdiff with
  | None => None
  | Some (LefInfo', new) => Some (LefInfo', backfill new V)
  end.

(** A valid via was recorded for base layer [b] during the passes. *)
Definition via_recorded (new : via_tables) (b : Z) : Prop :=
  is_Some (ViaXX new !! b) \/ is_Some (ViaXY new !! b) \/
  is_Some (ViaYX new !! b) \/ is_Some (ViaYY new !! b).

End ViaSelection.

(** The four slots of a base layer all hold a via name. *)
Definition all_slots (V : via_tables) (b : Z) : Prop :=
  is_Some (ViaXX V !! b) /\ is_Some (ViaXY V !! b) /\
  is_Some (ViaYX V !! b) /\ is_Some (ViaYY V !! b).


(** ** Polygons to rectangles: [LefPolygonToRects] *)

Definition HEDGE : Z := 0.
Definition REDGE : Z := 1.
Definition FEDGE : Z := -1.

(** An entry of the arrays [pts] and [edges]: a point of the list together
    with the point its [next] field designates. *)
Definition edge : Type := DPOINT * DPOINT.

Definition lefLowX (p q : DPOINT) : Z :=
  if Qltb (dp_x p) (dp_x q) then -1
  else if Qltb (dp_x q) (dp_x p) then 1 else 0.

Definition lefLowY (p q : DPOINT) : Z :=
  if Qltb (dp_y p) (dp_y q) then -1
  else if Qltb (dp_y q) (dp_y p) then 1 else 0.

(** The direction [lefOrient] gives to one edge; [None] when the edge is
    not Manhattan. *)
Definition edge_dir (e : edge) : option Z :=
  let '(p, q) := e in
  if Qeq_bool (dp_y p) (dp_y q) then Some HEDGE
  else if Qeq_bool (dp_x p) (dp_x q) then
    if Qltb (dp_y p) (dp_y q) then Some REDGE
    else if Qltb (dp_y q) (dp_y p) then Some FEDGE
    else Some HEDGE
  else None.

Fixpoint lefOrient (edges : list edge) : option (list Z) :=
  match edges with
  | [] => Some []
  | e :: rest =>
      match edge_dir e with
      | None => None
      | Some d =>
          match lefOrient rest with
          | None => None
          | Some dir => Some (d :: dir)
          end
      end
  end.

Definition lefCross (e : edge) (dir : Z) (ybot ytop : double) : bool :=
  if dir =? REDGE then
    Qle_bool (dp_y (fst e)) ybot && Qle_bool ytop (dp_y (snd e))
  else if dir =? FEDGE then
    Qle_bool (dp_y (snd e)) ybot && Qle_bool ytop (dp_y (fst e))
  else false.

(** The inner loop of the sweep, over the edges sorted by X with their
    directions, for the Y range [ybot, ytop].  New rectangles are linked at
    the head of [rex]. *)
Fixpoint scan_edges (ybot ytop : double) (edges : list (edge * Z))
    (wrapno : Z) (xbot : double) (rex : list DSEG) : list DSEG :=
  match edges with
  | [] => rex
  | (e, dir) :: rest =>
      let xbot := if wrapno =? 0 then dp_x (fst e) else xbot in
      if negb (lefCross e dir ybot ytop) then scan_edges ybot ytop rest wrapno xbot rex
      else
        let wrapno := wrapno + (if dir =? REDGE then 1 else -1) in
        if wrapno =? 0 then
          let xtop := dp_x (fst e) in
          if Qeq_bool xbot xtop then scan_edges ybot ytop rest wrapno xbot rex
          else
            scan_edges ybot ytop rest wrapno xbot
              (mkDSEG xbot ybot xtop ytop (dp_layer (fst e)) :: rex)
        else scan_edges ybot ytop rest wrapno xbot rex
  end.

(** The outer loop of the sweep: [ybot] is the Y of the point before
    [pts]; points at the same Y are passed over, and each new Y closes a
    range that the inner loop scans. *)
Fixpoint sweep (edges : list (edge * Z)) (xbot0 : double) (ybot : double)
    (pts : list DPOINT) (rex : list DSEG) : list DSEG :=
  match pts with
  | [] => rex
  | p :: rest =>
      if Qeq_bool ybot (dp_y p) then sweep edges xbot0 ybot rest rex
      else
        sweep edges xbot0 (dp_y p) rest
          (scan_edges ybot (dp_y p) edges 0 xbot0 rex)
  end.

(** The entries of [pts] and [edges]: every point that has a successor. *)
Fixpoint polygon_edges (pointlist : list DPOINT) : list edge :=
  match pointlist with
  | p :: (q :: _) as rest => (p, q) :: polygon_edges rest
  | _ => []
  end.

(** The path closed by a copy of its first point, when the last point is
    another one. *)
Definition close_path (pointlist : list DPOINT) : list DPOINT :=
  match pointlist with
  | [] => []
  | first :: _ =>
      let ptail := List.last pointlist first in
      if negb (Qeq_bool (dp_x ptail) (dp_x first)) ||
         negb (Qeq_bool (dp_y ptail) (dp_y first))
      then pointlist ++ [mkDPOINT (dp_x first) (dp_y first) (dp_layer first)]
      else pointlist
  end.

Section Polygon.

(** The library function [qsort]; the order it gives to entries that compare
    equal is not specified. *)
Variable qsort : forall A : Type, (A -> A -> Z) -> list A -> list A.

(** The rectangles [LefPolygonToRects] finds, most recent first.  The value
    of the local [xbot] on entry does not matter: the first step of each
    scan sets it. *)
Definition polygon_rects (pointlist : list DPOINT) : list DSEG :=
  let edges := polygon_edges (close_path pointlist) in
  let npts := Z.of_nat (length edges) in
  if npts <? 4 then []
  else
    let pts := qsort DPOINT lefLowY (map fst edges) in
    let edges := qsort edge (fun a b => lefLowX (fst a) (fst b)) edges in
    match lefOrient edges with
    | None => []
    | Some dir =>
        match pts with
        | [] => []
        | p0 :: rest => sweep (combine edges dir) 0%Q (dp_y p0) rest []
        end
    end.

(** [LefPolygonToRects]: the rectangles are appended to the list
    [rectListPtr] designates.  The two diagnostics of the function (fewer
    than four points, an edge that is not Manhattan) are not modelled. *)
Definition LefPolygonToRects (rectList : list DSEG) (pointlist : list DPOINT)
  : list DSEG :=
  match pointlist with
  | [] => rectList
  | _ :: _ => rectList ++ polygon_rects pointlist
  end.

End Polygon.

(** An insertion sort, one of the orders [qsort] may give. *)
Fixpoint sort_insert {A : Type} (cmp : A -> A -> Z) (a : A) (l : list A) : list A :=
  match l with
  | [] => [a]
  | b :: rest => if cmp a b <=? 0 then a :: l else b :: sort_insert cmp a rest
  end.

Fixpoint insertion_sort (A : Type) (cmp : A -> A -> Z) (l : list A) : list A :=
  match l with
  | [] => []
  | a :: rest => sort_insert cmp a (insertion_sort A cmp rest)
  end.

(** *** The region a closed path encloses *)

(** A point lies strictly inside a rectangle. *)
Definition inside (r : DSEG) (x y : Q) : Prop :=
  (ds_x1 r < x)%Q /\ (x < ds_x2 r)%Q /\ (ds_y1 r < y)%Q /\ (y < ds_y2 r)%Q.

(** Two rectangles share no interior point. *)
Definition rect_disjoint (r s : DSEG) : Prop :=
  (ds_x2 r <= ds_x1 s)%Q \/ (ds_x2 s <= ds_x1 r)%Q \/
  (ds_y2 r <= ds_y1 s)%Q \/ (ds_y2 s <= ds_y1 r)%Q.

(** The signed crossing of the ray that leaves [(x, y)] towards lower X
    with an edge: +1 for a vertical edge left of the point that rises
    through [y], -1 for one that falls through [y], 0 otherwise. *)
Definition crossing (x y : Q) (e : edge) : Z :=
  let '(p, q) := e in
  if Qeq_bool (dp_x p) (dp_x q) && Qltb (dp_x p) x then
    if Qltb (dp_y p) y && Qltb y (dp_y q) then 1
    else if Qltb (dp_y q) y && Qltb y (dp_y p) then -1
    else 0
  else 0.

Definition sumZ (l : list Z) : Z := fold_right Z.add 0 l.

(** The wrap (winding) number of the closed path around a point. *)
Definition winding (pointlist : list DPOINT) (x y : Q) : Z :=
  sumZ (map (crossing x y) (polygon_edges (close_path pointlist))).

(** The region enclosed by the path: the points it wraps around. *)
Definition enclosed (pointlist : list DPOINT) (x y : Q) : Prop :=
  winding pointlist x y <> 0.

(** A rectangle with its corners in order. *)
Definition rect_wf (r : DSEG) : Prop :=
  (ds_x1 r < ds_x2 r)%Q /\ (ds_y1 r < ds_y2 r)%Q.

(** A relation holds between every two entries of a list. *)
Fixpoint pairwise {A : Type} (R : A -> A -> Prop) (l : list A) : Prop :=
  match l with
  | [] => True
  | a :: l' => Forall (R a) l' /\ pairwise R l'
  end.

(** *** What the sweep adds up *)

(** The X of an entry of [edges]. *)
Definition ex (ed : edge * Z) : Q := dp_x (fst (fst ed)).

(** What an edge adds to [wrapno] in the range [ybot, ytop]. *)
Definition contrib (ybot ytop : Q) (ed : edge * Z) : Z :=
  if lefCross (fst ed) (snd ed) ybot ytop
  then (if snd ed =? REDGE then 1 else -1)
  else 0.

(** [wrapno] after all the edges, and after the edges left of [x]. *)
Definition total (ybot ytop : Q) (E : list (edge * Z)) : Z :=
  sumZ (map (contrib ybot ytop) E).

Definition psum (ybot ytop x : Q) (E : list (edge * Z)) : Z :=
  sumZ (map (fun ed => if Qltb (ex ed) x then contrib ybot ytop ed else 0) E).

(** The signed crossing of the line at height [y] with an edge, wherever
    the edge is along X. *)
Definition crossing_y (y : Q) (e : edge) : Z :=
  let '(p, q) := e in
  if Qeq_bool (dp_x p) (dp_x q) then
    if Qltb (dp_y p) y && Qltb y (dp_y q) then 1
    else if Qltb (dp_y q) y && Qltb y (dp_y p) then -1
    else 0
  else 0.

(** No end of the edge lies strictly inside the range [ybot, ytop]. *)
Definition outside_range (ybot ytop : Q) (e : edge) : Prop :=
  ((dp_y (fst e) <= ybot)%Q \/ (ytop <= dp_y (fst e))%Q) /\
  ((dp_y (snd e) <= ybot)%Q \/ (ytop <= dp_y (snd e))%Q).

(** The point is at [ybot] or lower, or at the height of a point of [pts]. *)
Definition vertex_level (ybot : Q) (pts : list DPOINT) (v : DPOINT) : Prop :=
  (dp_y v <= ybot)%Q \/ Exists (fun p => (dp_y v == dp_y p)%Q) pts.

(** 1 for a point below the height [y], 0 for a point above. *)
Definition below (y : Q) (v : DPOINT) : Z := if Qltb (dp_y v) y then 1 else 0.

(** An edge that is horizontal or vertical. *)
Definition manhattan_edge (e : edge) : Prop :=
  (dp_x (fst e) == dp_x (snd e))%Q \/ (dp_y (fst e) == dp_y (snd e))%Q.

(** The edges with the directions [lefOrient] gives them. *)
Definition annotate (edges : list edge) : list (edge * Z) :=
  map (fun e => (e, default HEDGE (edge_dir e))) edges.

(** Every edge of the closed path is horizontal or vertical. *)
Definition manhattan (pointlist : list DPOINT) : Prop :=
  Forall manhattan_edge (polygon_edges (close_path pointlist)).

(** The point is on none of the lines that carry a vertex of the path. *)
Definition off_grid (pointlist : list DPOINT) (x y : Q) : Prop :=
  Forall (fun p => ~ (x == dp_x p)%Q /\ ~ (y == dp_y p)%Q) pointlist.

(** ** Characters, strings and numbers of the input *)

Definition code (c : ascii) : Z := Z.of_nat (nat_of_ascii c).

Definition isupper (c : ascii) : bool := (65 <=? code c) && (code c <=? 90).
Definition islower (c : ascii) : bool := (97 <=? code c) && (code c <=? 122).

Definition tolower (c : ascii) : ascii :=
  if isupper c then ascii_of_nat (nat_of_ascii c + 32) else c.
Definition toupper (c : ascii) : ascii :=
  if islower c then ascii_of_nat (nat_of_ascii c - 32) else c.

Definition ascii_eqb (a b : ascii) : bool := Ascii.eqb a b.

(** [*token], the first character of a token ([NUL] for the empty one). *)
Definition first_char (token : string) : ascii :=
  match token with String c _ => c | EmptyString => zero end.

(** [strcasecmp (a, b) == 0]. *)
Fixpoint strcasecmp_eq (a b : string) : bool :=
  match a, b with
  | EmptyString, EmptyString => true
  | String x a', String y b' => ascii_eqb (tolower x) (tolower y) && strcasecmp_eq a' b'
  | _, _ => false
  end.

(** The matching loop of [Lookup]: what is left of the string and of the
    table entry when the loop stops. *)
Fixpoint Lookup_match (strc tabc : string) : string * string :=
  match strc, tabc with
  | String s strc', String t tabc' =>
      if negb (ascii_eqb t " "%char) &&
         (ascii_eqb t s ||
          (isupper t && islower s && ascii_eqb (tolower t) s) ||
          (islower t && isupper s && ascii_eqb (toupper t) s))
      then Lookup_match strc' tabc'
      else (strc, tabc)
  | _, _ => (strc, tabc)
  end.

Fixpoint Lookup_from (str : string) (table : list string) (pos : Z) (match_ : Z) : Z :=
  match table with
  | [] => match_
  | entry :: rest =>
      match Lookup_match str entry with
      | (EmptyString, tabc) =>
          if ascii_eqb (first_char tabc) " "%char || ascii_eqb (first_char tabc) zero
          then pos
          else if match_ =? -2 then Lookup_from str rest (pos + 1) pos
          else Lookup_from str rest (pos + 1) (-1)
      | _ => Lookup_from str rest (pos + 1) match_
      end
  end.

(** [Lookup]: the index of the entry that [str] is, or abbreviates without
    ambiguity; -1 when ambiguous, -2 when nothing matches. *)
Definition Lookup (str : string) (table : list string) : Z :=
  Lookup_from str table 0 (-2).

Fixpoint LookupFull_eq (sptr tptr : string) : bool :=
  match sptr, tptr with
  | EmptyString, EmptyString => true
  | String s sptr', String t tptr' =>
      ascii_eqb (toupper s) (toupper t) && LookupFull_eq sptr' tptr'
  | _, _ => false
  end.

Fixpoint LookupFull_from (name : string) (table : list string) (pos : Z) : Z :=
  match table with
  | [] => -1
  | entry :: rest =>
      if String.eqb name entry || LookupFull_eq name entry then pos
      else LookupFull_from name rest (pos + 1)
  end.

Definition LookupFull (name : string) (table : list string) : Z :=
  LookupFull_from name table 0.

Definition digit (c : ascii) : option Z :=
  if (48 <=? code c) && (code c <=? 57) then Some (code c - 48) else None.

(** The leading decimal digits of a string: their value after [acc], their
    number, and the rest of the string. *)
Fixpoint scan_digits (s : string) (acc : Z) (n : nat) : Z * nat * string :=
  match s with
  | String c rest =>
      match digit c with
      | Some d => scan_digits rest (10 * acc + d) (S n)
      | None => (acc, n, s)
      end
  | EmptyString => (acc, n, s)
  end.

Definition scan_sign (s : string) : bool * string :=
  match s with
  | String "-"%char rest => (true, rest)
  | String "+"%char rest => (false, rest)
  | _ => (false, s)
  end.


(** [sscanf (token, "%lg", &v) == 1] and [sscanf (token, "%f", &v) == 1]: an
    optional sign, decimal digits and an optional fraction at the head of the
    token (exponents and the special values are not modelled). *)
Definition sscanf_lg (token : string) : option double :=
  let '(neg, s) := scan_sign token in
  let '(ip, n, s) := scan_digits s 0 0%nat in
  let '(num, k, m) :=
    match s with
    | String "."%char rest =>
        let '(v, m, _) := scan_digits rest ip 0%nat in (v, m, (n + m)%nat)
    | _ => (ip, O, n)
    end in
  match m with
  | O => None
  | S _ =>
      Some (Qmake (if neg then - num else num) (Z.to_pos (10 ^ Z.of_nat k)))
  end.

(** ** The design database (qrouter.h) *)

Inductive seg_type := ST_WIRE | ST_VIA.

(** [struct seg_]: a wire or a via of a route, in grid positions. *)
Record SEG := mkSEG {
  segtype : seg_type;
  sg_x1 : Z; sg_y1 : Z; sg_x2 : Z; sg_y2 : Z;
  sg_layer : Z }.

(** [struct route_]; of [flags] only the bit [RT_CHECK] is used here. *)
Record ROUTE := mkROUTE {
  route_netnum : Z;
  route_segments : list SEG;
  route_RT_CHECK : bool }.

(** [struct node_]; the tap and extension points are not modelled. *)
Record NODE := mkNODE {
  nodenum : Z;
  node_netnum : Z;
  node_netname : option string;
  node_numnodes : Z }.

(** [struct net_]; of [flags] only the bit [NET_IGNORED] is used here. *)
Record NET := mkNET {
  netnum : Z;
  netname : string;
  net_NET_IGNORED : bool;
  numnodes : Z;
  netnodes : list NODE;
  routes : list ROUTE }.

(** [struct gate_], for a macro of [GateInfo] and for an instance of
    [Nlgates].  [gatetype] is the position of the macro in [GateInfo];
    [orient] is kept as its three bits; the array [noderec] is not
    modelled. *)
Record GATE := mkGATE {
  gatename : option string;
  gatetype : option nat;
  gate_width : double; gate_height : double;
  placedX : double; placedY : double;
  orient_MX : bool; orient_MY : bool; orient_R90 : bool;
  nodes : Z;
  node : list (option string);
  taps : list (list DSEG);
  gate_netnum : list Z;
  direction : list Z;
  gate_area : list double;
  obs : list DSEG }.

(** [struct tracks_]. *)
Record TRACKS := mkTRACKS { tr_start : double; tr_ntracks : Z; tr_pitch : double }.

(** The state the design reader works on: the token stream, the counters
    and the output of [LefError], and the globals the reader writes. *)
Record DefState := mkDefState {
  input : list string;
  errs : err_counts;
  diags : list diag;
  LefInfo : list lefLayer;
  Nlgates : list GATE;
  Nlnets : list NET;
  UserObs : list DSEG;
  PitchX : double; PitchY : double;
  Xlowerbound : double; Xupperbound : double;
  Ylowerbound : double; Yupperbound : double;
  Vert : gmap Z Z;
  Tracks : option (gmap Z TRACKS) }.

Definition set_input (st : DefState) (v : list string) : DefState :=
  mkDefState v (errs st) (diags st) (LefInfo st) (Nlgates st) (Nlnets st)
    (UserObs st) (PitchX st) (PitchY st) (Xlowerbound st) (Xupperbound st)
    (Ylowerbound st) (Yupperbound st) (Vert st) (Tracks st).

Definition set_diag (st : DefState) (e : err_counts) (d : list diag) : DefState :=
  mkDefState (input st) e d (LefInfo st) (Nlgates st) (Nlnets st)
    (UserObs st) (PitchX st) (PitchY st) (Xlowerbound st) (Xupperbound st)
    (Ylowerbound st) (Yupperbound st) (Vert st) (Tracks st).

Definition set_LefInfo (st : DefState) (v : list lefLayer) : DefState :=
  mkDefState (input st) (errs st) (diags st) v (Nlgates st) (Nlnets st)
    (UserObs st) (PitchX st) (PitchY st) (Xlowerbound st) (Xupperbound st)
    (Ylowerbound st) (Yupperbound st) (Vert st) (Tracks st).

Definition set_Nlgates (st : DefState) (v : list GATE) : DefState :=
  mkDefState (input st) (errs st) (diags st) (LefInfo st) v (Nlnets st)
    (UserObs st) (PitchX st) (PitchY st) (Xlowerbound st) (Xupperbound st)
    (Ylowerbound st) (Yupperbound st) (Vert st) (Tracks st).

Definition set_Nlnets (st : DefState) (v : list NET) : DefState :=
  mkDefState (input st) (errs st) (diags st) (LefInfo st) (Nlgates st) v
    (UserObs st) (PitchX st) (PitchY st) (Xlowerbound st) (Xupperbound st)
    (Ylowerbound st) (Yupperbound st) (Vert st) (Tracks st).

Definition set_UserObs (st : DefState) (v : list DSEG) : DefState :=
  mkDefState (input st) (errs st) (diags st) (LefInfo st) (Nlgates st) (Nlnets st)
    v (PitchX st) (PitchY st) (Xlowerbound st) (Xupperbound st)
    (Ylowerbound st) (Yupperbound st) (Vert st) (Tracks st).

Definition set_PitchX (st : DefState) (v : double) : DefState :=
  mkDefState (input st) (errs st) (diags st) (LefInfo st) (Nlgates st) (Nlnets st)
    (UserObs st) v (PitchY st) (Xlowerbound st) (Xupperbound st)
    (Ylowerbound st) (Yupperbound st) (Vert st) (Tracks st).

Definition set_PitchY (st : DefState) (v : double) : DefState :=
  mkDefState (input st) (errs st) (diags st) (LefInfo st) (Nlgates st) (Nlnets st)
    (UserObs st) (PitchX st) v (Xlowerbound st) (Xupperbound st)
    (Ylowerbound st) (Yupperbound st) (Vert st) (Tracks st).

Definition set_Xbounds (st : DefState) (lo hi : double) : DefState :=
  mkDefState (input st) (errs st) (diags st) (LefInfo st) (Nlgates st) (Nlnets st)
    (UserObs st) (PitchX st) (PitchY st) lo hi
    (Ylowerbound st) (Yupperbound st) (Vert st) (Tracks st).

Definition set_Ybounds (st : DefState) (lo hi : double) : DefState :=
  mkDefState (input st) (errs st) (diags st) (LefInfo st) (Nlgates st) (Nlnets st)
    (UserObs st) (PitchX st) (PitchY st) (Xlowerbound st) (Xupperbound st)
    lo hi (Vert st) (Tracks st).

Definition set_Vert (st : DefState) (v : gmap Z Z) : DefState :=
  mkDefState (input st) (errs st) (diags st) (LefInfo st) (Nlgates st) (Nlnets st)
    (UserObs st) (PitchX st) (PitchY st) (Xlowerbound st) (Xupperbound st)
    (Ylowerbound st) (Yupperbound st) v (Tracks st).

Definition set_Tracks (st : DefState) (v : option (gmap Z TRACKS)) : DefState :=
  mkDefState (input st) (errs st) (diags st) (LefInfo st) (Nlgates st) (Nlnets st)
    (UserObs st) (PitchX st) (PitchY st) (Xlowerbound st) (Xupperbound st)
    (Ylowerbound st) (Yupperbound st) (Vert st) v.

(** The reader monad: a step changes the state and gives a value, or
    dereferences NULL ([None]). *)
Definition M (A : Type) : Type := DefState -> option (A * DefState).

Definition ret {A : Type} (a : A) : M A := fun st => Some (a, st).

Definition bind {A B : Type} (m : M A) (k : A -> M B) : M B :=
  fun st => match m st with Some (a, st') => k a st' | None => None end.

Definition crash {A : Type} : M A := fun _ => None.

Definition get : M DefState := fun st => Some (st, st).

Definition modify (f : DefState -> DefState) : M unit := fun st => Some (tt, f st).

Declare Scope reader_scope.
Delimit Scope reader_scope with reader.
Notation "x <- m ;; k" := (bind m (fun x => k))
  (at level 63, m at next level, right associativity) : reader_scope.
Notation "m ;;; k" := (bind m (fun _ => k))
  (at level 63, right associativity) : reader_scope.
Local Open Scope reader_scope.

(** [LefNextToken (f, TRUE)]: the next token, or NULL at the end of the
    input. *)
Definition LefNextToken : M (option string) :=
  fun st =>
    match input st with
    | [] => Some (None, st)
    | token :: rest => Some (Some token, set_input st rest)
    end.

(** A token that the source dereferences without a test. *)
Definition deref {A : Type} (p : option A) : M A :=
  match p with Some a => ret a | None => crash end.

Definition LefNextToken_deref : M string :=
  token <- LefNextToken ;; deref token.

(** [LefEndStatement]: pass over the tokens up to the next [;]. *)
Fixpoint skip_statement (tokens : list string) : list string :=
  match tokens with
  | [] => []
  | token :: rest =>
      if ascii_eqb (first_char token) ";"%char then rest else skip_statement rest
  end.

Definition LefEndStatement : M unit :=
  modify (fun st => set_input st (skip_statement (input st))).

(** ** The design reader (def.c) and the readers of lef.c it calls *)

Definition set_type (l : lefLayer) (t : Z) : lefLayer :=
  {| lefName := lefName l; type := t; obsType := obsType l;
     lefClass := lefClass l; info_route := info_route l; info_via := info_via l |}.

Definition orientations : list string :=
  ["N"; "S"; "E"; "W"; "FN"; "FS"; "FE"; "FW"].

(** The placement of [DefReadLocation] written into a gate. *)
Definition set_location (gate : GATE) (x y : double) (mx my r90 : bool) : GATE :=
  mkGATE (gatename gate) (gatetype gate) (gate_width gate) (gate_height gate)
    x y mx my r90 (nodes gate) (node gate) (taps gate) (gate_netnum gate)
    (direction gate) (gate_area gate) (obs gate).

(** The flags [mxflag], [myflag], [r90flag] of an orientation keyword. *)
Definition orient_flags (keyword : Z) : bool * bool * bool :=
  if keyword =? 0 then (false, false, false)          (* DEF_NORTH *)
  else if keyword =? 1 then (true, true, false)       (* DEF_SOUTH *)
  else if keyword =? 4 then (true, false, false)      (* DEF_FLIPPED_NORTH *)
  else if keyword =? 5 then (false, true, false)      (* DEF_FLIPPED_SOUTH *)
  else if keyword =? 2 then (false, false, true)      (* DEF_EAST *)
  else if keyword =? 3 then (true, true, true)        (* DEF_WEST *)
  else if keyword =? 6 then (true, false, true)       (* DEF_FLIPPED_EAST *)
  else if keyword =? 7 then (false, true, true)       (* DEF_FLIPPED_WEST *)
  else (false, false, false).

(** The body of the loops of [DefReadComponents] over the tap and the
    obstruction rectangles of an instance: the offset from the origin of the
    macro, then the rotation, the two mirrors and the position. *)
Definition place_rect (gateginfo gate : GATE) (drect : DSEG) : DSEG :=
  let x1 := (ds_x1 drect - placedX gateginfo)%Q in
  let x2 := (ds_x2 drect - placedX gateginfo)%Q in
  let y1 := (ds_y1 drect - placedY gateginfo)%Q in
  let y2 := (ds_y2 drect - placedY gateginfo)%Q in
  let '(x1, y1, x2, y2) :=
    if orient_R90 gate then
      let tmp := y1 in
      let y1 := (- x1)%Q in
      let y1 := (y1 + gate_width gateginfo)%Q in
      let x1 := tmp in
      let tmp := y2 in
      let y2 := (- x2)%Q in
      let y2 := (y2 + gate_width gateginfo)%Q in
      let x2 := tmp in
      (x1, y1, x2, y2)
    else (x1, y1, x2, y2) in
  let '(x1, x2) :=
    if orient_MX gate then
      let tmp := x1 in
      let x1 := (- x2)%Q in
      let x1 := (x1 + (placedX gate + gate_width gateginfo))%Q in
      let x2 := (- tmp)%Q in
      let x2 := (x2 + (placedX gate + gate_width gateginfo))%Q in
      (x1, x2)
    else ((x1 + placedX gate)%Q, (x2 + placedX gate)%Q) in
  let '(y1, y2) :=
    if orient_MY gate then
      let tmp := y1 in
      let y1 := (- y2)%Q in
      let y1 := (y1 + (placedY gate + gate_height gateginfo))%Q in
      let y2 := (- tmp)%Q in
      let y2 := (y2 + (placedY gate + gate_height gateginfo))%Q in
      (y1, y2)
    else ((y1 + placedY gate)%Q, (y2 + placedY gate)%Q) in
  mkDSEG x1 y1 x2 y2 (ds_layer drect).

(** The steps the placement transform is made of, as the spec names them. *)
Definition rect_offset (dx dy : Q) (r : DSEG) : DSEG :=
  mkDSEG (ds_x1 r + dx)%Q (ds_y1 r + dy)%Q (ds_x2 r + dx)%Q (ds_y2 r + dy)%Q (ds_layer r).

Definition rect_rotate90 (width : Q) (r : DSEG) : DSEG :=
  mkDSEG (ds_y1 r) (width - ds_x1 r)%Q (ds_y2 r) (width - ds_x2 r)%Q (ds_layer r).

Definition rect_mirrorX (width : Q) (r : DSEG) : DSEG :=
  mkDSEG (width - ds_x2 r)%Q (ds_y1 r) (width - ds_x1 r)%Q (ds_y2 r) (ds_layer r).

Definition rect_mirrorY (height : Q) (r : DSEG) : DSEG :=
  mkDSEG (ds_x1 r) (height - ds_y2 r)%Q (ds_x2 r) (height - ds_y1 r)%Q (ds_layer r).

Definition placement_transform (gateginfo gate : GATE) (r : DSEG) : DSEG :=
  let r := rect_offset (- placedX gateginfo)%Q (- placedY gateginfo)%Q r in
  let r := if orient_R90 gate then rect_rotate90 (gate_width gateginfo) r else r in
  let r := if orient_MX gate then rect_mirrorX (gate_width gateginfo) r else r in
  let r := if orient_MY gate then rect_mirrorY (gate_height gateginfo) r else r in
  rect_offset (placedX gate) (placedY gate) r.

(** Two rectangles with equal coordinates on the same layer. *)
Definition rect_eq (r s : DSEG) : Prop :=
  (ds_x1 r == ds_x1 s)%Q /\ (ds_y1 r == ds_y1 s)%Q /\
  (ds_x2 r == ds_x2 s)%Q /\ (ds_y2 r == ds_y2 s)%Q /\ ds_layer r = ds_layer s.

(** The constants of the missing headers [lef.h] and [qrouter.h] and the
    globals that the design reader only reads. *)
Record Config := mkConfig {
  cfg_LEF_MAX_ERRORS : Z;
  cfg_MAX_TYPES : Z;
  cfg_EPS : double;
  cfg_VDD_NET : Z;
  cfg_GND_NET : Z;
  cfg_MIN_NET_NUMBER : Z;
  cfg_PORT_CLASS_DEFAULT : Z;
  cfg_Verbose : Z;
  cfg_Num_layers : Z;
  cfg_GateInfo : list GATE;
  cfg_PinMacro : option nat;
  cfg_vddnet : option string;
  cfg_gndnet : option string }.

Section DefReader.

Variable cfg : Config.

Abbreviation LEF_MAX_ERRORS := (cfg_LEF_MAX_ERRORS cfg).
Abbreviation MAX_TYPES := (cfg_MAX_TYPES cfg).
Abbreviation EPS := (cfg_EPS cfg).
Abbreviation VDD_NET := (cfg_VDD_NET cfg).
Abbreviation GND_NET := (cfg_GND_NET cfg).
Abbreviation MIN_NET_NUMBER := (cfg_MIN_NET_NUMBER cfg).
Abbreviation PORT_CLASS_DEFAULT := (cfg_PORT_CLASS_DEFAULT cfg).
Abbreviation Verbose := (cfg_Verbose cfg).
Abbreviation Num_layers := (cfg_Num_layers cfg).
Abbreviation GateInfo := (cfg_GateInfo cfg).
Abbreviation PinMacro := (cfg_PinMacro cfg).
Abbreviation vddnet := (cfg_vddnet cfg).
Abbreviation gndnet := (cfg_gndnet cfg).

Definition LefErrorM (type : err_type) (fmt : string) : M unit :=
  fun st =>
    let '(e, out) := LefError LEF_MAX_ERRORS Verbose type (Some fmt) (errs st) in
    Some (tt, set_diag st e (diags st ++ out)).

(** [LefParseEndStatement (f, match)] for a [match] that is not NULL. *)
Definition LefParseEndStatement (match_ : string) : M bool :=
  token <- LefNextToken ;;
  match token with
  | None =>
      LefErrorM LEF_ERROR "Bad file read while looking for END statement" ;;;
      ret false
  | Some token => ret (LookupFull token [match_] =? 0)
  end.

(** [LefReadLayer (f, FALSE)]. *)
Definition LefReadLayer : M Z :=
  token <- LefNextToken_deref ;;
  if ascii_eqb (first_char token) ";"%char then
    LefErrorM LEF_ERROR "Bad Layer statement" ;;; ret (-1)
  else
    st <- get ;;
    let lefl := LefFindLayer (LefInfo st) token in
    let rec := LefDeref (LefInfo st) lefl in
    let curlayer :=
      match rec with
      | Some l => if lefClass_eqb (lefClass l) CLASS_IGNORE then -1 else type l
      | None => -1
      end in
    if (curlayer <? 0) &&
       match rec with
       | Some l => negb (lefClass_eqb (lefClass l) CLASS_IGNORE)
       | None => true
       end
    then
      match lefl, rec with
      | Some i, Some l =>
          if lefClass_eqb (lefClass l) CLASS_CUT then
            let cuttype := LefGetMaxLayer (LefInfo st) in
            if cuttype <? MAX_TYPES then
              modify (fun st => set_LefInfo st (<[i := set_type l cuttype]> (LefInfo st))) ;;;
              ret cuttype
            else
              LefErrorM LEF_WARNING "Too many cut types;  type ignored." ;;;
              ret curlayer
          else if negb (lefClass_eqb (lefClass l) CLASS_VIA) then
            LefErrorM LEF_ERROR "Don't know how to parse layer" ;;; ret curlayer
          else ret curlayer
      | _, _ =>
          LefErrorM LEF_ERROR "Don't know how to parse layer" ;;; ret curlayer
      end
    else ret curlayer.

Definition rect_parse_error : M (option DSEG) :=
  LefErrorM LEF_ERROR "Bad port geometry: RECT requires 4 values." ;;; ret None.

(** [LefReadRect]: four numbers, each pair optionally in parentheses. *)
Definition LefReadRect (curlayer : Z) (oscale : double) : M (option DSEG) :=
  token <- LefNextToken_deref ;;
  r <- (if ascii_eqb (first_char token) "("%char
        then (t <- LefNextToken ;; ret (t, true))
        else ret (Some token, false)) ;;
  let '(token, needMatch) := r in
  match token ≫= sscanf_lg with
  | None => rect_parse_error
  | Some llx =>
      token <- LefNextToken ;;
      match token ≫= sscanf_lg with
      | None => rect_parse_error
      | Some lly =>
          token <- LefNextToken ;;
          r <- (if needMatch then
                  tk <- deref token ;;
                  if negb (ascii_eqb (first_char tk) ")"%char) then ret None
                  else (t <- LefNextToken ;; ret (Some t))
                else ret (Some token)) ;;
          match r with
          | None => rect_parse_error
          | Some token =>
              tk <- deref token ;;
              r <- (if ascii_eqb (first_char tk) "("%char
                    then (t <- LefNextToken ;; ret (t, true))
                    else ret (token, false)) ;;
              let '(token, needMatch) := r in
              match token ≫= sscanf_lg with
              | None => rect_parse_error
              | Some urx =>
                  token <- LefNextToken ;;
                  match token ≫= sscanf_lg with
                  | None => rect_parse_error
                  | Some ury =>
                      ok <- (if needMatch then
                               tk <- LefNextToken_deref ;;
                               ret (ascii_eqb (first_char tk) ")"%char)
                             else ret true) ;;
                      if ok then
                        (if curlayer <? 0
                         then LefErrorM LEF_WARNING "No layer defined for RECT."
                         else ret tt) ;;;
                        ret (Some (mkDSEG (llx / oscale)%Q (lly / oscale)%Q
                                          (urx / oscale)%Q (ury / oscale)%Q curlayer))
                      else rect_parse_error
                  end
              end
          end
      end
  end.


(** [DefReadLocation]: [( X Y ) orient].  The result is the returned value
    and the gate as the call leaves it.  The table of orientations has no
    closing NULL in the source; a token that is none of its entries makes
    [Lookup] read past the table, which is not modelled. *)
Definition DefReadLocation (gate : option GATE) (oscale : double)
  : M (Z * option GATE) :=
  token <- LefNextToken_deref ;;
  if negb (ascii_eqb (first_char token) "("%char) then
    LefErrorM DEF_ERROR "Cannot parse location: must be ( X Y ) orient" ;;;
    ret (-1, gate)
  else
    token <- LefNextToken_deref ;;
    match sscanf_lg token with
    | None =>
        LefErrorM DEF_ERROR "Cannot parse location: must be ( X Y ) orient" ;;;
        ret (-1, gate)
    | Some x =>
        token <- LefNextToken_deref ;;
        match sscanf_lg token with
        | None =>
            LefErrorM DEF_ERROR "Cannot parse location: must be ( X Y ) orient" ;;;
            ret (-1, gate)
        | Some y =>
            token <- LefNextToken_deref ;;
            if negb (ascii_eqb (first_char token) ")"%char) then
              LefErrorM DEF_ERROR "Cannot parse location: must be ( X Y ) orient" ;;;
              ret (-1, gate)
            else
              token <- LefNextToken_deref ;;
              let keyword := Lookup token orientations in
              if keyword <? 0 then
                LefErrorM DEF_ERROR "Unknown macro orientation." ;;;
                ret (-1, gate)
              else
                let '(mxflag, myflag, r90flag) := orient_flags keyword in
                ret (0,
                     match gate with
                     | Some g =>
                         Some (set_location g (x / oscale)%Q (y / oscale)%Q
                                 mxflag myflag r90flag)
                     | None => None
                     end)
        end
    end.

(** *** Components *)

Definition property_keys : list string :=
  ["FIXED"; "COVER"; "PLACED"; "UNPLACED"; "SOURCE"; "WEIGHT"; "FOREIGN";
   "REGION"; "GENERATE"; "PROPERTY"; "EEQMASTER"].

(** The search of [GateInfo] for a macro by name. *)
Fixpoint find_macro_from (n : nat) (l : list GATE) (name : string) : option nat :=
  match l with
  | [] => None
  | gateginfo :: rest =>
      match gatename gateginfo with
      | Some gn => if strcasecmp_eq gn name then Some n
                   else find_macro_from (S n) rest name
      | None => find_macro_from (S n) rest name
      end
  end.

(** The macro of an instance: [g->gatetype]. *)
Definition macro_of (g : option GATE) : option GATE :=
  match g with
  | Some g =>
      match gatetype g with
      | Some m => GateInfo !! m
      | None => None
      end
  | None => None
  end.

(** A name that is the global power or ground name. *)
Definition is_global_name (global name : option string) : bool :=
  match global, name with
  | Some g, Some n => String.eqb n g
  | _, _ => false
  end.

(** The net number an instance pin starts with: the reserved numbers for the
    global power and ground names, 0 otherwise. *)
Definition pin_netnum (name : option string) : Z :=
  if is_global_name vddnet name then VDD_NET
  else if is_global_name gndnet name then GND_NET
  else 0.

(** The rectangles of a list that lie on a routing layer, copied and linked
    at the head of the copy, then placed. *)
Definition place_rects (gateginfo gate : GATE) (l : list DSEG) : list DSEG :=
  map (place_rect gateginfo gate)
      (rev (filter (fun drect => bool_decide (ds_layer drect < Num_layers)) l)).

(** The block "Process the gate" of [DefReadComponents]. *)
Definition process_gate (gateginfo gate : GATE) : GATE :=
  let n := Z.to_nat (nodes gateginfo) in
  mkGATE (gatename gate) (gatetype gate)
    (gate_width gateginfo) (gate_height gateginfo)
    (placedX gate) (placedY gate)
    (orient_MX gate) (orient_MY gate) (orient_R90 gate)
    (nodes gateginfo)
    (take n (node gateginfo))
    (map (place_rects gateginfo gate) (take n (taps gateginfo)))
    (map pin_netnum (take n (node gateginfo)))
    (take n (direction gateginfo))
    (take n (gate_area gateginfo))
    (place_rects gateginfo gate (obs gateginfo)).

(** The loop over the [+] entries of a component statement. *)
Fixpoint component_properties (fuel : nat) (gate : option GATE) (oscale : double)
  : M (option GATE) :=
  match fuel with
  | O => crash
  | S fuel =>
      token <- LefNextToken ;;
      match token with
      | None => ret gate
      | Some token =>
          if ascii_eqb (first_char token) ";"%char then ret gate
          else if negb (ascii_eqb (first_char token) "+"%char)
          then component_properties fuel gate oscale
          else
            token <- LefNextToken_deref ;;
            let subkey := Lookup token property_keys in
            if subkey <? 0 then
              LefErrorM DEF_WARNING "Unknown component property; ignoring." ;;;
              component_properties fuel gate oscale
            else if subkey <=? 3 then
              r <- DefReadLocation gate oscale ;;
              component_properties fuel (snd r) oscale
            else
              LefNextToken ;;; component_properties fuel gate oscale
      end
  end.

(** The case [DEF_COMP_START] of [DefReadComponents]: one component
    statement.  [uninit] is the content of the record [malloc] returns.  The
    result is the increment of [err_fatal]. *)
Definition DefReadComponents_start (uninit : GATE) (oscale : double) : M Z :=
  token <- LefNextToken_deref ;;
  if String.eqb token "" then
    LefErrorM DEF_ERROR "Bad component statement:  Need use and macro names" ;;;
    LefEndStatement ;;; ret 1
  else
    let usename := token in
    token <- LefNextToken ;;
    found <- (match GateInfo with
              | [] => ret None
              | _ :: _ => tk <- deref token ;; ret (find_macro_from 0 GateInfo tk)
              end) ;;
    r <- (match found with
          | None =>
              LefErrorM DEF_ERROR "Could not find a macro definition" ;;;
              ret (1, None)
          | Some i =>
              ret (0, Some (mkGATE (Some usename) (Some i)
                              (gate_width uninit) (gate_height uninit)
                              (placedX uninit) (placedY uninit)
                              (orient_MX uninit) (orient_MY uninit) (orient_R90 uninit)
                              (nodes uninit) (node uninit) (taps uninit)
                              (gate_netnum uninit) (direction uninit)
                              (gate_area uninit) (obs uninit)))
          end) ;;
    let '(err_fatal, gate) := r in
    st <- get ;;
    gate <- component_properties (S (length (input st))) gate oscale ;;
    match gate, macro_of gate with
    | Some gate, Some gateginfo =>
        modify (fun st => set_Nlgates st (process_gate gateginfo gate :: Nlgates st)) ;;;
        ret err_fatal
    | _, _ => ret err_fatal
    end.

(** *** Pins *)

Definition pin_property_keys : list string :=
  ["NET"; "DIRECTION"; "LAYER"; "PLACED"; "USE"; "FIXED"; "COVER"].

Definition pin_classes : list string :=
  ["DEFAULT"; "INPUT"; "OUTPUT TRISTATE"; "OUTPUT"; "INOUT"; "FEEDTHRU"].

Definition pin_uses : list string :=
  ["DEFAULT"; "SIGNAL"; "ANALOG"; "POWER"; "GROUND"; "CLOCK"; "TIEOFF";
   "SCAN"; "RESET"].

Definition set_gate_names (gate : GATE) (name : option string) : GATE :=
  mkGATE name (gatetype gate) (gate_width gate) (gate_height gate)
    (placedX gate) (placedY gate) (orient_MX gate) (orient_MY gate)
    (orient_R90 gate) (nodes gate) [name] (taps gate) (gate_netnum gate)
    (direction gate) (gate_area gate) (obs gate).

Definition set_gate_direction (gate : GATE) (d : Z) : GATE :=
  mkGATE (gatename gate) (gatetype gate) (gate_width gate) (gate_height gate)
    (placedX gate) (placedY gate) (orient_MX gate) (orient_MY gate)
    (orient_R90 gate) (nodes gate) (node gate) (taps gate) (gate_netnum gate)
    [d] (gate_area gate) (obs gate).

Definition set_gate_size (gate : GATE) (w h : double) : GATE :=
  mkGATE (gatename gate) (gatetype gate) w h
    (placedX gate) (placedY gate) (orient_MX gate) (orient_MY gate)
    (orient_R90 gate) (nodes gate) (node gate) (taps gate) (gate_netnum gate)
    (direction gate) (gate_area gate) (obs gate).

(** The loop over the [+] entries of a pin statement; the state of the loop
    is the gate, [curlayer] and [pin_use]. *)
Fixpoint pin_properties (fuel : nat) (oscale : double) (gate : GATE)
    (curlayer : Z) (pin_use : Z) : M (GATE * Z * Z) :=
  match fuel with
  | O => crash
  | S fuel =>
      token <- LefNextToken ;;
      match token with
      | None => ret (gate, curlayer, pin_use)
      | Some token =>
          if ascii_eqb (first_char token) ";"%char then ret (gate, curlayer, pin_use)
          else if negb (ascii_eqb (first_char token) "+"%char)
          then pin_properties fuel oscale gate curlayer pin_use
          else
            token <- LefNextToken_deref ;;
            let subkey := Lookup token pin_property_keys in
            if subkey <? 0 then
              LefErrorM DEF_WARNING "Unknown pin property; ignoring." ;;;
              pin_properties fuel oscale gate curlayer pin_use
            else if subkey =? 0 then          (* DEF_PINS_PROP_NET *)
              token <- LefNextToken_deref ;;
              pin_properties fuel oscale (set_gate_names gate (Some token))
                curlayer pin_use
            else if subkey =? 1 then          (* DEF_PINS_PROP_DIR *)
              token <- LefNextToken_deref ;;
              let subkey := Lookup token pin_classes in
              if subkey <? 0 then
                LefErrorM DEF_ERROR "Unknown pin class" ;;;
                pin_properties fuel oscale gate curlayer pin_use
              else
                pin_properties fuel oscale (set_gate_direction gate subkey)
                  curlayer pin_use
            else if subkey =? 2 then          (* DEF_PINS_PROP_LAYER *)
              curlayer <- LefReadLayer ;;
              currect <- LefReadRect curlayer oscale ;;
              match currect with
              | Some currect =>
                  pin_properties fuel oscale
                    (set_gate_size gate (ds_x2 currect - ds_x1 currect)%Q
                                        (ds_y2 currect - ds_y1 currect)%Q)
                    curlayer pin_use
              | None => pin_properties fuel oscale gate curlayer pin_use
              end
            else if subkey =? 4 then          (* DEF_PINS_PROP_USE *)
              token <- LefNextToken_deref ;;
              let subkey := Lookup token pin_uses in
              if subkey <? 0 then
                LefErrorM DEF_ERROR "Unknown pin use" ;;;
                pin_properties fuel oscale gate curlayer pin_use
              else pin_properties fuel oscale gate curlayer subkey
            else                              (* PLACED, FIXED, COVER *)
              r <- DefReadLocation (Some gate) oscale ;;
              pin_properties fuel oscale (default gate (snd r)) curlayer pin_use
      end
  end.

(** The pin record as [DefReadPins] creates it, from the content [uninit] of
    the memory [malloc] returns. *)
Definition new_pin (uninit : GATE) : GATE :=
  mkGATE None PinMacro 0%Q 0%Q (placedX uninit) (placedY uninit)
    (orient_MX uninit) (orient_MY uninit) (orient_R90 uninit) (nodes uninit)
    [None] [[]] [-1] [PORT_CLASS_DEFAULT] [0%Q] (obs uninit).

(** The gate that the end of a pin statement links into [Nlgates]. *)
Definition finish_pin (LefInfo : list lefLayer) (PitchX PitchY : double)
    (pinname : string) (curlayer : Z) (gate : GATE) : GATE :=
  let gatename :=
    match gatename gate with Some n => Some n | None => Some pinname end in
  let hwidth := LefGetRouteWidth LefInfo PitchX PitchY curlayer in
  let width := if Qltb (gate_width gate) hwidth then hwidth else gate_width gate in
  let height := if Qltb (gate_height gate) hwidth then hwidth else gate_height gate in
  let hwidth := (hwidth / 2)%Q in
  let drect :=
    mkDSEG (placedX gate - hwidth)%Q (placedY gate - hwidth)%Q
           (placedX gate + hwidth)%Q (placedY gate + hwidth)%Q curlayer in
  mkGATE gatename (gatetype gate) width height (placedX gate) (placedY gate)
    (orient_MX gate) (orient_MY gate) (orient_R90 gate) 1
    (node gate) [[drect]] (gate_netnum gate) (direction gate) (gate_area gate) [].

(** The end of a pin statement: the pin becomes a gate when its layer is a
    routing layer, and is dropped otherwise. *)
Definition DefReadPins_finish (pinname : string) (curlayer : Z) (gate : GATE)
  : M unit :=
  if (0 <=? curlayer) && (curlayer <? Num_layers) then
    modify (fun st =>
      set_Nlgates st
        (finish_pin (LefInfo st) (PitchX st) (PitchY st) pinname curlayer gate
         :: Nlgates st))
  else
    LefErrorM DEF_ERROR "Pin is defined outside of route layer area!".

(** The case [DEF_PINS_START] of [DefReadPins]: one pin statement.  The
    result is the value of [pin_use] after the statement. *)
Definition DefReadPins_start (uninit : GATE) (oscale : double) (pin_use : Z)
  : M Z :=
  token <- LefNextToken_deref ;;
  if String.eqb token "" then
    LefErrorM DEF_ERROR "Bad pin statement:  Need pin name" ;;;
    LefEndStatement ;;; ret pin_use
  else
    let pinname := token in
    st <- get ;;
    r <- pin_properties (S (length (input st))) oscale (new_pin uninit) (-1) pin_use ;;
    let '(gate, curlayer, pin_use) := r in
    DefReadPins_finish pinname curlayer gate ;;; ret pin_use.

(** *** Tracks, units and die area: cases of [DefRead] *)

(** The locals of [DefRead] that live from one statement to the next. *)
Record DefReadLocals := mkLocals {
  oscale : double;
  curlayer : Z;
  err_fatal : Z;
  start : double; channels : Z; step : double;
  dXlowerbound : double; dYlowerbound : double;
  dXupperbound : double; dYupperbound : double }.

Definition set_oscale (l : DefReadLocals) (v : double) : DefReadLocals :=
  mkLocals v (curlayer l) (err_fatal l) (start l) (channels l) (step l)
    (dXlowerbound l) (dYlowerbound l) (dXupperbound l) (dYupperbound l).


Definition set_die (l : DefReadLocals) (r : DSEG) : DefReadLocals :=
  mkLocals (oscale l) (curlayer l) (err_fatal l) (start l) (channels l) (step l)
    (ds_x1 r) (ds_y1 r) (ds_x2 r) (ds_y2 r).


(** The case [DEF_DIEAREA]: the bounds take the midpoint of the die area. *)
Definition DefRead_diearea (l : DefReadLocals) : M DefReadLocals :=
  diearea <- LefReadRect 0 (oscale l) ;;
  diearea <- deref diearea ;;
  modify (fun st =>
    let mx := ((ds_x1 diearea + ds_x2 diearea) / 2)%Q in
    let my := ((ds_y1 diearea + ds_y2 diearea) / 2)%Q in
    set_Ybounds (set_Xbounds st mx mx) my my) ;;;
  LefEndStatement ;;;
  ret (set_die l diearea).

(** The assignments of the case [DEF_TRACKS] once the statement is read and
    its layer is a routing layer. *)
Definition apply_tracks (corient : ascii) (oscale start : double) (channels : Z)
    (step : double) (curlayer : Z) (st : DefState) : DefState :=
  let tracks := default ∅ (Tracks st) in
  let st :=
    set_Tracks st
      (Some (<[curlayer := mkTRACKS (start / oscale)%Q channels (step / oscale)%Q]>
               tracks)) in
  if ascii_eqb corient "x"%char then
    let st := set_Vert st (<[curlayer := 1]> (Vert st)) in
    let locpitch := (step / oscale)%Q in
    let st :=
      if Qeq_bool (PitchX st) 0 || Qltb locpitch (PitchX st)
      then set_PitchX st locpitch else st in
    let llx := start in
    let urx := (start + step * inject_Z channels)%Q in
    let st :=
      if Qltb (llx / oscale) (Xlowerbound st)
      then set_Xbounds st (llx / oscale)%Q (Xupperbound st) else st in
    if Qltb (Xupperbound st) (urx / oscale)
    then set_Xbounds st (Xlowerbound st) (urx / oscale)%Q else st
  else
    let st := set_Vert st (<[curlayer := 0]> (Vert st)) in
    let locpitch := (step / oscale)%Q in
    let st :=
      if Qeq_bool (PitchY st) 0 || Qltb locpitch (PitchY st)
      then set_PitchY st locpitch else st in
    let lly := start in
    let ury := (start + step * inject_Z channels)%Q in
    let st :=
      if Qltb (lly / oscale) (Ylowerbound st)
      then set_Ybounds st (lly / oscale)%Q (Yupperbound st) else st in
    if Qltb (Yupperbound st) (ury / oscale)
    then set_Ybounds st (Ylowerbound st) (ury / oscale)%Q else st.



(** The end of [DefRead]: the totals of the diagnostics are printed, and a
    bound that no TRACKS statement moved off the other takes the die area. *)
Definition DefRead_finish (l : DefReadLocals) : M Z :=
  (fun st =>
     let '(e, out) := LefError LEF_MAX_ERRORS Verbose DEF_ERROR None (errs st) in
     Some (tt, set_diag st e (diags st ++ out))) ;;;
  modify (fun st =>
    let st :=
      if Qeq_bool (Xlowerbound st) (Xupperbound st)
      then set_Xbounds st (dXlowerbound l) (dXupperbound l) else st in
    if Qeq_bool (Ylowerbound st) (Yupperbound st)
    then set_Ybounds st (dYlowerbound l) (dYupperbound l) else st) ;;;
  ret (err_fatal l).

(** *** Routes of a net: [DefAddRoutes] *)

Definition set_routes (net : NET) (r : list ROUTE) : NET :=
  mkNET (netnum net) (netname net) (net_NET_IGNORED net) (numnodes net)
    (netnodes net) r.

Definition set_netnodes (net : NET) (n : list NODE) : NET :=
  mkNET (netnum net) (netname net) (net_NET_IGNORED net) (numnodes net)
    n (routes net).

Definition set_numnodes (net : NET) (n : Z) (l : list NODE) : NET :=
  mkNET (netnum net) (netname net) (net_NET_IGNORED net) n l (routes net).

Definition set_ignored (net : NET) : NET :=
  mkNET (netnum net) (netname net) true (numnodes net) (netnodes net) (routes net).

(** A pointer to a route of a net.  Routes are linked at the head of
    [net->routes], so a route is designated by the number of routes the
    list had once the route was linked: its distance from the end. *)
Definition route_ptr := nat.

Definition route_index (net : NET) (p : route_ptr) : nat :=
  (length (routes net) - p)%nat.

Definition route_at (net : NET) (p : route_ptr) : option ROUTE :=
  if (p <=? length (routes net))%nat then routes net !! route_index net p else None.

(** [net->routes == routednet]. *)
Definition is_top_route (net : NET) (p : route_ptr) : bool :=
  (0 <? p)%nat && (p =? length (routes net))%nat.

Definition update_route (net : NET) (p : route_ptr) (f : ROUTE -> ROUTE) : NET :=
  set_routes net (alter f (route_index net p) (routes net)).

(** A new route record linked at the head of the routes of the net. *)
Definition new_route (net : NET) : NET * route_ptr :=
  let net := set_routes net (mkROUTE (netnum net) [] false :: routes net) in
  (net, length (routes net)).

Definition flag_RT_CHECK (r : ROUTE) : ROUTE :=
  mkROUTE (route_netnum r) (route_segments r) true.

Definition push_segment (seg : SEG) (r : ROUTE) : ROUTE :=
  mkROUTE (route_netnum r) (seg :: route_segments r) (route_RT_CHECK r).

(** Modelled from the spec: [remove_top_route] is not in the sources at
    hand; the spec has the stub route deleted from the route list of the
    net: the route at the head of the list is unlinked. *)
Definition remove_top_route (net : NET) : NET :=
  set_routes net (tail (routes net)).

(** The locals of [DefAddRoutes] that live from one token to the next. *)
Record RouteLocals := mkRouteLocals {
  rl_net : NET;
  rl_routednet : option route_ptr;
  rl_newRoute : bool;
  rl_refp : Z * Z;
  rl_valid : bool;
  rl_x : double; rl_y : double; rl_w : double;
  rl_routeLayer : Z; rl_paintLayer : Z }.

Definition noobstruct_of (special : Z) (net : NET) : bool :=
  (special =? 1) && negb (net_NET_IGNORED net) &&
  negb (netnum net =? VDD_NET) && negb (netnum net =? GND_NET).

(** The route record the segments go to: [routednet], or a new record when
    there is none. *)
Definition current_route (net : NET) (routednet : option route_ptr)
  : NET * route_ptr :=
  match routednet with
  | Some p => (net, p)
  | None => new_route net
  end.

(** The obstruction a via rectangle of a special net leaves at [(x, y)]. *)
Definition via_obstruction (x y s : double) (r : DSEG) (routeLayer : Z) : DSEG :=
  mkDSEG (x + ds_x1 r / 2 - s)%Q (y + ds_y1 r / 2 - s)%Q
         (x + ds_x2 r / 2 + s)%Q (y + ds_y2 r / 2 + s)%Q routeLayer.

(** The two loops of the via branch over the rectangles of the via: the
    lowest layer, the last layer seen, and the obstructions. *)
Definition via_rect_step (special : Z) (valid noobstruct : bool) (x y : double)
    (LefInfo : list lefLayer) (PitchX PitchY : double)
    (acc : Z * Z * list DSEG) (r : DSEG) : Z * Z * list DSEG :=
  let '(routeLayer, paintLayer, UserObs) := acc in
  if Num_layers <=? ds_layer r then acc
  else
    let routeLayer := ds_layer r in
    let paintLayer := if routeLayer <? paintLayer then routeLayer else paintLayer in
    if (0 <=? routeLayer) && (special =? 1) && valid && negb noobstruct then
      let s := LefGetRouteSpacing LefInfo PitchX PitchY routeLayer in
      (routeLayer, paintLayer, via_obstruction x y s r routeLayer :: UserObs)
    else (routeLayer, paintLayer, UserObs).

(** The obstruction a wire of a special net leaves between [(lx, ly)] and
    [(x, y)]. *)
Definition wire_obstruction (lx ly x y w s : double) (routeLayer : Z) : DSEG :=
  let hw := (w / 2)%Q in
  let '(x1, x2) :=
    if Qltb x lx then ((x - s)%Q, (lx + s)%Q)
    else if Qltb lx x then ((lx - s)%Q, (x + s)%Q)
    else ((x - hw - s)%Q, (x + hw + s)%Q) in
  let '(y1, y2) :=
    if Qltb y ly then ((y - s)%Q, (ly + s)%Q)
    else if Qltb ly y then ((ly - s)%Q, (y + s)%Q)
    else ((y - hw - s)%Q, (y + hw + s)%Q) in
  mkDSEG x1 y1 x2 y2 routeLayer.

(** The loop at [endCoord]: the tokens up to the closing parenthesis. *)
Fixpoint find_rparen (token : string) (tokens : list string)
  : option (string * list string) :=
  if ascii_eqb (first_char token) ")"%char then Some (token, tokens)
  else
    match tokens with
    | [] => None
    | t :: rest => find_rparen t rest
    end.

Definition endCoord (token : string) : M unit :=
  fun st =>
    match find_rparen token (input st) with
    | Some (_, rest) => Some (tt, set_input st rest)
    | None => None
    end.

(** The grid position of a coordinate, and whether it is more than a third
    of a pitch off the grid. *)
Definition grid_of (v lowerbound pitch : double) : Z :=
  int_of_double ((1 # 2) + ((v - lowerbound + EPS) / pitch))%Q.

Definition off_third (g : Z) (v lowerbound pitch : double) : bool :=
  Qltb (33 # 100)%Q (ABSDIFF (inject_Z g) ((v - lowerbound) / pitch)%Q).

Definition flag_check (special : Z) (off : bool) (L : RouteLocals) : NET :=
  if (special =? 0) && off then
    match rl_routednet L with
    | Some p => update_route (rl_net L) p flag_RT_CHECK
    | None => rl_net L
    end
  else rl_net L.

(** The branch of the loop that starts a route: the first pass and the
    keyword [NEW]. *)
Definition route_new (oscale : double) (special : Z) (L : RouteLocals)
  : M RouteLocals :=
  token <- LefNextToken ;;
  st <- get ;;
  let routeLayer :=
    match token with
    | Some t => LefFindLayerNum (LefInfo st) t
    | None => -1
    end in
  let L := mkRouteLocals (rl_net L) (rl_routednet L) (rl_newRoute L) (rl_refp L)
             false (rl_x L) (rl_y L) (rl_w L) routeLayer (rl_paintLayer L) in
  if routeLayer <? 0 then
    LefErrorM DEF_ERROR "Unknown layer type for NEW route" ;;; ret L
  else if Num_layers <=? routeLayer then
    LefErrorM DEF_ERROR "DEF file contains layer which is not allowed by the layer limit setting" ;;;
    ret L
  else
    let paintLayer := routeLayer in
    let L := mkRouteLocals (rl_net L) (rl_routednet L) (rl_newRoute L) (rl_refp L)
               false (rl_x L) (rl_y L) (rl_w L) routeLayer paintLayer in
    let width := LefGetRouteWidth (LefInfo st) (PitchX st) (PitchY st) paintLayer in
    if special =? 1 then
      token <- LefNextToken_deref ;;
      match sscanf_lg token with
      | None => LefErrorM DEF_ERROR "Bad width in special net" ;;; ret L
      | Some w =>
          let w := if Qeq_bool w 0 then width else (w / oscale)%Q in
          ret (mkRouteLocals (rl_net L) (rl_routednet L) (rl_newRoute L)
                 (rl_refp L) false (rl_x L) (rl_y L) w routeLayer paintLayer)
      end
    else
      let w := width in
      if special =? 0 then
        let '(net, p) := new_route (rl_net L) in
        ret (mkRouteLocals net (Some p) (rl_newRoute L) (rl_refp L) false
               (rl_x L) (rl_y L) w routeLayer paintLayer)
      else
        ret (mkRouteLocals (rl_net L) (rl_routednet L) (rl_newRoute L)
               (rl_refp L) false (rl_x L) (rl_y L) w routeLayer paintLayer).

(** The branch of the loop for a via name, once the reference point is
    valid. *)
Definition route_via (special : Z) (noobstruct : bool) (token : string)
    (L : RouteLocals) : M RouteLocals :=
  st <- get ;;
  match LefDeref (LefInfo st) (LefFindLayer (LefInfo st) token) with
  | None => LefErrorM DEF_ERROR "Via name unknown in route." ;;; ret L
  | Some lefl =>
      r <- (if lefClass_eqb (lefClass lefl) CLASS_VIA then
              let area := via_area (info_via lefl) in
              let step :=
                via_rect_step special (rl_valid L) noobstruct (rl_x L) (rl_y L)
                  (LefInfo st) (PitchX st) (PitchY st) in
              let acc :=
                if ds_layer area <? Num_layers
                then
                  let '(rL, pL, obs) :=
                    step (-1, Num_layers - 1, UserObs st)
                         (mkDSEG (ds_x1 area) (ds_y1 area) (ds_x2 area) (ds_y2 area)
                                 (ds_layer area)) in
                  (rL, pL, obs)
                else (-1, Num_layers - 1, UserObs st) in
              let '(routeLayer, paintLayer, obs) :=
                fold_left step (via_lr (info_via lefl)) acc in
              let paintLayer := if routeLayer =? -1 then type lefl else paintLayer in
              modify (fun st => set_UserObs st obs) ;;;
              ret (routeLayer, paintLayer)
            else ret (rl_routeLayer L, type lefl)) ;;
      let '(routeLayer, paintLayer) := r in
      if (special =? 0) && (0 <=? paintLayer) && (paintLayer <? Num_layers - 1) then
        let seg := mkSEG ST_VIA (fst (rl_refp L)) (snd (rl_refp L))
                     (fst (rl_refp L)) (snd (rl_refp L)) paintLayer in
        let '(net, p) := current_route (rl_net L) (rl_routednet L) in
        ret (mkRouteLocals (update_route net p (push_segment seg)) (Some p) true
               (rl_refp L) (rl_valid L) (rl_x L) (rl_y L) (rl_w L)
               routeLayer paintLayer)
      else
        (if Num_layers - 1 <=? paintLayer
         then LefErrorM DEF_WARNING "Via exceeds layer limit setting."
         else if special =? 0
              then LefErrorM DEF_ERROR "Via does not define a metal layer!"
              else ret tt) ;;;
        ret (mkRouteLocals (rl_net L) (rl_routednet L) (rl_newRoute L)
               (rl_refp L) (rl_valid L) (rl_x L) (rl_y L) (rl_w L)
               routeLayer paintLayer)
  end.

(** One coordinate of a point of a route: [*] keeps the value of the
    reference point, a number sets it.  The result is [None] when the branch
    goes to [endCoord] without the coordinate. *)
Definition route_coord_x (oscale : double) (special : Z) (token : string)
    (L : RouteLocals) : M (option RouteLocals) :=
  if ascii_eqb (first_char token) "*"%char then
    if negb (rl_valid L) then
      LefErrorM DEF_ERROR "No reference point for * wildcard" ;;; ret None
    else ret (Some L)
  else
    match sscanf_lg token with
    | Some x =>
        st <- get ;;
        let x := (x / oscale)%Q in
        let g := grid_of x (Xlowerbound st) (PitchX st) in
        let net := flag_check special (off_third g x (Xlowerbound st) (PitchX st)) L in
        ret (Some (mkRouteLocals net (rl_routednet L) (rl_newRoute L)
                     (g, snd (rl_refp L)) (rl_valid L) x (rl_y L) (rl_w L)
                     (rl_routeLayer L) (rl_paintLayer L)))
    | None => LefErrorM DEF_ERROR "Cannot parse X coordinate." ;;; ret None
    end.

(** The same for Y.  When [*] comes without a reference point the source
    frees the segment read last, which is still linked in its route: the
    step is a memory error when there is such a segment. *)
Definition route_coord_y (oscale : double) (special : Z) (token : string)
    (L : RouteLocals) : M (option RouteLocals) :=
  if ascii_eqb (first_char token) "*"%char then
    if negb (rl_valid L) then
      LefErrorM DEF_ERROR "No reference point for * wildcard" ;;;
      if rl_newRoute L then crash else ret None
    else ret (Some L)
  else
    match sscanf_lg token with
    | Some y =>
        st <- get ;;
        let y := (y / oscale)%Q in
        let g := grid_of y (Ylowerbound st) (PitchY st) in
        let net := flag_check special (off_third g y (Ylowerbound st) (PitchY st)) L in
        ret (Some (mkRouteLocals net (rl_routednet L) (rl_newRoute L)
                     (fst (rl_refp L), g) (rl_valid L) (rl_x L) y (rl_w L)
                     (rl_routeLayer L) (rl_paintLayer L)))
    | None => LefErrorM DEF_ERROR "Cannot parse Y coordinate." ;;; ret None
    end.

(** What a point does once both coordinates are read: the first point makes
    the reference valid; a later one gives a wire from the reference point
    ([locarea], [lx], [ly]) for a net, an obstruction for a special net. *)
Definition route_point (special : Z) (noobstruct : bool) (locarea : Z * Z)
    (lx ly : double) (L : RouteLocals) : M RouteLocals :=
  if negb (rl_valid L) then
    ret (mkRouteLocals (rl_net L) (rl_routednet L) (rl_newRoute L) (rl_refp L)
           true (rl_x L) (rl_y L) (rl_w L) (rl_routeLayer L) (rl_paintLayer L))
  else if negb (fst locarea =? fst (rl_refp L)) && negb (snd locarea =? snd (rl_refp L))
  then
    LefErrorM DEF_ERROR "Can't deal with nonmanhattan geometry in route." ;;; ret L
  else if negb (special =? 0) then
    (if rl_valid L && negb noobstruct then
       modify (fun st =>
         let s := LefGetRouteSpacing (LefInfo st) (PitchX st) (PitchY st)
                    (rl_routeLayer L) in
         set_UserObs st
           (wire_obstruction lx ly (rl_x L) (rl_y L) (rl_w L) s (rl_routeLayer L)
            :: UserObs st))
     else ret tt) ;;;
    ret L
  else if (0 <=? rl_paintLayer L) && (rl_paintLayer L <? Num_layers) then
    let seg := mkSEG ST_WIRE (fst (rl_refp L)) (snd (rl_refp L))
                 (fst locarea) (snd locarea) (rl_paintLayer L) in
    let '(net, p) := current_route (rl_net L) (rl_routednet L) in
    ret (mkRouteLocals (update_route net p (push_segment seg)) (Some p) true
           (rl_refp L) (rl_valid L) (rl_x L) (rl_y L) (rl_w L)
           (rl_routeLayer L) (rl_paintLayer L))
  else if Num_layers <=? rl_paintLayer L then
    LefErrorM DEF_ERROR "Route layer exceeds layer limit setting!" ;;; ret L
  else ret L.

(** The branch of the loop for a point [( X Y )]. *)
Definition route_coords (oscale : double) (special : Z) (noobstruct : bool)
    (L : RouteLocals) : M RouteLocals :=
  let L := mkRouteLocals (rl_net L) (rl_routednet L) (rl_newRoute L) (rl_refp L)
             (rl_valid L) (rl_x L) (rl_y L) (rl_w L) (rl_routeLayer L)
             (rl_routeLayer L) in
  let locarea := rl_refp L in
  let lx := rl_x L in
  let ly := rl_y L in
  token <- LefNextToken_deref ;;
  rx <- route_coord_x oscale special token L ;;
  match rx with
  | None => endCoord token ;;; ret L
  | Some Lx =>
      token <- LefNextToken_deref ;;
      ry <- route_coord_y oscale special token Lx ;;
      match ry with
      | None => endCoord token ;;; ret Lx
      | Some Ly =>
          L' <- route_point special noobstruct locarea lx ly Ly ;;
          endCoord token ;;; ret L'
      end
  end.

(** The loop of [DefAddRoutes].  The result is the token the loop stops on
    and the locals. *)
Fixpoint route_loop (fuel : nat) (oscale : double) (special : Z)
    (noobstruct : bool) (initial : bool) (L : RouteLocals)
  : M (option string * RouteLocals) :=
  match fuel with
  | O => crash
  | S fuel =>
      token <- (if initial then ret (Some "") else LefNextToken) ;;
      match token with
      | None => ret (None, L)
      | Some token =>
          if initial || String.eqb token "NEW" || String.eqb token "new" then
            L <- route_new oscale special L ;;
            route_loop fuel oscale special noobstruct false L
          else if negb (ascii_eqb (first_char token) "("%char) then
            if ascii_eqb (first_char token) ";"%char ||
               ascii_eqb (first_char token) "+"%char
            then ret (Some token, L)
            else if negb (rl_valid L) then
              LefErrorM DEF_ERROR "Route has via name but no points!" ;;;
              route_loop fuel oscale special noobstruct false L
            else
              L <- route_via special noobstruct token L ;;
              route_loop fuel oscale special noobstruct false L
          else
            L <- route_coords oscale special noobstruct L ;;
            route_loop fuel oscale special noobstruct false L
      end
  end.

(** The ends of a segment are one track apart, along X or along Y. *)
Definition one_track (seg : SEG) : bool :=
  let ix := ABSDIFFZ (sg_x1 seg) (sg_x2 seg) in
  let iy := ABSDIFFZ (sg_y1 seg) (sg_y2 seg) in
  ((ix =? 0) && (iy =? 1)) || ((ix =? 1) && (iy =? 0)).

(** The end of [DefAddRoutes]: a route that is the head of the list, is
    flagged [RT_CHECK] and is one segment that spans one track is removed. *)
Definition stub_removal (net : NET) (routednet : option route_ptr) : NET :=
  match routednet with
  | Some p =>
      match route_at net p with
      | Some r =>
          if is_top_route net p && route_RT_CHECK r then
            match route_segments r with
            | [seg] => if one_track seg then remove_top_route net else net
            | _ => net
            end
          else net
      | None => net
      end
  | None => net
  end.

(** [DefAddRoutes]: the token the statement stops on and the net.  The
    locals [x], [y] and [w] start with the values [x0], [y0], [w0]. *)
Definition DefAddRoutes (x0 y0 w0 : double) (oscale : double) (net : NET)
    (special : Z) : M (option string * NET) :=
  st <- get ;;
  let L := mkRouteLocals net None false (0, 0) false x0 y0 w0 (-1) (-1) in
  r <- route_loop (S (S (length (input st)))) oscale special
         (noobstruct_of special net) true L ;;
  let '(token, L) := r in
  ret (token, stub_removal (rl_net L) (rl_routednet L)).

(** *** Nets: [DefReadNets] *)

Definition net_keys : list string := ["-"; "END"].

Definition net_property_keys : list string :=
  ["USE"; "ROUTED"; "FIXED"; "COVER"; "SHAPE"; "SOURCE"; "WEIGHT"; "PROPERTY"].

(** [DefFindNet] (the version without hash tables): the position in
    [Nlnets] of the first net with the name, case ignored. *)
Fixpoint DefFindNet_from (i : nat) (nets : list NET) (name : string) : option nat :=
  match nets with
  | [] => None
  | net :: rest =>
      if strcasecmp_eq (netname net) name then Some i
      else DefFindNet_from (S i) rest name
  end.

Definition DefFindNet (nets : list NET) (name : string) : option nat :=
  DefFindNet_from 0 nets name.

(** [DefFindGate] (the version without hash tables). *)
Fixpoint DefFindGate_from (i : nat) (gates : list GATE) (name : string) : option nat :=
  match gates with
  | [] => None
  | ginst :: rest =>
      if match gatename ginst with
         | Some n => strcasecmp_eq n name
         | None => false
         end
      then Some i
      else DefFindGate_from (S i) rest name
  end.

Definition DefFindGate (gates : list GATE) (name : string) : option nat :=
  DefFindGate_from 0 gates name.

(** The position of the first pin of a macro with the name, case ignored. *)
Fixpoint find_pin_from (i : nat) (names : list (option string)) (pinname : string)
  : option nat :=
  match names with
  | [] => None
  | n :: rest =>
      if match n with Some s => strcasecmp_eq s pinname | None => false end
      then Some i
      else find_pin_from (S i) rest pinname
  end.

Definition set_gate_netnum (g : GATE) (i : nat) (n : Z) : GATE :=
  mkGATE (gatename g) (gatetype g) (gate_width g) (gate_height g)
    (placedX g) (placedY g) (orient_MX g) (orient_MY g) (orient_R90 g)
    (nodes g) (node g) (taps g) (<[i := n]> (gate_netnum g))
    (direction g) (gate_area g) (obs g).

(** [DefReadGatePin]: the node joins the net when the instance and its pin
    are found.  The grid points of the taps are not modelled. *)
Definition DefReadGatePin (net : NET) (nd : NODE) (instname pinname : string)
  : M NET :=
  st <- get ;;
  match DefFindGate (Nlgates st) instname with
  | None => ret net
  | Some gi =>
      match macro_of (Nlgates st !! gi) with
      | None =>
          LefErrorM DEF_ERROR "Endpoint of net not found" ;;; ret net
      | Some gateginfo =>
          match find_pin_from 0 (take (Z.to_nat (nodes gateginfo)) (node gateginfo))
                              pinname with
          | None => ret net
          | Some i =>
              let node := mkNODE (nodenum nd) (netnum net) (Some (netname net))
                            (node_numnodes nd) in
              modify (fun st =>
                set_Nlgates st
                  (alter (fun g => set_gate_netnum g i (netnum net)) gi (Nlgates st))) ;;;
              ret (set_netnodes net (node :: netnodes net))
          end
      end
  end.

(** The loop of a net statement that reads routes until [;]. *)
Fixpoint routes_loop (fuel : nat) (x0 y0 w0 oscale : double) (special : Z)
    (token : option string) (net : NET) : M (option string * NET) :=
  match fuel with
  | O => crash
  | S fuel =>
      match token with
      | None => ret (token, net)
      | Some t =>
          if ascii_eqb (first_char t) ";"%char then ret (token, net)
          else
            r <- DefAddRoutes x0 y0 w0 oscale net special ;;
            routes_loop fuel x0 y0 w0 oscale special (fst r) (snd r)
      end
  end.

(** The locals of [DefReadNets] that a net statement uses. *)
Record NetLocals := mkNetLocals {
  nl_netidx : Z;
  nl_fixed : Z;
  nl_processed : Z }.

(** The loop "Process all properties" of a net statement.  [net] is the net
    of the statement, [nodeidx] and [fixed] are the locals of that name. *)
Fixpoint net_properties (fuel : nat) (x0 y0 w0 oscale : double) (special : Z)
    (is_new : bool) (token : option string) (net : NET) (nodeidx fixed : Z)
  : M (NET * Z) :=
  match fuel with
  | O => crash
  | S fuel =>
      match token with
      | None => ret (net, fixed)
      | Some t =>
          if ascii_eqb (first_char t) ";"%char then ret (net, fixed)
          else if ascii_eqb (first_char t) "("%char then
            instname <- LefNextToken_deref ;;
            token <- LefNextToken_deref ;;
            let '(instname, pinname) :=
              if strcasecmp_eq instname "pin" then (token, "pin")
              else (instname, token) in
            net <- DefReadGatePin net (mkNODE nodeidx 0 None 0) instname pinname ;;
            token <- LefNextToken ;;
            net_properties fuel x0 y0 w0 oscale special is_new token net
              (nodeidx + 1) fixed
          else if negb (ascii_eqb (first_char t) "+"%char) then
            token <- LefNextToken ;;
            net_properties fuel x0 y0 w0 oscale special is_new token net
              nodeidx fixed
          else
            token <- LefNextToken_deref ;;
            let subkey := Lookup token net_property_keys in
            if subkey <? 0 then
              LefErrorM DEF_WARNING "Unknown net property in NET definition; ignoring." ;;;
              net_properties fuel x0 y0 w0 oscale special is_new (Some token) net
                nodeidx fixed
            else if subkey =? 4 then          (* DEF_NETPROP_SHAPE *)
              token <- LefNextToken ;;
              net_properties fuel x0 y0 w0 oscale special is_new token net
                nodeidx fixed
            else if (subkey =? 1) || (subkey =? 2) || (subkey =? 3) then
              (* DEF_NETPROP_FIXED and DEF_NETPROP_COVER fall through to
                 DEF_NETPROP_ROUTED *)
              let '(net, fixed) :=
                if ((subkey =? 2) || (subkey =? 3)) && is_new
                then (set_ignored net, fixed + 1) else (net, fixed) in
              st <- get ;;
              r <- routes_loop (S (length (input st))) x0 y0 w0 oscale special
                     (Some token) net ;;
              let '(token, net) := r in
              let fixed :=
                if ((subkey =? 1) || (subkey =? 2)) && (special =? 1) &&
                   ((netnum net =? VDD_NET) || (netnum net =? GND_NET))
                then fixed + 1 else fixed in
              net_properties fuel x0 y0 w0 oscale special is_new token net
                nodeidx fixed
            else
              net_properties fuel x0 y0 w0 oscale special is_new (Some token) net
                nodeidx fixed
      end
  end.

(** The number a new net takes and the next value of [netidx]. *)
Definition new_netnum (token : string) (netidx : Z) : Z * Z :=
  if is_global_name vddnet (Some token) then (VDD_NET, netidx)
  else if is_global_name gndnet (Some token) then (GND_NET, netidx)
  else (netidx, netidx + 1).

(** The case [DEF_NET_START] of [DefReadNets]: one net statement. *)
Definition DefReadNets_start (x0 y0 w0 oscale : double) (special : Z)
    (l : NetLocals) : M NetLocals :=
  token <- LefNextToken_deref ;;
  st <- get ;;
  r <- (match DefFindNet (Nlnets st) token with
        | None =>
            let '(num, netidx) := new_netnum token (nl_netidx l) in
            let net := mkNET num token false 0 [] [] in
            modify (fun st => set_Nlnets st (Nlnets st ++ [net])) ;;;
            ret (length (Nlnets st), net, netidx, 0, true)
        | Some i =>
            net <- deref (Nlnets st !! i) ;;
            ret (i, net, nl_netidx l, numnodes net, false)
        end) ;;
  let '(i, net, netidx, nodeidx, is_new) := r in
  token <- LefNextToken ;;
  st <- get ;;
  r <- net_properties (S (length (input st))) x0 y0 w0 oscale special is_new
         token net nodeidx (nl_fixed l) ;;
  let '(net, fixed) := r in
  modify (fun st => set_Nlnets st (<[i := net]> (Nlnets st))) ;;;
  ret (mkNetLocals netidx fixed (nl_processed l + 1)).

(** The loop of [DefReadNets] over the statements of the section. *)
Fixpoint nets_loop (fuel : nat) (sname : string) (x0 y0 w0 oscale : double)
    (special : Z) (l : NetLocals) : M NetLocals :=
  match fuel with
  | O => crash
  | S fuel =>
      token <- LefNextToken ;;
      match token with
      | None => ret l
      | Some token =>
          let keyword := Lookup token net_keys in
          if keyword <? 0 then
            LefErrorM DEF_WARNING "Unknown keyword in NET definition; ignoring." ;;;
            LefEndStatement ;;;
            nets_loop fuel sname x0 y0 w0 oscale special l
          else if keyword =? 0 then
            l <- DefReadNets_start x0 y0 w0 oscale special l ;;
            nets_loop fuel sname x0 y0 w0 oscale special l
          else
            ok <- LefParseEndStatement sname ;;
            if ok then ret l
            else
              LefErrorM DEF_ERROR "Net END statement missing." ;;;
              nets_loop fuel sname x0 y0 w0 oscale special l
      end
  end.

(** The loop that closes [DefReadNets]: the nodes of each net are counted
    into [numnodes], and each node takes the count of its net. *)
Definition count_nodes (net : NET) : NET :=
  let n := numnodes net + Z.of_nat (length (netnodes net)) in
  set_numnodes net n
    (map (fun node => mkNODE (nodenum node) (node_netnum node)
                        (node_netname node) n)
         (netnodes net)).

(** [DefReadNets]: a NETS ([special] = 0) or SPECIALNETS ([special] = 1)
    section.  The call of [set_num_channels] and the array [home] belong to
    the grid of the router and are not modelled. *)
Definition DefReadNets (x0 y0 w0 : double) (sname : string) (oscale : double)
    (special : Z) (total : Z) : M Z :=
  st <- get ;;
  let Numnets := Z.of_nat (length (Nlnets st)) in
  let netidx := if Numnets =? 0 then MIN_NET_NUMBER else Numnets in
  l <- nets_loop (S (length (input st))) sname x0 y0 w0 oscale special
         (mkNetLocals netidx 0 0) ;;
  (if special =? 0
   then modify (fun st => set_Nlnets st (map count_nodes (Nlnets st)))
   else ret tt) ;;;
  (if nl_processed l =? total then ret tt
   else LefErrorM DEF_WARNING
          "Warning:  Number of nets read does not match the number declared.") ;;;
  ret (nl_fixed l).

End DefReader.

(** ** More of the technology model and of the readers *)

(** [LefLower]: the token with its upper-case letters made lower case. *)
Fixpoint LefLower (token : string) : string :=
  match token with
  | EmptyString => EmptyString
  | String c rest => String (tolower c) (LefLower rest)
  end.

(** A string with no space character. *)
Fixpoint no_space (s : string) : Prop :=
  match s with
  | EmptyString => True
  | String c rest => c <> " "%char /\ no_space rest
  end.

(** [str] abbreviates the table entry [entry]: ignoring case, it is the
    head of the entry, before any space of the entry. *)
Definition abbreviates (str entry : string) : Prop :=
  exists e1 e2, entry = (e1 ++ e2)%string /\ no_space e1 /\
                LefLower e1 = LefLower str.

(** [str] is the table entry [entry], up to case and to what the entry
    holds after a space ([first_char] is NUL where the entry ends). *)
Definition names_entry (str entry : string) : Prop :=
  exists e1 e2, entry = (e1 ++ e2)%string /\ no_space e1 /\
                LefLower e1 = LefLower str /\
                (first_char e2 = zero \/ first_char e2 = " "%char).

(** The tests of [Lookup] on what its matching loop leaves. *)
Definition Lookup_abbrev (str entry : string) : bool :=
  match fst (Lookup_match str entry) with EmptyString => true | _ => false end.

Definition Lookup_exact (str entry : string) : bool :=
  match Lookup_match str entry with
  | (EmptyString, tabc) =>
      ascii_eqb (first_char tabc) " "%char || ascii_eqb (first_char tabc) zero
  | _ => false
  end.

(** A keyword: a string with no space and no NUL character. *)
Fixpoint plain (s : string) : Prop :=
  match s with
  | EmptyString => True
  | String c rest => c <> " "%char /\ c <> zero /\ plain rest
  end.

(** *** Layer numbers and route queries (lef.c) *)

Fixpoint LefGetMaxRouteLayer_from (maxlayer : Z) (LefInfo : list lefLayer) : Z :=
  match LefInfo with
  | [] => maxlayer + 1
  | lefl :: rest =>
      if negb (lefClass_eqb (lefClass lefl) CLASS_ROUTE)
      then LefGetMaxRouteLayer_from maxlayer rest
      else LefGetMaxRouteLayer_from
             (if maxlayer <? type lefl then type lefl else maxlayer) rest
  end.

Definition LefGetMaxRouteLayer (LefInfo : list lefLayer) : Z :=
  LefGetMaxRouteLayer_from (-1) LefInfo.

Definition LefGetRoutePitchX (LefInfo : list lefLayer) (PitchX : double)
    (layer : Z) : double :=
  match LefFindLayerByNum LefInfo layer with
  | Some lefl =>
      if lefClass_eqb (lefClass lefl) CLASS_ROUTE then rt_pitchx (info_route lefl)
      else PitchX
  | None => PitchX
  end.

Definition LefGetRoutePitchY (LefInfo : list lefLayer) (PitchY : double)
    (layer : Z) : double :=
  match LefFindLayerByNum LefInfo layer with
  | Some lefl =>
      if lefClass_eqb (lefClass lefl) CLASS_ROUTE then rt_pitchy (info_route lefl)
      else PitchY
  | None => PitchY
  end.

Definition set_pitchx (l : lefLayer) (value : double) : lefLayer :=
  let r := info_route l in
  {| lefName := lefName l; type := type l; obsType := obsType l;
     lefClass := lefClass l;
     info_route :=
       mkLefRoute (rt_width r) (rt_spacing r) value (rt_pitchy r)
         (rt_offsetx r) (rt_offsety r) (rt_hdirection r) (rt_minarea r);
     info_via := info_via l |}.

Definition set_pitchy (l : lefLayer) (value : double) : lefLayer :=
  let r := info_route l in
  {| lefName := lefName l; type := type l; obsType := obsType l;
     lefClass := lefClass l;
     info_route :=
       mkLefRoute (rt_width r) (rt_spacing r) (rt_pitchx r) value
         (rt_offsetx r) (rt_offsety r) (rt_hdirection r) (rt_minarea r);
     info_via := info_via l |}.

(** [LefSetRoutePitchX] and [LefSetRoutePitchY]: the record that
    [LefFindLayerByNum] finds is updated in place when it is a route
    layer. *)
Fixpoint LefSetRoutePitchX (LefInfo : list lefLayer) (layer : Z) (value : double)
  : list lefLayer :=
  match LefInfo with
  | [] => []
  | lefl :: rest =>
      if type lefl =? layer then
        (if lefClass_eqb (lefClass lefl) CLASS_ROUTE then set_pitchx lefl value
         else lefl) :: rest
      else lefl :: LefSetRoutePitchX rest layer value
  end.

Fixpoint LefSetRoutePitchY (LefInfo : list lefLayer) (layer : Z) (value : double)
  : list lefLayer :=
  match LefInfo with
  | [] => []
  | lefl :: rest =>
      if type lefl =? layer then
        (if lefClass_eqb (lefClass lefl) CLASS_ROUTE then set_pitchy lefl value
         else lefl) :: rest
      else lefl :: LefSetRoutePitchY rest layer value
  end.

(** *** Spacing rules (lef.c) *)

(** The loop of [LefGetRouteWideSpacing] over the rules, [spacing] being
    the value found so far. *)
Fixpoint wide_spacing_loop (rules : list lefSpacingRule) (width spacing : double)
  : double :=
  match rules with
  | [] => spacing
  | srule :: rest =>
      if Qltb width (sr_width srule) then spacing
      else wide_spacing_loop rest width (sr_spacing srule)
  end.

(** [LefGetRouteWideSpacing]; the rule list of a route layer is
    dereferenced without a test. *)
Definition LefGetRouteWideSpacing (LefInfo : list lefLayer) (PitchX PitchY : double)
    (layer : Z) (width : double) : option double :=
  match LefFindLayerByNum LefInfo layer with
  | Some lefl =>
      if lefClass_eqb (lefClass lefl) CLASS_ROUTE then
        match rt_spacing (info_route lefl) with
        | sr :: _ =>
            Some (wide_spacing_loop (rt_spacing (info_route lefl)) width (sr_spacing sr))
        | [] => None
        end
      else Some (MIN PitchX PitchY / 2)%Q
  | None => Some (MIN PitchX PitchY / 2)%Q
  end.

(** The insertion of a rule with a width range in [LefReadLayerSection]
    (statements SPACING ... RANGE and SPACINGTABLE): the loop looks for the
    first rule [testrule] whose successor is missing or wider than the new
    rule, and links the new rule after it; an empty list takes the rule as
    its head. *)
Fixpoint insert_rule_after (next : list lefSpacingRule) (newrule : lefSpacingRule)
  : list lefSpacingRule :=
  match next with
  | [] => [newrule]
  | n :: rest =>
      if Qltb (sr_width newrule) (sr_width n) then newrule :: next
      else n :: insert_rule_after rest newrule
  end.

Definition insert_spacing_rule (rules : list lefSpacingRule) (newrule : lefSpacingRule)
  : list lefSpacingRule :=
  match rules with
  | [] => [newrule]
  | testrule :: next => testrule :: insert_rule_after next newrule
  end.

(** *** Diagnostics in sequence *)

(** A run of calls of [LefError], each with a message. *)
Fixpoint LefError_calls (LEF_MAX_ERRORS Verbose : Z)
    (calls : list (err_type * string)) (st : err_counts) : err_counts * list diag :=
  match calls with
  | [] => (st, [])
  | (type, msg) :: rest =>
      let '(st1, out1) := LefError LEF_MAX_ERRORS Verbose type (Some msg) st in
      let '(st2, out2) := LefError_calls LEF_MAX_ERRORS Verbose rest st1 in
      (st2, (out1 ++ out2)%list)
  end.

Definition is_message (d : diag) : bool :=
  match d with DiagMessage _ _ => true | _ => false end.

Definition is_suppressed (d : diag) : bool :=
  match d with DiagSuppressed _ => true | _ => false end.

(** *** Polygons *)

(** The corners of the rectangle are at coordinates of points of [V], and
    its layer is the layer of the point that gives its right side. *)
Definition on_vertices (V : list DPOINT) (r : DSEG) : Prop :=
  exists p q a b,
    p ∈ V /\ q ∈ V /\ a ∈ V /\ b ∈ V /\
    ds_x1 r = dp_x p /\ ds_x2 r = dp_x q /\ ds_layer r = dp_layer q /\
    ds_y1 r = dp_y a /\ ds_y2 r = dp_y b.

(** *** More readers of lef.c *)

Definition end_section : list string := ["END"; "ENDEXT"].

Definition set_info_via (l : lefLayer) (v : lefVia) : lefLayer :=
  {| lefName := lefName l; type := type l; obsType := obsType l;
     lefClass := lefClass l; info_route := info_route l; info_via := v |}.

(** The update of [LefAddViaGeometry]: the first rectangle of a via goes
    into [info.via.area], and is added to the enclosure rectangles that a
    VIARULE GENERATE statement left in [info.via.lr]; the later ones are
    linked at the head of [info.via.lr]. *)
Definition add_via_rect (v : lefVia) (currect : DSEG) : lefVia :=
  if ds_layer (via_area v) <? 0 then
    mkLefVia currect
      (map (fun viarect =>
              mkDSEG (ds_x1 viarect + ds_x1 currect)%Q (ds_y1 viarect + ds_y1 currect)%Q
                     (ds_x2 viarect + ds_x2 currect)%Q (ds_y2 viarect + ds_y2 currect)%Q
                     (ds_layer viarect))
           (via_lr v))
      (via_generated v) (via_respervia v)
  else
    mkLefVia (via_area v) (currect :: via_lr v) (via_generated v) (via_respervia v).

Section LefReader.

Variable cfg : Config.

(** [LefSkipSection] for a section name that is not NULL. *)
Fixpoint LefSkipSection_loop (fuel : nat) (section : string) : M unit :=
  match fuel with
  | O => crash
  | S fuel =>
      token <- LefNextToken ;;
      match token with
      | None => LefErrorM cfg LEF_ERROR "Section has no END record!"
      | Some token =>
          let keyword := Lookup token end_section in
          if keyword =? 0 then
            ok <- LefParseEndStatement cfg section ;;
            if ok : bool then ret tt else LefSkipSection_loop fuel section
          else if keyword =? 1 then
            if String.eqb section "BEGINEXT" then ret tt
            else LefSkipSection_loop fuel section
          else LefSkipSection_loop fuel section
      end
  end.

Definition LefSkipSection (section : string) : M unit :=
  st <- get ;; LefSkipSection_loop (S (length (input st))) section.



(** [LefAddViaGeometry]; [lefl] is the position of the via record in the
    registry. *)
Definition LefAddViaGeometry (lefl : nat) (curlayer : Z) (oscale : double) : M unit :=
  currect <- LefReadRect cfg curlayer (oscale / 2)%Q ;;
  match currect with
  | None => ret tt
  | Some currect =>
      st <- get ;;
      l <- deref (LefInfo st !! lefl) ;;
      modify (fun st =>
                set_LefInfo st
                  (<[lefl := set_info_via l (add_via_rect (info_via l) currect)]>
                     (LefInfo st)))
  end.



End LefReader.


(** *** Via tables *)

(** The via names of the four tables at the base layers. *)
Definition via_table_entry (T : via_tables) (b : Z) (name : string) : Prop :=
  ViaXX T !! b = Some name \/ ViaXY T !! b = Some name \/
  ViaYX T !! b = Some name \/ ViaYY T !! b = Some name.

(** A via that the heuristic may select for the base layer [b]: a record of
    the registry of class VIA with this name, for a base layer of the
    router, and one of the allowed vias when there is a list of them. *)
Definition selectable_via (MAX_LAYERS : Z) (AllowedVias : list string)
    (LefInfo : list lefLayer) (name : string) (b : Z) : Prop :=
  (exists lefl, lefl ∈ LefInfo /\ lefName lefl = name /\ lefClass lefl = CLASS_VIA) /\
  0 <= b < MAX_LAYERS /\
  (AllowedVias <> [] -> name ∈ AllowedVias).

(** Every via name of the tables has the property [P] for its base layer. *)
Definition names_ok (P : string -> Z -> Prop) (T : via_tables) : Prop :=
  forall b name, via_table_entry T b name -> P name b.

(** *** Via sizes: [LefGetXYViaWidth] *)

(** The tables that [LefGetXYViaWidth] tries for an orientation, in the
    order of its four [switch] statements; an orientation that is none of
    0..3 leaves the table pointer unset. *)
Definition orient_tables (V : via_tables) (orient : Z)
  : option (gmap Z string * gmap Z string * gmap Z string * gmap Z string) :=
  if orient =? 0 then Some (ViaXX V, ViaXY V, ViaYX V, ViaYY V)
  else if orient =? 1 then Some (ViaXY V, ViaYX V, ViaYY V, ViaYX V)
  else if orient =? 2 then Some (ViaYX V, ViaYY V, ViaXX V, ViaXY V)
  else if orient =? 3 then Some (ViaYY V, ViaYX V, ViaXY V, ViaXX V)
  else None.

(** [LefFindLayer] on the name in slot [base] of a table; an empty slot is
    a NULL name, for which [LefFindLayer] returns NULL. *)
Definition find_via (LefInfo : list lefLayer) (t : gmap Z string) (base : Z)
  : option lefLayer :=
  match t !! base with
  | Some name => LefLookup LefInfo name
  | None => None
  end.

Definition rect_width (r : DSEG) (dir : Z) : double :=
  if dir =? 0 then (ds_x2 r - ds_x1 r)%Q else (ds_y2 r - ds_y1 r)%Q.

Fixpoint via_lr_width (lr : list DSEG) (layer dir : Z) : option double :=
  match lr with
  | [] => None
  | lrect :: rest =>
      if ds_layer lrect =? layer then Some (rect_width lrect dir / 2)%Q
      else via_lr_width rest layer dir
  end.

(** The width that a via record gives for a layer, if it has a rectangle
    on the layer. *)
Definition via_width (lefl : lefLayer) (layer dir : Z) : option double :=
  if lefClass_eqb (lefClass lefl) CLASS_VIA then
    if ds_layer (via_area (info_via lefl)) =? layer
    then Some (rect_width (via_area (info_via lefl)) dir / 2)%Q
    else via_lr_width (via_lr (info_via lefl)) layer dir
  else None.

Definition LefGetXYViaWidth (LefInfo : list lefLayer) (PitchX PitchY : double)
    (V : via_tables) (base layer dir orient : Z) : option double :=
  match orient_tables V orient with
  | None => None
  | Some (t0, t1, t2, t3) =>
      let lefl := match t0 !! 0 with
                  | None => None
                  | Some _ => find_via LefInfo t0 base
                  end in
      let lefl := match lefl with Some _ => lefl | None => find_via LefInfo t1 base end in
      let lefl := match lefl with Some _ => lefl | None => find_via LefInfo t2 base end in
      let lefl := match lefl with Some _ => lefl | None => find_via LefInfo t3 base end in
      Some (match lefl ≫= (fun l => via_width l layer dir) with
            | Some w => w
            | None => (MIN PitchX PitchY / 2)%Q
            end)
  end.

Definition LefGetViaWidth (LefInfo : list lefLayer) (PitchX PitchY : double)
    (V : via_tables) (base layer dir : Z) : option double :=
  LefGetXYViaWidth LefInfo PitchX PitchY V base layer dir 0.

(** *** The generated vias written to the output: [LefWriteGeneratedVias] *)

(** A rectangle as [fprintf] writes it: the name of the layer and four
    integers. *)
Record via_rect_out := mkRectOut {
  ro_layer : string; ro_x1 : Z; ro_y1 : Z; ro_x2 : Z; ro_y2 : Z }.

(** What the function prints: the header [VIAS n ;], a via record, and
    [END VIAS]. *)
Inductive def_out :=
| OutVias (numvias : Z)
| OutVia (name : string) (rects : list via_rect_out)
| OutEndVias.

Section WriteVias.

(** The global [CIFLayer] (names of the layers by number) and
    [Num_layers]. *)
Variable CIFLayer : Z -> string.
Variable Num_layers : Z.

Definition bad_layer (r : DSEG) : bool :=
  (ds_layer r <? 0) || (Num_layers <=? ds_layer r).

(** The first pass on one record: the record as the pass leaves it, and
    whether it was counted. *)
Definition unmark_step (lefl : lefLayer) : lefLayer * bool :=
  if lefClass_eqb (lefClass lefl) CLASS_VIA && via_generated (info_via lefl) then
    match via_lr (info_via lefl) with
    | [] => (set_generated lefl false, false)
    | r1 :: rest =>
        if bad_layer r1 then (set_generated lefl false, false)
        else
          match rest with
          | [] => (set_generated lefl false, false)
          | r2 :: _ =>
              if bad_layer r2 then (set_generated lefl false, false)
              else (lefl, true)
          end
    end
  else (lefl, false).

Definition write_rect (scale : double) (r : DSEG) : via_rect_out :=
  mkRectOut (CIFLayer (ds_layer r))
    (int_of_double (- (1 # 2) + scale * ds_x1 r))
    (int_of_double (- (1 # 2) + scale * ds_y1 r))
    (int_of_double ((1 # 2) + scale * ds_x2 r))
    (int_of_double ((1 # 2) + scale * ds_y2 r)).

(** The second pass on one record. *)
Definition write_via (scale : double) (lefl : lefLayer) : list def_out :=
  if lefClass_eqb (lefClass lefl) CLASS_VIA && via_generated (info_via lefl) then
    [OutVia (lefName lefl)
       (write_rect scale (via_area (info_via lefl)) ::
        match via_lr (info_via lefl) with
        | [] => []
        | r1 :: rest =>
            write_rect scale r1 ::
            match rest with
            | [] => []
            | r2 :: _ => [write_rect scale r2]
            end
        end)]
  else [].

(** [LefWriteGeneratedVias]: the registry as the first pass leaves it, and
    what is printed. *)
Definition LefWriteGeneratedVias (LefInfo : list lefLayer) (oscale : double)
    (defvias : Z) : list lefLayer * list def_out :=
  let scale := (oscale / 2)%Q in
  let pass1 := map unmark_step LefInfo in
  let LefInfo' := map fst pass1 in
  let numvias := defvias + Z.of_nat (length (List.filter snd pass1)) in
  if numvias =? 0 then (LefInfo', [])
  else
    (LefInfo',
     OutVias numvias :: concat (map (write_via scale) LefInfo') ++
     (if defvias =? 0 then [OutEndVias] else [])).

End WriteVias.

(** *** The names of the nets *)

(** No two names of the list are equal when case is ignored. *)
Definition distinct_names (names : list string) : Prop :=
  forall i j a b,
    names !! i = Some a -> names !! j = Some b ->
    strcasecmp_eq a b = true -> i = j.

(** Name and number of a net. *)
Definition net_id (net : NET) : string * Z := (netname net, netnum net).

(** * Sample inputs *)



(** A registry with a via and a route layer. *)
Definition sample_route : lefRoute :=
  mkLefRoute (1 # 2) [mkSpacingRule 0 (1 # 2)] 1 1 0 0 true 0.

Definition via12 : lefLayer :=
  mkLefLayer "via12" (-1) (-1) CLASS_VIA sample_route
    (mkLefVia (mkDSEG (-1) (-1) 1 1 0) [mkDSEG (-2) (-1) 2 1 1] false 0).

Definition metal1 : lefLayer :=
  mkLefLayer "M1" 0 (-1) CLASS_ROUTE sample_route
    (mkLefVia (mkDSEG 0 0 0 0 (-1)) [] false 0).

Definition metal2 : lefLayer :=
  mkLefLayer "M2" 1 (-1) CLASS_ROUTE sample_route
    (mkLefVia (mkDSEG 0 0 0 0 (-1)) [] false 0).

Definition sample_registry : list lefLayer := [via12; metal2; metal1].

(** A macro 500 wide with one pin whose tap is (0,0)-(200,200), the macro
    of the pins of the design, and a configuration of two routing layers. *)
Definition inv_macro : GATE :=
  mkGATE (Some "INV") None 500 300 0 0 false false false 1 [Some "A"]
    [[mkDSEG 0 0 200 200 0]] [0] [0] [0%Q] [].

Definition pin_macro : GATE :=
  mkGATE (Some "pin") None 0 0 0 0 false false false 1 [Some "pin"]
    [[mkDSEG 0 0 0 0 0]] [-1] [0] [0%Q] [].

Definition sample_cfg : Config :=
  mkConfig 100 200 (1 # 10000) 1 2 4 0 1 2 [pin_macro; inv_macro] (Some 0%nat)
    (Some "vdd") (Some "gnd").

(** The content of a record as [malloc] returns it. *)
Definition blank_gate : GATE :=
  mkGATE None None 0 0 0 0 false false false 0 [] [] [] [] [] [].

(** A state of the reader before any statement of the design, with pitches
    of one micron. *)
Definition sample_state (tokens : list string) : DefState :=
  mkDefState tokens (mkErr 0 0) [] sample_registry [] [] [] 1 1 0 0 0 0 ∅ None.

(** The tokens of [- u1 INV + PLACED ( 1000 2000 ) FN ;] after the dash. *)
Definition scenario_C : list string :=
  ["u1"; "INV"; "+"; "PLACED"; "("; "1000"; "2000"; ")"; "FN"; ";"].

(** The tokens of [- p1 + NET n1 + LAYER M1 ( 0 0 ) ( 10 10 ) + PLACED
    ( 1000 2000 ) N ;] after the dash, and of a pin with no layer. *)
Definition pin_tokens : list string :=
  ["p1"; "+"; "NET"; "n1"; "+"; "LAYER"; "M1"; "("; "0"; "0"; ")";
   "("; "10"; "10"; ")"; "+"; "PLACED"; "("; "1000"; "2000"; ")"; "N"; ";"].

Definition pin_tokens_no_layer : list string :=
  ["p2"; "+"; "NET"; "n2"; "+"; "PLACED"; "("; "1000"; "2000"; ")"; "N"; ";"].

(** The locals of [DefRead] on entry. *)
Definition sample_locals : DefReadLocals := mkLocals 1 (-1) 0 0 0 0 0 0 0 0.



Definition diearea_tokens : list string :=
  ["("; "0"; "0"; ")"; "("; "1000"; "2000"; ")"; ";"].


(** A regular net and the power net, with no routes yet. *)
Definition net_a : NET := mkNET 4 "a" false 0 [] [].
Definition net_vdd : NET := mkNET 1 "vdd" false 0 [] [].

(** The tokens of the routes [M1 ( 0 0 ) ( 100 0 ) ;] (a wire one track
    long with both ends on the grid) and [M1 ( 40 0 ) ( 100 0 ) ;] (the
    same with an end 0.4 pitch off the grid), and of the second as a
    special net route of width 50. *)
Definition stub_on_grid : list string :=
  ["M1"; "("; "0"; "0"; ")"; "("; "100"; "0"; ")"; ";"].

Definition stub_off_grid : list string :=
  ["M1"; "("; "40"; "0"; ")"; "("; "100"; "0"; ")"; ";"].



Definition unflagged_stub_net : NET :=
  mkNET 4 "a" false 0 [] [mkROUTE 4 [mkSEG ST_WIRE 1 0 0 0 0] false].

(** The tokens of the section [SPECIALNETS 2 ; - vdd ; - gnd ; END
    SPECIALNETS] and of the section [NETS 1 ; - a ; END NETS] after their
    headers, and the two sections read one after the other from a state
    with no nets. *)
Definition specialnets_tokens : list string :=
  ["-"; "vdd"; ";"; "-"; "gnd"; ";"; "END"; "SPECIALNETS"].

Definition nets_tokens : list string := ["-"; "a"; ";"; "END"; "NETS"].

Definition run_net_sections (cfg : Config) : option (Z * DefState) :=
  match DefReadNets cfg 0 0 0 "SPECIALNETS" 100 1 2
          (sample_state (specialnets_tokens ++ nets_tokens)) with
  | Some (_, st) => DefReadNets cfg 0 0 0 "NETS" 100 0 1 st
  | None => None
  end.

(** An L-shaped polygon, given without the closing copy of its first point. *)
Definition sample_polygon : list DPOINT :=
  [mkDPOINT 0 0 0; mkDPOINT 2 0 0; mkDPOINT 2 1 0;
   mkDPOINT 1 1 0; mkDPOINT 1 2 0; mkDPOINT 0 2 0].

(** A route layer with a default spacing and two spacings for wide wires. *)
Definition wide_rules : list lefSpacingRule :=
  [mkSpacingRule 0 (1 # 2); mkSpacingRule 2 1; mkSpacingRule 5 2].

Definition metal3 : lefLayer :=
  mkLefLayer "M3" 2 (-1) CLASS_ROUTE
    (mkLefRoute (1 # 2) wide_rules 1 1 0 0 true 0)
    (mkLefVia (mkDSEG 0 0 0 0 (-1)) [] false 0).

(** A cut layer that has no number yet, in front of the sample registry. *)
Definition cut_unnumbered : lefLayer :=
  mkLefLayer "V1" (-1) (-1) CLASS_CUT
    (mkLefRoute 0 [] 0 0 0 0 false 0)
    (mkLefVia (mkDSEG 0 0 0 0 (-1)) [] false 0).

Definition cut_state : DefState :=
  set_LefInfo (sample_state ["V1"; ";"]) (cut_unnumbered :: sample_registry).

(** * Properties *)

(** ** Numbers *)

Lemma Qltb_lt a b : Qltb a b = true <-> (a < b)%Q.
Proof.
  unfold Qltb. rewrite negb_true_iff. split.
  - intros H. apply Qnot_le_lt. intros Hle.
    apply Qle_bool_iff in Hle. congruence.
  - intros H. destruct (Qle_bool b a) eqn:E; [|reflexivity].
    apply Qle_bool_iff in E. exfalso. apply (Qlt_not_le _ _ H E).
Qed.

Lemma Qltb_ge a b : Qltb a b = false <-> (b <= a)%Q.
Proof.
  unfold Qltb. rewrite negb_false_iff. apply Qle_bool_iff.
Qed.

Lemma Qeq_bool_true a b : Qeq_bool a b = true <-> (a == b)%Q.
Proof. apply Qeq_bool_iff. Qed.

Lemma Qeq_bool_false a b : Qeq_bool a b = false <-> ~ (a == b)%Q.
Proof.
  split.
  - intros H E. apply Qeq_bool_iff in E. congruence.
  - intros H. destruct (Qeq_bool a b) eqn:E; [|reflexivity].
    apply Qeq_bool_iff in E. contradiction.
Qed.


Lemma lefClass_eqb_eq a b : lefClass_eqb a b = true <-> a = b.
Proof. destruct a, b; simpl; split; intros H; try reflexivity; discriminate. Qed.

Lemma lefClass_eqb_neq a b : lefClass_eqb a b = false <-> a <> b.
Proof.
  destruct (lefClass_eqb a b) eqn:E.
  - apply lefClass_eqb_eq in E. split; [discriminate | contradiction].
  - split; [|reflexivity]. intros _ H. apply lefClass_eqb_eq in H. congruence.
Qed.

(** ** Route queries *)




(** ** Diagnostics *)

(** C9 (as amended).  With [Verbose] non-zero, a call that carries a message
    adds one to exactly one of the two totals (the fatal one for an error,
    the other for a warning) and prints no totals; a call with no message
    prints the totals when their sum is positive and leaves both at zero.
    With [Verbose] zero a call changes and prints nothing. *)
Theorem LefError_totals (LEF_MAX_ERRORS Verbose : Z) (type : err_type)
    (fmt : option string) (st : err_counts) :
  0 <= fatal st -> 0 <= nonfatal st ->
  let '(st', out) := LefError LEF_MAX_ERRORS Verbose type fmt st in
  0 <= fatal st' /\ 0 <= nonfatal st' /\
  (Verbose = 0 -> st' = st /\ out = []) /\
  (Verbose <> 0 ->
     match fmt with
     | Some msg =>
         (if is_fatal type
          then fatal st' = fatal st + 1 /\ nonfatal st' = nonfatal st
          else fatal st' = fatal st /\ nonfatal st' = nonfatal st + 1) /\
         existsb is_totals out = false
     | None =>
         fatal st' = 0 /\ nonfatal st' = 0 /\
         (0 < fatal st + nonfatal st ->
            exists lefordef, out = [DiagTotals lefordef (fatal st) (nonfatal st)]) /\
         (fatal st + nonfatal st = 0 -> out = [])
     end).
Proof.
  intros Hf Hn. unfold LefError.
  destruct (Z.eqb_spec Verbose 0) as [HV|HV].
  - repeat split; auto; contradiction.
  - destruct fmt as [msg|].
    + assert (Hout : existsb is_totals
               (if fatal st + nonfatal st <? LEF_MAX_ERRORS
                then [DiagMessage
                        match type with
                        | DEF_WARNING | DEF_ERROR => "D"%char
                        | _ => "L"%char
                        end msg]
                else if fatal st + nonfatal st =? LEF_MAX_ERRORS
                     then [DiagSuppressed
                             match type with
                             | DEF_WARNING | DEF_ERROR => "D"%char
                             | _ => "L"%char
                             end]
                     else []) = false).
      { destruct (_ <? _); [reflexivity|]. destruct (_ =? _); reflexivity. }
      destruct type; simpl; repeat split; auto; try lia; try contradiction.
    + destruct (Z.ltb_spec 0 (fatal st + nonfatal st)) as [Hpos|Hpos]; simpl.
      * repeat split; auto; try lia; try contradiction.
        intros _. eexists. reflexivity.
      * assert (fatal st = 0 /\ nonfatal st = 0) as [H1 H2] by lia.
        repeat split; auto; try lia; try contradiction.
Qed.

Lemma LefError_totals_witness :
  let '(st', out) := LefError 100 1 DEF_WARNING (Some "Unknown keyword") (mkErr 2 3) in
  0 <= fatal st' /\ 0 <= nonfatal st' /\
  (1 = 0 -> st' = mkErr 2 3 /\ out = []) /\
  (1 <> 0 ->
     (fatal st' = 2 /\ nonfatal st' = 3 + 1) /\ existsb is_totals out = false).
Proof.
  apply (LefError_totals 100 1 DEF_WARNING (Some "Unknown keyword") (mkErr 2 3));
    simpl; lia.
Defined.

(** C9 fails when [Verbose] is zero: an error with a message is then not
    counted in either total. *)
Lemma LefError_silent_not_counted :
  LefError 100 0 LEF_ERROR (Some "Bad Layer statement") (mkErr 0 0) = (mkErr 0 0, []).
Proof. reflexivity. Qed.

(** ** Redefinition *)

Lemma LefRedefined_scan_spec LefInfo :
  forall n lefl redefname records altName,
    fst (LefRedefined_scan n LefInfo lefl redefname records altName)
    = records + (if bool_decide (n <= lefl < n + length LefInfo)%nat then 1 else 0).
Proof.
  induction LefInfo as [|slef rest IH]; intros n lefl redefname records altName; simpl.
  - rewrite bool_decide_eq_false_2 by lia. lia.
  - rewrite IH. destruct (Nat.eqb_spec n lefl) as [->|Hne].
    + rewrite bool_decide_eq_false_2 by lia.
      rewrite bool_decide_eq_true_2 by lia. lia.
    + destruct (decide (S n <= lefl < S n + length rest)%nat).
      * rewrite !bool_decide_eq_true_2 by lia. lia.
      * rewrite !bool_decide_eq_false_2 by lia. lia.
Qed.

Lemma LefFindLayer_from_insert LefInfo :
  forall n i new token,
    (forall old, LefInfo !! i = Some old -> lefName new = lefName old) ->
    LefFindLayer_from n (<[i := new]> LefInfo) token = LefFindLayer_from n LefInfo token.
Proof.
  induction LefInfo as [|l rest IH]; intros n i new token Hname; [reflexivity|].
  destruct i as [|i]; simpl.
  - rewrite (Hname l eq_refl). reflexivity.
  - rewrite IH; [reflexivity|]. intros old Hold. apply Hname. exact Hold.
Qed.



(** The other path of [LefRedefined] is taken only for a record that is not
    linked in the registry.  The record it links then takes its name from
    the memory [malloc] returned, not from [redefname]. *)
Lemma LefRedefined_split (uninit : lefLayer) (LefInfo : list lefLayer)
    (lefl : nat) (redefname : string) (s : nat) :
  LefInfo !! lefl = None ->
  LefFindLayer LefInfo redefname = Some s ->
  is_Some (LefInfo !! s) ->
  exists LefInfo1,
    LefRedefined uninit LefInfo lefl redefname
    = Some (lef_clear uninit :: LefInfo1, 0%nat) /\
    length LefInfo1 = length LefInfo /\
    lefName (lef_clear uninit) = lefName uninit.
Proof.
  intros Hnone Hs [slef Hslef]. unfold LefRedefined.
  pose proof (LefRedefined_scan_spec LefInfo 0 lefl redefname 0 None) as Hrec.
  destruct (LefRedefined_scan 0 LefInfo lefl redefname 0 None) as [r a].
  simpl in Hrec. apply lookup_ge_None in Hnone.
  rewrite bool_decide_eq_false_2 in Hrec by lia. subst r. simpl.
  rewrite Hs, Hslef.
  assert (Hu : set_lefName uninit (lefName uninit) = uninit) by (destruct uninit; reflexivity).
  rewrite Hu. eexists. split; [reflexivity|]. split; [|reflexivity].
  destruct (String.eqb (lefName slef) redefname); [|reflexivity].
  destruct a; [apply length_insert | reflexivity].
Qed.

(** ** Via selection *)

Lemma backfill_layer_same new V b :
  via_recorded new b -> all_slots (backfill_layer new V b) b.
Proof.
  unfold via_recorded, backfill_layer, all_slots.
  destruct (ViaXX new !! b) as [xx|], (ViaXY new !! b) as [xy|],
           (ViaYX new !! b) as [yx|], (ViaYY new !! b) as [yy|];
    intros H; simpl; rewrite ?lookup_insert_eq;
    try (repeat split; eexists; reflexivity).
  exfalso. destruct H as [H|[H|[H|H]]]; destruct H as [? H]; discriminate H.
Qed.

Lemma backfill_layer_other new V b b' :
  b' <> b -> all_slots V b -> all_slots (backfill_layer new V b') b.
Proof.
  unfold backfill_layer, all_slots. intros Hne H.
  destruct (ViaXX new !! b'), (ViaXY new !! b'), (ViaYX new !! b'), (ViaYY new !! b');
    simpl; rewrite ?lookup_insert_ne by exact Hne; exact H.
Qed.

Lemma backfill_fold new b (Hrec : via_recorded new b) :
  forall l V, (b ∈ l \/ all_slots V b) ->
              all_slots (fold_left (backfill_layer new) l V) b.
Proof.
  induction l as [|b' l IH]; intros V H; simpl.
  - destruct H as [H|H]; [|exact H]. inversion H.
  - apply IH. destruct (decide (b' = b)) as [->|Hne].
    + right. apply backfill_layer_same. exact Hrec.
    + destruct H as [H|H].
      * left. apply elem_of_cons in H as [H|H]; [congruence | exact H].
      * right. apply backfill_layer_other; assumption.
Qed.

Lemma generate_loop_total MAX_LAYERS LefInfo :
  Forall (fun l => lefClass l = CLASS_VIA -> via_generated (info_via l) = true ->
                   via_lr (info_via l) <> []) LefInfo ->
  forall hg, is_Some (generate_loop MAX_LAYERS LefInfo hg).
Proof.
  induction 1 as [|l rest Hl _ IH]; intros hg; simpl; [eexists; reflexivity|].
  assert (Hstep : is_Some (generate_step MAX_LAYERS l)).
  { unfold generate_step.
    destruct (lefClass_eqb (lefClass l) CLASS_VIA) eqn:Ec; simpl; [|eexists; reflexivity].
    destruct (via_generated (info_via l)) eqn:Eg; [|eexists; reflexivity].
    apply lefClass_eqb_eq in Ec. specialize (Hl Ec eq_refl).
    destruct (via_lr (info_via l)) as [|r1 rest1]; [contradiction|].
    destruct (ds_layer r1 <? 0); [eexists; reflexivity|].
    destruct rest1 as [|r2 ?]; [eexists; reflexivity|].
    destruct (ds_layer r2 <? 0); eexists; reflexivity. }
  destruct Hstep as [[l' flag] ->].
  destruct (IH (match flag with Some b => {[b]} ∪ hg | None => hg end))
    as [[rest' hg'] ->].
  eexists. reflexivity.
Qed.

(** C3.  When no generated via lacks its rectangle list (the first loop of
    the heuristic dereferences that list), the heuristic returns, and for
    every base layer below [MAX_LAYERS] for which the three passes recorded
    a via in one of the four tables, the four slots of that layer all hold a
    via name after the back-fill. *)
Theorem LefAssignLayerVias_all_slots (MAX_LAYERS : Z) (EPS : double)
    (AllowedVias : list string) (LefInfo : list lefLayer)
    (xybdiff xytdiff : double) (V : via_tables) :
  Forall (fun l => lefClass l = CLASS_VIA -> via_generated (info_via l) = true ->
                   via_lr (info_via l) <> []) LefInfo ->
  exists LefInfo' new V',
    LefAssignLayerVias_new MAX_LAYERS EPS AllowedVias LefInfo xybdiff xytdiff
      = Some (LefInfo', new) /\
    LefAssignLayerVias MAX_LAYERS EPS AllowedVias LefInfo xybdiff xytdiff V
      = Some (LefInfo', V') /\
    forall b, 0 <= b < MAX_LAYERS -> via_recorded new b -> all_slots V' b.
Proof.
  intros Hlr. unfold LefAssignLayerVias, LefAssignLayerVias_new.
  destruct (generate_loop_total MAX_LAYERS LefInfo Hlr ∅) as [[LefInfo' hg] ->].
  destruct (route_range LefInfo' (-1) (-1)) as [minroute maxroute].
  eexists _, _, _. split; [reflexivity|]. split; [reflexivity|].
  intros b Hb Hrec. unfold backfill. apply backfill_fold; [exact Hrec|].
  left. apply elem_of_seqZ. lia.
Qed.

Lemma LefAssignLayerVias_all_slots_witness :
  exists LefInfo' V',
    LefAssignLayerVias 12 (1 # 10000) [] sample_registry 0 0 no_vias
      = Some (LefInfo', V') /\
    all_slots V' 0.
Proof.
  destruct (LefAssignLayerVias_all_slots 12 (1 # 10000) [] sample_registry 0 0 no_vias)
    as (LefInfo' & new & V' & Hnew & HV & Hall).
  - repeat constructor; simpl; intros; discriminate.
  - exists LefInfo', V'. split; [exact HV|].
    apply Hall; [lia|].
    vm_compute in Hnew. injection Hnew as _ <-.
    left. eexists. vm_compute. reflexivity.
Defined.

(** ** Placement *)

(** C2.  The rectangle [DefReadComponents] computes for a tap or an
    obstruction is the rectangle taken relative to the origin of the macro,
    rotated if the rotate flag is set, then mirrored in X if the mirror-X
    flag is set, then mirrored in Y if the mirror-Y flag is set (the
    rotation and the X mirror about the width of the macro, the Y mirror
    about its height), and then moved to the position of the instance.  A
    component placed FN at (1000, 2000), of a macro 500 wide with a tap
    (0,0)-(200,200), gets the tap (1300,2000)-(1500,2200). *)
Theorem place_rect_transform :
  (forall gateginfo gate r,
     rect_eq (place_rect gateginfo gate r) (placement_transform gateginfo gate r)) /\
  exists st' g r,
    DefReadComponents_start sample_cfg blank_gate 1 (sample_state scenario_C)
      = Some (0, st') /\
    Nlgates st' = [g] /\
    (orient_R90 g, orient_MX g, orient_MY g) = (false, true, false) /\
    taps g = [[r]] /\
    rect_eq r (mkDSEG 1300 2000 1500 2200 0).
Proof.
  split.
  - intros gateginfo gate r. unfold place_rect, placement_transform, rect_eq.
    destruct (orient_R90 gate), (orient_MX gate), (orient_MY gate); simpl;
      repeat split; ring.
  - eexists _, _, _. split; [vm_compute; reflexivity|].
    split; [reflexivity|]. split; [reflexivity|]. split; [reflexivity|].
    unfold rect_eq; simpl. repeat split; reflexivity.
Qed.

(** ** Pins *)



(** The two pin statements of the samples, read from their tokens: the pin
    on M1 becomes a gate with a square tap of side 1/2 (the route width of
    M1) around (10, 20); the pin with no layer gives no gate. *)
Lemma DefReadPins_start_samples :
  (exists st' g r,
     DefReadPins_start sample_cfg blank_gate 100 0 (sample_state pin_tokens)
       = Some (0, st') /\
     Nlgates st' = [g] /\ gatename g = Some "n1" /\ taps g = [[r]] /\
     rect_eq r (mkDSEG (39 # 4) (79 # 4) (41 # 4) (81 # 4) 0)) /\
  (exists st',
     DefReadPins_start sample_cfg blank_gate 100 0 (sample_state pin_tokens_no_layer)
       = Some (0, st') /\
     Nlgates st' = []).
Proof.
  split.
  - eexists _, _, _. split; [vm_compute; reflexivity|].
    repeat split; reflexivity.
  - eexists. split; [vm_compute; reflexivity | reflexivity].
Qed.

(** ** Bounds and tracks *)

Lemma apply_tracks_x oscale start channels step curlayer st :
  let st' := apply_tracks "x"%char oscale start channels step curlayer st in
  Vert st' !! curlayer = Some 1 /\
  (exists t, Tracks st' = Some t /\
             t !! curlayer = Some (mkTRACKS (start / oscale) channels (step / oscale))) /\
  PitchX st' = (if Qeq_bool (PitchX st) 0 || Qltb (step / oscale) (PitchX st)
                then (step / oscale)%Q else PitchX st) /\
  Xlowerbound st' = (if Qltb (start / oscale) (Xlowerbound st)
                     then (start / oscale)%Q else Xlowerbound st) /\
  Xupperbound st' = (if Qltb (Xupperbound st) ((start + step * inject_Z channels) / oscale)
                     then ((start + step * inject_Z channels) / oscale)%Q
                     else Xupperbound st) /\
  Ylowerbound st' = Ylowerbound st /\ Yupperbound st' = Yupperbound st /\
  PitchY st' = PitchY st.
Proof.
  unfold apply_tracks. simpl.
  destruct (Qeq_bool (PitchX st) 0 || Qltb (step / oscale) (PitchX st)); simpl;
    destruct (Qltb (start / oscale) (Xlowerbound st)); simpl;
    destruct (Qltb (Xupperbound st) ((start + step * inject_Z channels) / oscale));
    simpl; split_and!; try reflexivity;
    try apply lookup_insert_eq;
    (eexists; split; [reflexivity | apply lookup_insert_eq]).
Qed.




(** ** Routes *)








(** The two stub routes of the samples read as routes of the regular net
    [a]: the one with an end off the grid is flagged and removed, the one on
    the grid stays. *)
Lemma DefAddRoutes_stub_samples :
  (exists st', DefAddRoutes sample_cfg 0 0 0 100 net_a 0 (sample_state stub_off_grid)
               = Some (Some ";", net_a, st')) /\
  (exists st', DefAddRoutes sample_cfg 0 0 0 100 net_a 0 (sample_state stub_on_grid)
               = Some (Some ";", unflagged_stub_net, st')).
Proof.
  split; eexists; vm_compute; reflexivity.
Qed.


(** ** Nets *)

(** In the first section read, the nets that are neither power nor ground
    are numbered upwards from [MIN_NET_NUMBER]. *)
Lemma new_netnum_regular cfg token netidx :
  is_global_name (cfg_vddnet cfg) (Some token) = false ->
  is_global_name (cfg_gndnet cfg) (Some token) = false ->
  new_netnum cfg token netidx = (netidx, netidx + 1).
Proof. unfold new_netnum. intros -> ->. reflexivity. Qed.

(** The loop that closes a NETS section leaves on a net and on each of its
    nodes the same count. *)
Lemma count_nodes_mirrored net :
  Forall (fun nd => node_numnodes nd = numnodes (count_nodes net))
         (netnodes (count_nodes net)).
Proof.
  unfold count_nodes. simpl. apply Forall_forall. intros nd Hin.
  apply list_elem_of_fmap in Hin as (nd0 & -> & _). reflexivity.
Qed.

(** C6 is broken by the code: a section of nets read after another one
    starts its numbering at the number of nets read so far, not above
    [MIN_NET_NUMBER].  Whatever the constants, with the power and ground
    nets declared in SPECIALNETS and the net [a] declared in NETS, the net
    [a] is numbered 2; with the reserved numbers 1 and 2 and a minimum of 4,
    that is the number of the ground net. *)
Theorem DefReadNets_number_collision :
  (forall lme mt eps vdd gnd minnet pcd verbose nl gi pm,
     let cfg := mkConfig lme mt eps vdd gnd minnet pcd verbose nl gi pm
                  (Some "vdd") (Some "gnd") in
     exists st',
       run_net_sections cfg = Some (0, st') /\
       map netname (Nlnets st') = ["vdd"; "gnd"; "a"] /\
       map netnum (Nlnets st') = [vdd; gnd; 2]) /\
  exists st' n_vdd n_gnd n_a,
    run_net_sections sample_cfg = Some (0, st') /\
    Nlnets st' = [n_vdd; n_gnd; n_a] /\
    netname n_a = "a" /\ netname n_gnd = "gnd" /\
    netnum n_gnd = cfg_GND_NET sample_cfg /\
    netnum n_a = netnum n_gnd /\
    netnum n_a < cfg_MIN_NET_NUMBER sample_cfg.
Proof.
  split.
  - intros. eexists. split; [vm_compute; reflexivity|]. split; reflexivity.
  - eexists _, _, _, _. split; [vm_compute; reflexivity|].
    split_and!; reflexivity.
Qed.
(** ** Polygons *)

Ltac qb H :=
  match type of H with
  | Qltb _ _ = true => apply Qltb_lt in H
  | Qltb _ _ = false => apply Qltb_ge in H
  | Qeq_bool _ _ = true => apply Qeq_bool_true in H
  | Qeq_bool _ _ = false => apply Qeq_bool_false in H
  | Qle_bool _ _ = true => apply Qle_bool_iff in H
  end.

Lemma Qle_bool_false a b : Qle_bool a b = false <-> (b < a)%Q.
Proof.
  split.
  - intros H. apply Qnot_le_lt. intros Hle. apply Qle_bool_iff in Hle. congruence.
  - intros H. destruct (Qle_bool a b) eqn:E; [|reflexivity].
    apply Qle_bool_iff in E. lra.
Qed.

Lemma sumZ_app l1 l2 : sumZ (l1 ++ l2) = sumZ l1 + sumZ l2.
Proof. induction l1 as [|a l1 IH]; simpl; [reflexivity|]. rewrite IH. lia. Qed.

Lemma sumZ_perm l1 l2 : Permutation l1 l2 -> sumZ l1 = sumZ l2.
Proof. induction 1; simpl; lia. Qed.

Lemma contrib_range yb yt ed :
  (lefCross (fst ed) (snd ed) yb yt = false /\ contrib yb yt ed = 0) \/
  (lefCross (fst ed) (snd ed) yb yt = true /\
   (if snd ed =? REDGE then 1 else -1) = contrib yb yt ed /\
   (contrib yb yt ed = 1 \/ contrib yb yt ed = -1)).
Proof.
  unfold contrib. destruct (lefCross _ _ _ _); [right | left; auto].
  split; [reflexivity|]. split; [reflexivity|].
  destruct (snd ed =? REDGE); auto.
Qed.

Lemma psum_zero yb yt x E :
  Forall (fun ed => (x < ex ed)%Q) E -> psum yb yt x E = 0.
Proof.
  unfold psum. induction 1 as [|ed E Hed _ IH]; simpl; [reflexivity|].
  rewrite IH. destruct (Qltb (ex ed) x) eqn:El; [|reflexivity].
  qb El. lra.
Qed.

Lemma exists_cons_inside (n : DSEG) rex x y :
  (exists r, r ∈ n :: rex /\ inside r x y) <->
  (inside n x y \/ exists r, r ∈ rex /\ inside r x y).
Proof.
  split.
  - intros (r & Hin & Hi). apply elem_of_cons in Hin as [->|Hin]; eauto.
  - intros [H|(r & Hin & Hi)].
    + exists n. split; [left|exact H].
    + exists r. split; [right; exact Hin | exact Hi].
Qed.

(** The rectangles of one scan cover the points of the range that the edges
    on their left wrap. *)
Lemma scan_cover yb yt :
  forall E w xbot rex,
    StronglySorted (fun a b => (ex a <= ex b)%Q) E ->
    (w <> 0 -> Forall (fun ed => (xbot <= ex ed)%Q) E) ->
    w + total yb yt E = 0 ->
    forall x y,
      Forall (fun ed => ~ (x == ex ed)%Q) E ->
      ((exists r, r ∈ scan_edges yb yt E w xbot rex /\ inside r x y) <->
       ((exists r, r ∈ rex /\ inside r x y) \/
        ((yb < y)%Q /\ (y < yt)%Q /\ (w <> 0 -> (xbot < x)%Q) /\
         w + psum yb yt x E <> 0))).
Proof.
  induction E as [|[e d] E IH]; intros w xbot rex Hs Hb Ht x y Hg.
  - simpl. unfold total, psum in *. simpl in *. split; [auto|].
    intros [H|(_ & _ & _ & H)]; [exact H | lia].
  - apply StronglySorted_inv in Hs as [Hs Hle].
    apply Forall_cons in Hg as [Hgx Hg].
    assert (Hz : (x < dp_x (fst e))%Q -> psum yb yt x E = 0).
    { intros Hx. apply psum_zero. eapply Forall_impl; [exact Hle|].
      intros ed Hed. unfold ex in *. simpl in *. lra. }
    assert (Hx : (x < dp_x (fst e))%Q \/ (dp_x (fst e) < x)%Q).
    { unfold ex in Hgx. simpl in Hgx.
      destruct (Qlt_le_dec x (dp_x (fst e))) as [H|H]; [left; exact H|].
      right. apply Qle_lteq in H as [H|H]; [exact H|]. symmetry in H. contradiction. }
    unfold total in Ht. simpl in Ht. fold (total yb yt E) in Ht.
    unfold psum. simpl. fold (psum yb yt x E). unfold ex at 1. simpl.
    destruct (contrib_range yb yt (e, d)) as [[Hc Hc0]|(Hc & Hcd & Hc1)];
      simpl in Hc, Hc0 || simpl in Hc, Hcd; rewrite Hc; simpl.
    + (* the edge does not cross the range *)
      rewrite Hc0 in *.
      rewrite IH; [|exact Hs| |lia|exact Hg].
      * assert (Hif : (if Qltb (dp_x (fst e)) x then 0 else 0) = 0)
          by (destruct (Qltb _ _); reflexivity).
        rewrite Hif. destruct (Z.eqb_spec w 0) as [->|Hw].
        -- split; (intros [H|(H1 & H2 & _ & H4)]; [left; exact H|right]);
             split_and!; auto; try lia.
        -- tauto.
      * intros Hw. destruct (Z.eqb_spec w 0); [contradiction|].
        apply Forall_cons in Hb as [_ Hb]; [exact Hb | exact Hw].
    + (* the edge crosses the range *)
      rewrite Hcd.
      set (c := contrib yb yt (e, d)) in *.
      destruct (Z.eqb_spec (w + c) 0) as [Hw0|Hw0].
      * assert (Hw : w <> 0) by lia.
        destruct (Z.eqb_spec w 0) as [|_]; [contradiction|].
        specialize (Hb Hw). apply Forall_cons in Hb as [Hbe Hb].
        unfold ex in Hbe. simpl in Hbe.
        destruct (Qeq_bool xbot (dp_x (fst e))) eqn:Eq; qb Eq.
        -- rewrite IH; [|exact Hs|intros; contradiction|lia|exact Hg].
           destruct Hx as [Hx|Hx].
           ++ rewrite (Hz Hx).
              assert (El : Qltb (dp_x (fst e)) x = false) by (apply Qltb_ge; lra).
              rewrite El.
              split; (intros [H|H]; [left; exact H|]).
              ** destruct H as (_ & _ & _ & H). lia.
              ** destruct H as (_ & _ & H & _). specialize (H Hw). lra.
           ++ assert (El : Qltb (dp_x (fst e)) x = true) by (apply Qltb_lt; exact Hx).
              rewrite El.
              split; (intros [H|(H1 & H2 & H3 & H4)]; [left; exact H|right]);
                split_and!; auto; try lia.
              intros _. lra.
        -- assert (Hlt : (xbot < dp_x (fst e))%Q).
           { apply Qle_lteq in Hbe as [H|H]; [exact H | contradiction]. }
           rewrite IH; [|exact Hs|intros; contradiction|lia|exact Hg].
           rewrite exists_cons_inside. unfold inside at 1. simpl.
           destruct Hx as [Hx|Hx].
           ++ rewrite (Hz Hx).
              assert (El : Qltb (dp_x (fst e)) x = false) by (apply Qltb_ge; lra).
              rewrite El.
              split.
              ** intros [[H|H]|H]; [right|left; exact H|].
                 --- destruct H as (H1 & H2 & H3 & H4). split_and!; auto. lia.
                 --- destruct H as (_ & _ & _ & H). lia.
              ** intros [H|(H1 & H2 & H3 & H4)]; [left; right; exact H|].
                 left. left. split_and!; auto.
           ++ assert (El : Qltb (dp_x (fst e)) x = true) by (apply Qltb_lt; exact Hx).
              rewrite El.
              split.
              ** intros [[H|H]|H]; [|left; exact H|right].
                 --- destruct H as (_ & H & _). lra.
                 --- destruct H as (H1 & H2 & _ & H4). split_and!; auto; try lia.
                     intros _. lra.
              ** intros [H|(H1 & H2 & H3 & H4)]; [left; right; exact H|].
                 right. split_and!; auto; try lia.
      * rewrite IH; [|exact Hs| |lia|exact Hg].
        -- destruct (Z.eqb_spec w 0) as [->|Hw].
           ++ destruct Hx as [Hx|Hx].
              ** rewrite (Hz Hx).
                 assert (El : Qltb (dp_x (fst e)) x = false) by (apply Qltb_ge; lra).
                 rewrite El.
                 split; (intros [H|H]; [left; exact H|]).
                 --- destruct H as (_ & _ & H & _). specialize (H Hw0). lra.
                 --- destruct H as (_ & _ & _ & H). lia.
              ** assert (El : Qltb (dp_x (fst e)) x = true) by (apply Qltb_lt; exact Hx).
                 rewrite El.
                 split; (intros [H|(H1 & H2 & H3 & H4)]; [left; exact H|right]);
                   split_and!; auto; try lia.
           ++ destruct Hx as [Hx|Hx].
              ** rewrite (Hz Hx).
                 assert (El : Qltb (dp_x (fst e)) x = false) by (apply Qltb_ge; lra).
                 rewrite El.
                 split; (intros [H|(H1 & H2 & H3 & H4)]; [left; exact H|right]);
                   split_and!; auto; try lia.
              ** assert (El : Qltb (dp_x (fst e)) x = true) by (apply Qltb_lt; exact Hx).
                 rewrite El.
                 split; (intros [H|(H1 & H2 & H3 & H4)]; [left; exact H|right]);
                   split_and!; auto; try lia.
        -- intros _. destruct (Z.eqb_spec w 0) as [->|Hw].
           ++ eapply Forall_impl; [exact Hle|]. intros ed Hed.
              unfold ex in *. simpl in *. exact Hed.
           ++ apply Forall_cons in Hb as [_ Hb]; [exact Hb | exact Hw].
Qed.

Lemma rect_disjoint_sym r s : rect_disjoint r s -> rect_disjoint s r.
Proof. unfold rect_disjoint. tauto. Qed.

Lemma pairwise_lookup {A} (R : A -> A -> Prop) (l : list A) :
  (forall a b, R a b -> R b a) ->
  pairwise R l ->
  forall i j a b, i <> j -> l !! i = Some a -> l !! j = Some b -> R a b.
Proof.
  intros Hsym. induction l as [|c l IH]; intros Hp i j a b Hij Hi Hj.
  - rewrite lookup_nil in Hi. discriminate.
  - destruct Hp as [Hc Hp]. rewrite Forall_forall in Hc.
    destruct i as [|i], j as [|j]; simpl in Hi, Hj.
    + contradiction.
    + injection Hi as <-. apply Hc.
      eapply list_elem_of_lookup_2. exact Hj.
    + injection Hj as <-. apply Hsym. apply Hc.
      eapply list_elem_of_lookup_2. exact Hi.
    + apply (IH Hp i j); [congruence | exact Hi | exact Hj].
Qed.

(** The rectangles of one scan are well formed, lie in the range and share
    no interior point with one another or with what was found below. *)
Lemma scan_props yb yt (Hy : (yb < yt)%Q) :
  forall E w xbot rex,
    StronglySorted (fun a b => (ex a <= ex b)%Q) E ->
    (w <> 0 -> Forall (fun ed => (xbot <= ex ed)%Q) E) ->
    pairwise rect_disjoint rex ->
    Forall rect_wf rex ->
    Forall (fun r => (ds_y2 r <= yb)%Q \/
                     ((ds_y2 r <= yt)%Q /\
                      Forall (fun ed => (ds_x2 r <= ex ed)%Q) E /\
                      (w <> 0 -> (ds_x2 r <= xbot)%Q))) rex ->
    pairwise rect_disjoint (scan_edges yb yt E w xbot rex) /\
    Forall rect_wf (scan_edges yb yt E w xbot rex) /\
    Forall (fun r => (ds_y2 r <= yt)%Q) (scan_edges yb yt E w xbot rex).
Proof.
  induction E as [|[e d] E IH]; intros w xbot rex Hs Hb Hp Hwf Hinv.
  - simpl. split_and!; auto.
    eapply Forall_impl; [exact Hinv|]. intros r [H|[H _]]; lra.
  - apply StronglySorted_inv in Hs as [Hs Hle]. simpl.
    assert (Hkeep : forall w' xbot',
              (w' <> 0 -> w <> 0 /\ xbot' = xbot \/ xbot' = dp_x (fst e)) ->
              Forall (fun r => (ds_y2 r <= yb)%Q \/
                        ((ds_y2 r <= yt)%Q /\
                         Forall (fun ed => (ds_x2 r <= ex ed)%Q) E /\
                         (w' <> 0 -> (ds_x2 r <= xbot')%Q))) rex).
    { intros w' xbot' Hc. eapply Forall_impl; [exact Hinv|].
      intros r [H|(H1 & H2 & H3)]; [left; exact H|right].
      apply Forall_cons in H2 as [H2e H2]. split_and!; auto.
      intros Hw'. destruct (Hc Hw') as [[Hw ->]| ->]; [auto|exact H2e]. }
    assert (Hb' : forall w' xbot',
              (w' <> 0 -> w <> 0 /\ xbot' = xbot \/ xbot' = dp_x (fst e)) ->
              w' <> 0 -> Forall (fun ed => (xbot' <= ex ed)%Q) E).
    { intros w' xbot' Hc Hw'. destruct (Hc Hw') as [[Hw ->]| ->].
      - specialize (Hb Hw). apply Forall_cons in Hb as [_ Hb]. exact Hb.
      - exact Hle. }
    assert (Hxb : forall w', w' <> 0 ->
              w <> 0 /\ (if w =? 0 then dp_x (fst e) else xbot) = xbot \/
              (if w =? 0 then dp_x (fst e) else xbot) = dp_x (fst e)).
    { intros w' _. destruct (Z.eqb_spec w 0); [right|left]; auto. }
    destruct (lefCross e d yb yt); simpl;
      [|apply IH; [exact Hs | apply (Hb' _ _ (Hxb _)) | exact Hp | exact Hwf | apply (Hkeep _ _ (Hxb _))]].
    assert (Hc : (if d =? REDGE then 1 else -1) = 1 \/
                 (if d =? REDGE then 1 else -1) = -1)
      by (destruct (d =? REDGE); auto).
    set (c := if d =? REDGE then 1 else -1) in *.
    destruct (Z.eqb_spec (w + c) 0) as [Hw0|Hw0];
      [|apply IH; [exact Hs | apply (Hb' _ _ (Hxb _)) | exact Hp | exact Hwf | apply (Hkeep _ _ (Hxb _))]].
    assert (Hw : w <> 0) by lia.
    destruct (Z.eqb_spec w 0) as [|_]; [contradiction|].
    pose proof (Hb Hw) as Hbw. apply Forall_cons in Hbw as [Hbe Hbw].
    unfold ex in Hbe. simpl in Hbe.
    destruct (Qeq_bool xbot (dp_x (fst e))) eqn:Eq; qb Eq.
    + apply IH; [exact Hs | intros; contradiction | exact Hp | exact Hwf |].
      apply Hkeep. intros; contradiction.
    + assert (Hlt : (xbot < dp_x (fst e))%Q).
      { apply Qle_lteq in Hbe as [H|H]; [exact H | contradiction]. }
      apply IH; [exact Hs | | | |].
      * intros; contradiction.
      * simpl. split; [|exact Hp].
        eapply Forall_impl; [exact Hinv|].
        intros r [H|(H1 & H2 & H3)]; unfold rect_disjoint; simpl;
          [right; right; right; exact H | right; left; auto].
      * apply Forall_cons. split; [|exact Hwf].
        unfold rect_wf. simpl. split; [exact Hlt | exact Hy].
      * apply Forall_cons. split.
        -- right. simpl. split_and!; [apply Qle_refl | | intros; contradiction].
           eapply Forall_impl; [exact Hle|]. intros ed Hed.
           unfold ex in *. simpl in *. exact Hed.
        -- apply Hkeep. intros; contradiction.
Qed.

Ltac qcases :=
  repeat match goal with
         | |- context [Qltb ?a ?b] =>
             let E := fresh "E" in destruct (Qltb a b) eqn:E; qb E
         | |- context [Qeq_bool ?a ?b] =>
             let E := fresh "E" in destruct (Qeq_bool a b) eqn:E; qb E
         | |- context [Qle_bool ?a ?b] =>
             let E := fresh "E" in
             destruct (Qle_bool a b) eqn:E;
             [apply Qle_bool_iff in E | apply Qle_bool_false in E]
         end;
  simpl; try reflexivity; try lra.

Lemma sumZ_cons a l : sumZ (a :: l) = a + sumZ l.
Proof. reflexivity. Qed.

Lemma crossing_split x y e :
  crossing x y e = if Qltb (dp_x (fst e)) x then crossing_y y e else 0.
Proof.
  destruct e as [p q]. unfold crossing, crossing_y. simpl. qcases.
Qed.

Lemma contrib_crossing_y yb yt y e d :
  edge_dir e = Some d -> outside_range yb yt e ->
  (yb < y)%Q -> (y < yt)%Q ->
  contrib yb yt (e, d) = crossing_y y e.
Proof.
  destruct e as [p q]. unfold edge_dir, outside_range, contrib, lefCross, crossing_y.
  simpl. intros Hd [Hp Hq] H1 H2.
  destruct (Qeq_bool (dp_y p) (dp_y q)) eqn:Ey; qb Ey.
  - injection Hd as <-. simpl. qcases.
  - destruct (Qeq_bool (dp_x p) (dp_x q)) eqn:Ex; [|discriminate].
    destruct (Qltb (dp_y p) (dp_y q)) eqn:E1; qb E1.
    + injection Hd as <-. simpl. qcases.
    + destruct (Qltb (dp_y q) (dp_y p)) eqn:E2; qb E2.
      * injection Hd as <-. simpl. qcases.
      * exfalso. apply Ey. lra.
Qed.

Lemma crossing_y_diff y e :
  manhattan_edge e -> ~ (y == dp_y (fst e))%Q -> ~ (y == dp_y (snd e))%Q ->
  crossing_y y e = below y (fst e) - below y (snd e).
Proof.
  destruct e as [p q]. unfold manhattan_edge, crossing_y, below. simpl.
  intros Hm Hp Hq.
  assert (Hp' : (dp_y p < y)%Q \/ (y < dp_y p)%Q).
  { destruct (Q_dec y (dp_y p)) as [[H|H]|H]; [right|left|contradiction]; exact H. }
  assert (Hq' : (dp_y q < y)%Q \/ (y < dp_y q)%Q).
  { destruct (Q_dec y (dp_y q)) as [[H|H]|H]; [right|left|contradiction]; exact H. }
  qcases; destruct Hm; lra.
Qed.

Lemma last_cons_cons {A} (a b : A) l d : List.last (a :: b :: l) d = List.last (b :: l) d.
Proof. reflexivity. Qed.

Lemma last_cons_default {A} (a : A) l d : List.last (a :: l) d = List.last l a.
Proof.
  revert a d. induction l as [|b l IH]; intros a d; [reflexivity|].
  rewrite last_cons_cons. rewrite IH. symmetry. apply IH.
Qed.

(** Along a path, the crossings of a line add up to the difference between
    the sides of its two ends. *)
Lemma crossing_y_telescope y :
  forall L v0,
    Forall (fun e => manhattan_edge e /\ ~ (y == dp_y (fst e))%Q /\
                     ~ (y == dp_y (snd e))%Q) (polygon_edges (v0 :: L)) ->
    sumZ (map (crossing_y y) (polygon_edges (v0 :: L)))
    = below y v0 - below y (List.last L v0).
Proof.
  induction L as [|v1 L IH]; intros v0 H.
  - simpl. lia.
  - change (polygon_edges (v0 :: v1 :: L)) with ((v0, v1) :: polygon_edges (v1 :: L)) in *.
    apply Forall_cons in H as [(Hm & Hp & Hq) H].
    change (sumZ (map (crossing_y y) ((v0, v1) :: polygon_edges (v1 :: L))))
      with (crossing_y y (v0, v1) + sumZ (map (crossing_y y) (polygon_edges (v1 :: L)))).
    rewrite (IH v1 H).
    rewrite last_cons_default.
    rewrite (crossing_y_diff y (v0, v1) Hm Hp Hq). cbn [fst snd]. lia.
Qed.

Lemma below_Qeq y v w : (dp_y v == dp_y w)%Q -> below y v = below y w.
Proof. unfold below. intros H. qcases. Qed.

Lemma crossing_zero_above x y e yb :
  (dp_y (fst e) <= yb)%Q -> (dp_y (snd e) <= yb)%Q -> (yb < y)%Q ->
  crossing x y e = 0.
Proof.
  destruct e as [p q]. unfold crossing. simpl. intros. qcases.
Qed.

Lemma crossing_zero_below x y e yb :
  (yb <= dp_y (fst e))%Q -> (yb <= dp_y (snd e))%Q -> (y < yb)%Q ->
  crossing x y e = 0.
Proof.
  destruct e as [p q]. unfold crossing. simpl. intros. qcases.
Qed.

(** *** The edges of a path *)

Lemma polygon_edges_cons v0 v1 L :
  polygon_edges (v0 :: v1 :: L) = (v0, v1) :: polygon_edges (v1 :: L).
Proof. reflexivity. Qed.

Lemma polygon_edges_ends :
  forall L v0,
    Forall (fun e => fst e ∈ v0 :: L /\ snd e ∈ v0 :: L) (polygon_edges (v0 :: L)).
Proof.
  induction L as [|v1 L IH]; intros v0.
  - constructor.
  - rewrite polygon_edges_cons. constructor.
    + simpl. split; [left | right; left].
    + eapply Forall_impl; [apply IH|].
      intros e [H1 H2]. split; right; assumption.
Qed.

(** The end of an edge is the start of another edge, or the last point. *)
Lemma polygon_edges_next :
  forall L v0,
    Forall (fun e => snd e = List.last L v0 \/
                     snd e ∈ map fst (polygon_edges (v0 :: L)))
           (polygon_edges (v0 :: L)).
Proof.
  induction L as [|v1 L IH]; intros v0.
  - constructor.
  - rewrite polygon_edges_cons. constructor.
    + cbn [snd]. destruct L as [|v2 L].
      * left. reflexivity.
      * right. rewrite polygon_edges_cons. simpl. right. left.
    + eapply Forall_impl; [apply IH|].
      intros e [H|H].
      * left. rewrite last_cons_default. exact H.
      * right. simpl. right. exact H.
Qed.

Lemma close_path_closed first rest :
  exists L,
    close_path (first :: rest) = first :: L /\
    (dp_x (List.last L first) == dp_x first)%Q /\
    (dp_y (List.last L first) == dp_y first)%Q /\
    Forall (fun v => exists p, p ∈ first :: rest /\ dp_x v = dp_x p /\ dp_y v = dp_y p)
           (first :: L).
Proof.
  unfold close_path.
  destruct (negb (Qeq_bool (dp_x (List.last (first :: rest) first)) (dp_x first))
            || negb (Qeq_bool (dp_y (List.last (first :: rest) first)) (dp_y first)))
    eqn:E.
  - exists (rest ++ [mkDPOINT (dp_x first) (dp_y first) (dp_layer first)])%list.
    split; [reflexivity|].
    rewrite List.last_last. simpl. split; [reflexivity|]. split; [reflexivity|].
    change (Forall (fun v => exists p, p ∈ first :: rest /\ dp_x v = dp_x p /\ dp_y v = dp_y p)
                   ((first :: rest) ++ [mkDPOINT (dp_x first) (dp_y first) (dp_layer first)])).
    apply Forall_app. split.
    + apply Forall_forall. intros v Hv. exists v. auto.
    + constructor; [|constructor]. exists first. split; [left|]. simpl. auto.
  - exists rest. split; [reflexivity|].
    apply orb_false_elim in E as [E1 E2].
    apply negb_false_iff in E1, E2. qb E1. qb E2.
    rewrite last_cons_default in E1, E2.
    split; [exact E1|]. split; [exact E2|].
    apply Forall_forall. intros v Hv. exists v. auto.
Qed.

(** *** Directions *)

Lemma manhattan_edge_dir e : manhattan_edge e -> exists d, edge_dir e = Some d.
Proof.
  destruct e as [p q]. unfold manhattan_edge, edge_dir. simpl. intros H.
  destruct (Qeq_bool (dp_y p) (dp_y q)) eqn:Ey; [eauto|]. qb Ey.
  destruct (Qeq_bool (dp_x p) (dp_x q)) eqn:Ex; qb Ex.
  - destruct (Qltb (dp_y p) (dp_y q)); [eauto|].
    destruct (Qltb (dp_y q) (dp_y p)); eauto.
  - destruct H; contradiction.
Qed.

Lemma lefOrient_annotate :
  forall L, Forall manhattan_edge L ->
    exists dir, lefOrient L = Some dir /\ combine L dir = annotate L.
Proof.
  induction L as [|e L IH]; intros H.
  - exists []. split; reflexivity.
  - apply Forall_cons in H as [He H].
    destruct (IH H) as (dir & E1 & E2).
    destruct (manhattan_edge_dir e He) as [d Ed].
    exists (d :: dir). split.
    + cbn [lefOrient]. rewrite Ed, E1. reflexivity.
    + unfold annotate in *. cbn [combine map]. rewrite Ed, E2. reflexivity.
Qed.

Lemma annotate_dir :
  forall L, Forall manhattan_edge L ->
    Forall (fun ed => edge_dir (fst ed) = Some (snd ed)) (annotate L).
Proof.
  induction L as [|e L IH]; intros H.
  - constructor.
  - apply Forall_cons in H as [He H]. unfold annotate. cbn [map]. constructor.
    + cbn [fst snd]. destruct (manhattan_edge_dir e He) as [d ->]. reflexivity.
    + apply IH. exact H.
Qed.

Lemma annotate_Forall (P : edge -> Prop) :
  forall L, Forall P L -> Forall (fun ed => P (fst ed)) (annotate L).
Proof.
  induction L as [|e L IH]; intros H.
  - constructor.
  - apply Forall_cons in H as [He H]. unfold annotate. simpl.
    constructor; [exact He | apply IH; exact H].
Qed.

Lemma annotate_sorted :
  forall L, StronglySorted (fun a b => lefLowX (fst a) (fst b) <= 0) L ->
    StronglySorted (fun a b => (ex a <= ex b)%Q) (annotate L).
Proof.
  induction L as [|e L IH]; intros H.
  - constructor.
  - apply StronglySorted_inv in H as [H1 H2]. unfold annotate. simpl.
    constructor; [apply IH; exact H1|].
    apply (annotate_Forall (fun b => (dp_x (fst e) <= dp_x (fst b))%Q)).
    eapply Forall_impl; [exact H2|].
    intros b Hb. simpl in Hb. unfold lefLowX in Hb. simpl.
    revert Hb. qcases; intros; try lia; lra.
Qed.

(** *** Wrap numbers *)

Lemma winding_annotate x y :
  forall L, sumZ (map (fun ed => crossing x y (fst ed)) (annotate L))
            = sumZ (map (crossing x y) L).
Proof.
  induction L as [|e L IH]; [reflexivity|].
  unfold annotate in *. cbn [map fst]. rewrite !sumZ_cons. rewrite IH. reflexivity.
Qed.

Lemma psum_winding yb yt x y :
  (yb < y)%Q -> (y < yt)%Q ->
  forall E,
    Forall (fun ed => edge_dir (fst ed) = Some (snd ed)) E ->
    Forall (fun ed => outside_range yb yt (fst ed)) E ->
    psum yb yt x E = sumZ (map (fun ed => crossing x y (fst ed)) E).
Proof.
  intros H1 H2. induction E as [|[e d] E IH]; intros Hd Ho; [reflexivity|].
  apply Forall_cons in Hd as [Hd1 Hd]. apply Forall_cons in Ho as [Ho1 Ho].
  unfold psum in *. cbn [map]. rewrite !sumZ_cons. rewrite (IH Hd Ho).
  f_equal. rewrite crossing_split. unfold ex. simpl.
  rewrite (contrib_crossing_y yb yt y e d Hd1 Ho1 H1 H2). reflexivity.
Qed.

Lemma total_crossing_y yb yt y :
  (yb < y)%Q -> (y < yt)%Q ->
  forall E,
    Forall (fun ed => edge_dir (fst ed) = Some (snd ed)) E ->
    Forall (fun ed => outside_range yb yt (fst ed)) E ->
    total yb yt E = sumZ (map (fun ed => crossing_y y (fst ed)) E).
Proof.
  intros H1 H2. induction E as [|[e d] E IH]; intros Hd Ho; [reflexivity|].
  apply Forall_cons in Hd as [Hd1 Hd]. apply Forall_cons in Ho as [Ho1 Ho].
  unfold total in *. cbn [map]. rewrite !sumZ_cons. rewrite (IH Hd Ho).
  f_equal. apply (contrib_crossing_y yb yt y e d Hd1 Ho1 H1 H2).
Qed.

Lemma crossing_y_annotate y :
  forall L, sumZ (map (fun ed => crossing_y y (fst ed)) (annotate L))
            = sumZ (map (crossing_y y) L).
Proof.
  induction L as [|e L IH]; [reflexivity|].
  unfold annotate in *. cbn [map fst]. rewrite !sumZ_cons. rewrite IH. reflexivity.
Qed.

(** The crossings of a line with a closed path add up to zero. *)
Lemma closed_crossing_y_zero y v0 L :
  Forall manhattan_edge (polygon_edges (v0 :: L)) ->
  Forall (fun e => ~ (y == dp_y (fst e))%Q /\ ~ (y == dp_y (snd e))%Q)
         (polygon_edges (v0 :: L)) ->
  (dp_y (List.last L v0) == dp_y v0)%Q ->
  sumZ (map (crossing_y y) (polygon_edges (v0 :: L))) = 0.
Proof.
  intros Hm Hg Hc. rewrite crossing_y_telescope.
  - rewrite (below_Qeq y _ _ Hc). lia.
  - apply Forall_forall. intros e He.
    rewrite Forall_forall in Hm. rewrite Forall_forall in Hg.
    split; [apply Hm; exact He | apply Hg; exact He].
Qed.

(** In a range of Y without a vertex inside, the wrap number is back at
    zero after the last edge. *)
Lemma total_zero v0 L Es yb yt :
  Permutation Es (polygon_edges (v0 :: L)) ->
  Forall manhattan_edge (polygon_edges (v0 :: L)) ->
  (dp_y (List.last L v0) == dp_y v0)%Q ->
  (yb < yt)%Q ->
  Forall (fun ed => outside_range yb yt (fst ed)) (annotate Es) ->
  total yb yt (annotate Es) = 0.
Proof.
  intros Hp Hm Hc Hy Ho.
  assert (HmEs : Forall manhattan_edge Es).
  { apply Forall_forall. intros e He. rewrite Forall_forall in Hm. apply Hm.
    rewrite <- Hp. exact He. }
  set (y := ((yb + yt) * (1 # 2))%Q).
  assert (H1 : (yb < y)%Q) by (unfold y; lra).
  assert (H2 : (y < yt)%Q) by (unfold y; lra).
  clearbody y.
  rewrite (total_crossing_y yb yt y H1 H2 _ (annotate_dir Es HmEs) Ho).
  rewrite crossing_y_annotate.
  rewrite (sumZ_perm _ (map (crossing_y y) (polygon_edges (v0 :: L))));
    [|apply Permutation_map; exact Hp].
  apply closed_crossing_y_zero; [exact Hm| |exact Hc].
  apply Forall_forall. intros e He.
  assert (Ho' : outside_range yb yt e).
  { assert (He' : (e, default HEDGE (edge_dir e)) ∈ annotate Es).
    { unfold annotate. apply list_elem_of_fmap. exists e. split; [reflexivity|].
      rewrite Hp. exact He. }
    rewrite Forall_forall in Ho. apply (Ho _ He'). }
  destruct Ho' as [[Ha|Ha] [Hb|Hb]]; split; intros Hq; lra.
Qed.

(** *** The sweep over the ranges of Y *)

Lemma sumZ_map_zero {A} (f : A -> Z) l :
  Forall (fun a => f a = 0) l -> sumZ (map f l) = 0.
Proof.
  induction 1 as [|a l Ha _ IH]; [reflexivity|].
  cbn [map]. rewrite sumZ_cons. lia.
Qed.

Lemma vertex_level_skip ybot p pts v :
  (ybot == dp_y p)%Q -> vertex_level ybot (p :: pts) v -> vertex_level ybot pts v.
Proof.
  intros He [H|H]; [left; exact H|].
  apply Exists_cons in H as [H|H]; [left; lra | right; exact H].
Qed.

Lemma vertex_level_step ybot p pts v :
  (ybot <= dp_y p)%Q -> vertex_level ybot (p :: pts) v -> vertex_level (dp_y p) pts v.
Proof.
  intros He [H|H]; [left; lra|].
  apply Exists_cons in H as [H|H]; [left; lra | right; exact H].
Qed.

Lemma vertex_level_outside ybot p pts v :
  Forall (fun q => (dp_y p <= dp_y q)%Q) pts ->
  vertex_level ybot (p :: pts) v ->
  (dp_y v <= ybot)%Q \/ (dp_y p <= dp_y v)%Q.
Proof.
  intros Hs [H|H]; [left; exact H|]. right.
  apply Exists_cons in H as [H|H]; [lra|].
  apply Exists_exists in H as (q & Hq & He).
  rewrite Forall_forall in Hs. specialize (Hs q Hq). lra.
Qed.

Section Sweep.

Variable E : list (edge * Z).
Variables x y : Q.
Hypothesis HsE : StronglySorted (fun a b => (ex a <= ex b)%Q) E.
Hypothesis Hdir : Forall (fun ed => edge_dir (fst ed) = Some (snd ed)) E.
Hypothesis Htot : forall yb yt, (yb < yt)%Q ->
  Forall (fun ed => outside_range yb yt (fst ed)) E -> total yb yt E = 0.
Hypothesis Hgx : Forall (fun ed => ~ (x == ex ed)%Q) E.

(** The rectangles of the sweep cover the points above [ybot] that the
    path wraps, and nothing else. *)
Lemma sweep_cover xbot0 :
  forall pts ybot rex,
    StronglySorted (fun p q => (dp_y p <= dp_y q)%Q) pts ->
    Forall (fun p => (ybot <= dp_y p)%Q) pts ->
    Forall (fun ed => vertex_level ybot pts (fst (fst ed)) /\
                      vertex_level ybot pts (snd (fst ed))) E ->
    ~ (y == ybot)%Q ->
    Forall (fun p => ~ (y == dp_y p)%Q) pts ->
    ((exists r, r ∈ sweep E xbot0 ybot pts rex /\ inside r x y) <->
     ((exists r, r ∈ rex /\ inside r x y) \/
      ((ybot < y)%Q /\ sumZ (map (fun ed => crossing x y (fst ed)) E) <> 0))).
Proof.
  induction pts as [|p pts IH]; intros ybot rex Hs Hlo Hv Hgy Hgp.
  - simpl. split; [intros H; left; exact H|].
    intros [H|[H1 H2]]; [exact H|]. exfalso. apply H2.
    apply sumZ_map_zero. eapply Forall_impl; [exact Hv|].
    intros ed [[Ha|Ha] [Hb|Hb]]; try (apply Exists_nil in Ha; contradiction);
      try (apply Exists_nil in Hb; contradiction).
    apply (crossing_zero_above x y (fst ed) ybot); assumption.
  - apply StronglySorted_inv in Hs as [Hs1 Hs2].
    apply Forall_cons in Hlo as [Hlo1 Hlo].
    apply Forall_cons in Hgp as [Hgp1 Hgp].
    cbn [sweep].
    destruct (Qeq_bool ybot (dp_y p)) eqn:Eq; qb Eq.
    + apply IH; auto.
      eapply Forall_impl; [exact Hv|].
      intros ed [Ha Hb]. split; eapply vertex_level_skip; eauto.
    + assert (Hlt : (ybot < dp_y p)%Q) by lra.
      assert (Hout : Forall (fun ed => outside_range ybot (dp_y p) (fst ed)) E).
      { eapply Forall_impl; [exact Hv|].
        intros ed [Ha Hb]. split; eapply vertex_level_outside; eauto. }
      assert (HIH := IH (dp_y p) (scan_edges ybot (dp_y p) E 0 xbot0 rex)).
      rewrite HIH; clear HIH; auto.
      2:{ eapply Forall_impl; [exact Hv|].
          intros ed [Ha Hb]. split; eapply vertex_level_step; eauto. }
      assert (Hsc := scan_cover ybot (dp_y p) E 0 xbot0 rex HsE).
      rewrite Hsc; clear Hsc; [| intros Hz; contradiction
                               | rewrite (Htot _ _ Hlt Hout); reflexivity
                               | exact Hgx].
      split.
      * intros [[H|(H1 & H2 & _ & H3)]|[H1 H2]].
        -- left. exact H.
        -- right. split; [exact H1|].
           rewrite <- (psum_winding ybot (dp_y p) x y H1 H2 E Hdir Hout). lia.
        -- right. split; [lra | exact H2].
      * intros [H|[H1 H2]]; [left; left; exact H|].
        destruct (Qlt_le_dec y (dp_y p)) as [Hy|Hy].
        -- left. right. split_and!; [exact H1 | exact Hy | intros Hz; contradiction |].
           rewrite (psum_winding ybot (dp_y p) x y H1 Hy E Hdir Hout). lia.
        -- right. split; [|exact H2].
           destruct (Qle_lt_or_eq _ _ Hy) as [Hq|Hq]; [exact Hq|].
           exfalso. apply Hgp1. symmetry. exact Hq.
Qed.

(** The rectangles of the sweep are in order and share no interior point. *)
Lemma sweep_props xbot0 :
  forall pts ybot rex,
    StronglySorted (fun p q => (dp_y p <= dp_y q)%Q) pts ->
    Forall (fun p => (ybot <= dp_y p)%Q) pts ->
    pairwise rect_disjoint rex ->
    Forall rect_wf rex ->
    Forall (fun r => (ds_y2 r <= ybot)%Q) rex ->
    pairwise rect_disjoint (sweep E xbot0 ybot pts rex) /\
    Forall rect_wf (sweep E xbot0 ybot pts rex).
Proof.
  induction pts as [|p pts IH]; intros ybot rex Hs Hlo Hp Hwf Hinv.
  - simpl. auto.
  - apply StronglySorted_inv in Hs as [Hs1 Hs2].
    apply Forall_cons in Hlo as [Hlo1 Hlo].
    cbn [sweep].
    destruct (Qeq_bool ybot (dp_y p)) eqn:Eq; qb Eq.
    + apply IH; auto.
    + assert (Hlt : (ybot < dp_y p)%Q) by lra.
      destruct (scan_props ybot (dp_y p) Hlt E 0 xbot0 rex HsE) as (P1 & P2 & P3);
        [intros Hz; contradiction | exact Hp | exact Hwf | |].
      { eapply Forall_impl; [exact Hinv|]. intros r Hr. left. exact Hr. }
      apply IH; auto.
Qed.

End Sweep.

(** *** Paths of fewer than four edges *)

Lemma crossing_below x y e :
  manhattan_edge e -> ~ (y == dp_y (fst e))%Q -> ~ (y == dp_y (snd e))%Q ->
  crossing x y e
  = if Qltb (dp_x (fst e)) x then below y (fst e) - below y (snd e) else 0.
Proof.
  intros Hm Hp Hq. rewrite crossing_split, (crossing_y_diff y e Hm Hp Hq).
  reflexivity.
Qed.

Lemma small_winding x y v0 L :
  (length (polygon_edges (v0 :: L)) < 4)%nat ->
  Forall manhattan_edge (polygon_edges (v0 :: L)) ->
  (dp_x (List.last L v0) == dp_x v0)%Q ->
  (dp_y (List.last L v0) == dp_y v0)%Q ->
  Forall (fun v => ~ (y == dp_y v)%Q) (v0 :: L) ->
  sumZ (map (crossing x y) (polygon_edges (v0 :: L))) = 0.
Proof.
  intros Hlen Hm Hcx Hcy Hg.
  destruct L as [|v1 [|v2 [|v3 [|v4 L]]]].
  - reflexivity.
  - rewrite polygon_edges_cons in *. simpl polygon_edges in *.
    apply Forall_cons in Hm as [Hm1 _].
    apply Forall_cons in Hg as [Hg0 Hg]. apply Forall_cons in Hg as [Hg1 _].
    cbn [map]. rewrite !sumZ_cons.
    rewrite (crossing_below x y _ Hm1 Hg0 Hg1).
    cbn [fst snd List.last] in *. unfold sumZ; simpl fold_right.
    unfold below, manhattan_edge in *. cbn [fst snd] in *.
    qcases.
  - rewrite !polygon_edges_cons in *. simpl polygon_edges in *.
    apply Forall_cons in Hm as [Hm1 Hm]. apply Forall_cons in Hm as [Hm2 _].
    apply Forall_cons in Hg as [Hg0 Hg]. apply Forall_cons in Hg as [Hg1 Hg].
    apply Forall_cons in Hg as [Hg2 _].
    cbn [map]. rewrite !sumZ_cons.
    rewrite (crossing_below x y _ Hm1 Hg0 Hg1).
    rewrite (crossing_below x y _ Hm2 Hg1 Hg2).
    cbn [fst snd List.last] in *. unfold sumZ; simpl fold_right.
    unfold below, manhattan_edge in *. cbn [fst snd] in *.
    qcases.
  - rewrite !polygon_edges_cons in *. simpl polygon_edges in *.
    apply Forall_cons in Hm as [Hm1 Hm]. apply Forall_cons in Hm as [Hm2 Hm].
    apply Forall_cons in Hm as [Hm3 _].
    apply Forall_cons in Hg as [Hg0 Hg]. apply Forall_cons in Hg as [Hg1 Hg].
    apply Forall_cons in Hg as [Hg2 Hg]. apply Forall_cons in Hg as [Hg3 _].
    cbn [map]. rewrite !sumZ_cons.
    rewrite (crossing_below x y _ Hm1 Hg0 Hg1).
    rewrite (crossing_below x y _ Hm2 Hg1 Hg2).
    rewrite (crossing_below x y _ Hm3 Hg2 Hg3).
    cbn [fst snd List.last] in *. unfold sumZ; simpl fold_right.
    unfold below, manhattan_edge in *. cbn [fst snd] in *.
    qcases.
  - rewrite !polygon_edges_cons in Hlen. simpl in Hlen. lia.
Qed.

(** *** Sorting *)

Lemma StronglySorted_mono {A} (R S : A -> A -> Prop) :
  (forall a b, R a b -> S a b) ->
  forall l, StronglySorted R l -> StronglySorted S l.
Proof.
  intros HRS. induction 1 as [|a l Hl IH Ha]; constructor; [exact IH|].
  eapply Forall_impl; [exact Ha|]. intros b. apply HRS.
Qed.

Lemma lefLowY_le p q : lefLowY p q <= 0 <-> (dp_y p <= dp_y q)%Q.
Proof. unfold lefLowY. qcases; split; intros; try lia; lra. Qed.

Lemma lefLowX_le p q : lefLowX p q <= 0 <-> (dp_x p <= dp_x q)%Q.
Proof. unfold lefLowX. qcases; split; intros; try lia; lra. Qed.

Lemma sort_insert_perm {A} (cmp : A -> A -> Z) a l :
  Permutation (sort_insert cmp a l) (a :: l).
Proof.
  induction l as [|b l IH]; simpl; [reflexivity|].
  destruct (cmp a b <=? 0); [reflexivity|].
  rewrite IH. apply perm_swap.
Qed.

Lemma insertion_sort_perm A (cmp : A -> A -> Z) l :
  Permutation (insertion_sort A cmp l) l.
Proof.
  induction l as [|a l IH]; simpl; [reflexivity|].
  rewrite sort_insert_perm. constructor. exact IH.
Qed.

Lemma insertion_sort_sorted A (cmp : A -> A -> Z) :
  (forall a b, 0 < cmp a b -> cmp b a <= 0) ->
  (forall a b c, cmp a b <= 0 -> cmp b c <= 0 -> cmp a c <= 0) ->
  forall l, StronglySorted (fun a b => cmp a b <= 0) (insertion_sort A cmp l).
Proof.
  intros Htot Htrans.
  assert (Hins : forall a l, StronglySorted (fun a b => cmp a b <= 0) l ->
                 StronglySorted (fun a b => cmp a b <= 0) (sort_insert cmp a l)).
  { intros a. induction l as [|b l IH]; intros Hs; simpl.
    - constructor; constructor.
    - apply StronglySorted_inv in Hs as [Hs Hb].
      destruct (Z.leb_spec (cmp a b) 0) as [Hc|Hc].
      + constructor; [constructor; assumption|].
        constructor; [exact Hc|].
        eapply Forall_impl; [exact Hb|]. intros c Hbc. simpl in Hbc.
        eapply Htrans; eassumption.
      + constructor; [apply IH; exact Hs|].
        apply Forall_forall. intros c Hc'.
        rewrite sort_insert_perm in Hc'.
        apply elem_of_cons in Hc' as [->|Hc'].
        * apply Htot. exact Hc.
        * rewrite Forall_forall in Hb. apply Hb. exact Hc'. }
  induction l as [|a l IH]; simpl; [constructor|].
  apply Hins. exact IH.
Qed.

Lemma insertion_sort_lefLowY l :
  StronglySorted (fun p q => lefLowY p q <= 0) (insertion_sort DPOINT lefLowY l).
Proof.
  apply insertion_sort_sorted.
  - intros a b H. apply lefLowY_le.
    destruct (Qlt_le_dec (dp_y a) (dp_y b)) as [Hlt|Hle]; [|exact Hle].
    exfalso. assert (lefLowY a b <= 0) by (apply lefLowY_le; lra). lia.
  - intros a b c H1 H2. apply lefLowY_le in H1, H2. apply lefLowY_le. lra.
Qed.

Lemma insertion_sort_lefLowX l :
  StronglySorted (fun a b : edge => lefLowX (fst a) (fst b) <= 0)
    (insertion_sort edge (fun a b => lefLowX (fst a) (fst b)) l).
Proof.
  apply (insertion_sort_sorted edge (fun a b => lefLowX (fst a) (fst b))).
  - intros a b H. apply lefLowX_le.
    destruct (Qlt_le_dec (dp_x (fst a)) (dp_x (fst b))) as [Hlt|Hle]; [|exact Hle].
    exfalso. assert (lefLowX (fst a) (fst b) <= 0) by (apply lefLowX_le; lra). lia.
  - intros a b c H1 H2. apply lefLowX_le in H1, H2. apply lefLowX_le. lra.
Qed.

(** *** The decomposition *)

Lemma level_of_pts p0 prest v w :
  w ∈ p0 :: prest -> (dp_y v == dp_y w)%Q -> vertex_level (dp_y p0) prest v.
Proof.
  intros Hw He. apply elem_of_cons in Hw as [->|Hw].
  - left. lra.
  - right. apply Exists_exists. exists w. split; [exact Hw | exact He].
Qed.

(** Every end of an edge of a closed path is at the height of the start of
    an edge. *)
Lemma closed_edges_levels v0 L :
  (dp_y (List.last L v0) == dp_y v0)%Q ->
  Forall (fun e =>
            (exists w, w ∈ map fst (polygon_edges (v0 :: L)) /\ (dp_y (fst e) == dp_y w)%Q) /\
            (exists w, w ∈ map fst (polygon_edges (v0 :: L)) /\ (dp_y (snd e) == dp_y w)%Q))
         (polygon_edges (v0 :: L)).
Proof.
  intros Hc. apply Forall_forall. intros e He. split.
  - exists (fst e). split; [|reflexivity].
    apply list_elem_of_fmap. exists e. split; [reflexivity | exact He].
  - pose proof (polygon_edges_next L v0) as Hn. rewrite Forall_forall in Hn.
    destruct (Hn e He) as [Hl|Hin].
    + exists v0. split; [|rewrite Hl; exact Hc].
      destruct L as [|v1 L]; [inversion He|].
      rewrite polygon_edges_cons. simpl. left.
    + exists (snd e). split; [exact Hin | reflexivity].
Qed.

(** C1.  For a Manhattan polygon given as a list of points (the path is
    closed by the function when the last point is not the first), and a
    [qsort] that returns its input in ascending order of the comparison:
    [LefPolygonToRects] appends to the list rectangles that each have a
    positive width and height (a span of zero width is passed over), of
    which no two share an interior point, and whose union is the region the
    polygon encloses: a point that is on none of the lines through the
    vertices is inside one of the rectangles exactly when the path wraps
    around it. *)
Theorem LefPolygonToRects_decomposition
    (qsort : forall A : Type, (A -> A -> Z) -> list A -> list A)
    (qsort_perm : forall A cmp l, Permutation (qsort A cmp l) l)
    (qsort_pts : forall l,
        StronglySorted (fun p q => lefLowY p q <= 0) (qsort DPOINT lefLowY l))
    (qsort_edges : forall l,
        StronglySorted (fun a b : edge => lefLowX (fst a) (fst b) <= 0)
          (qsort edge (fun a b => lefLowX (fst a) (fst b)) l))
    (rectList : list DSEG) (pointlist : list DPOINT)
    (Hm : manhattan pointlist) :
  let rects := polygon_rects qsort pointlist in
  LefPolygonToRects qsort rectList pointlist = (rectList ++ rects)%list /\
  Forall rect_wf rects /\
  (forall i j r s, i <> j -> rects !! i = Some r -> rects !! j = Some s ->
                   rect_disjoint r s) /\
  (forall x y, off_grid pointlist x y ->
     ((exists r, r ∈ rects /\ inside r x y) <-> enclosed pointlist x y)).
Proof.
  destruct pointlist as [|first rest].
  { (* no point: the list of rectangles is left as it is *)
    change (polygon_rects qsort []) with (@nil DSEG). cbv zeta.
    split; [symmetry; apply app_nil_r|]. split; [constructor|]. split.
    - intros i j r s _ Hi. rewrite lookup_nil in Hi. discriminate.
    - intros x y _. unfold enclosed, winding. simpl. split.
      + intros (r & Hr & _). inversion Hr.
      + intros H. exfalso. apply H. reflexivity. }
  intros rects. split; [reflexivity|].
  destruct (close_path_closed first rest) as (L & HC & Hcx & Hcy & Hvs).
  unfold manhattan in Hm. rewrite HC in Hm.
  assert (Hgen : forall x y, off_grid (first :: rest) x y ->
            Forall (fun v => ~ (x == dp_x v)%Q /\ ~ (y == dp_y v)%Q) (first :: L)).
  { intros x y Hg. eapply Forall_impl; [exact Hvs|].
    intros v (p & Hp & Ex & Ey). unfold off_grid in Hg.
    rewrite Forall_forall in Hg. rewrite Ex, Ey. apply Hg. exact Hp. }
  unfold enclosed, winding. rewrite HC.
  subst rects. unfold polygon_rects. rewrite HC.
  set (edges := polygon_edges (first :: L)) in *.
  destruct (Z.of_nat (length edges) <? 4) eqn:Esz.
  - (* fewer than four edges: no rectangle, and nothing is enclosed *)
    split; [constructor|]. split.
    { intros i j r s _ Hi. rewrite lookup_nil in Hi. discriminate. }
    intros x y Hg. split.
    + intros (r & Hr & _). inversion Hr.
    + intros Hw. exfalso. apply Hw.
      apply small_winding; [apply Z.ltb_lt in Esz; fold edges; lia
                           | exact Hm | exact Hcx | exact Hcy |].
      eapply Forall_impl; [apply (Hgen x y Hg)|]. intros v [_ Hv]. exact Hv.
  - apply Z.ltb_ge in Esz.
    set (sortedE := qsort edge (fun a b => lefLowX (fst a) (fst b)) edges).
    assert (HpE : Permutation sortedE edges) by apply qsort_perm.
    assert (HmE : Forall manhattan_edge sortedE).
    { apply Forall_forall. intros e He. rewrite Forall_forall in Hm.
      apply Hm. rewrite <- HpE. exact He. }
    destruct (lefOrient_annotate sortedE HmE) as (dir & Ed & Ec).
    rewrite Ed.
    assert (Hpp : Permutation (qsort DPOINT lefLowY (map fst edges)) (map fst edges))
      by apply qsort_perm.
    assert (Hsp := qsort_pts (map fst edges)).
    destruct (qsort DPOINT lefLowY (map fst edges)) as [|p0 prest] eqn:Epts.
    { apply Permutation_nil in Hpp.
      apply map_eq_nil in Hpp. rewrite Hpp in Esz. simpl in Esz. lia. }
    rewrite Ec.
    apply (StronglySorted_mono _ (fun p q => (dp_y p <= dp_y q)%Q)) in Hsp;
      [|intros a b; apply lefLowY_le].
    apply StronglySorted_inv in Hsp as [Hsp Hp0].
    assert (HsE : StronglySorted (fun a b => (ex a <= ex b)%Q) (annotate sortedE)).
    { apply annotate_sorted. apply qsort_edges. }
    (* every end of an edge is at the height of a sorted point *)
    assert (Hlev : Forall (fun e =>
               (exists w, w ∈ p0 :: prest /\ (dp_y (fst e) == dp_y w)%Q) /\
               (exists w, w ∈ p0 :: prest /\ (dp_y (snd e) == dp_y w)%Q)) sortedE).
    { apply Forall_forall. intros e He. rewrite HpE in He.
      pose proof (closed_edges_levels first L Hcy) as Hl.
      rewrite Forall_forall in Hl.
      destruct (Hl e He) as [(w1 & Hw1 & E1) (w2 & Hw2 & E2)].
      fold edges in Hw1, Hw2. rewrite <- Hpp in Hw1, Hw2.
      split; [exists w1 | exists w2]; auto. }
    destruct (sweep_props (annotate sortedE) HsE 0%Q prest (dp_y p0) [])
      as [Hdisj Hwf]; [exact Hsp | exact Hp0 | exact I | constructor | constructor |].
    split; [exact Hwf|]. split.
    { apply pairwise_lookup; [apply rect_disjoint_sym | exact Hdisj]. }
    intros x y Hg. specialize (Hgen x y Hg). rewrite Forall_forall in Hgen.
    assert (Hends := polygon_edges_ends L first). fold edges in Hends.
    rewrite Forall_forall in Hends.
    assert (Hgy : Forall (fun p => ~ (y == dp_y p)%Q) (p0 :: prest)).
    { apply Forall_forall. intros p Hp. rewrite Hpp in Hp.
      apply list_elem_of_fmap in Hp as (e & -> & He).
      apply Hgen. apply Hends. exact He. }
    apply Forall_cons in Hgy as [Hgy0 Hgy].
    rewrite (sweep_cover (annotate sortedE) x y HsE (annotate_dir sortedE HmE));
      [ | intros yb yt Hy Ho; apply (total_zero first L sortedE yb yt HpE Hm Hcy Hy Ho)
        | | exact Hsp | exact Hp0 | | exact Hgy0 | exact Hgy ].
    + rewrite winding_annotate.
      rewrite (sumZ_perm _ (map (crossing x y) edges)); [|apply Permutation_map; exact HpE].
      split.
      * intros [(r & Hr & _)|[_ H]]; [inversion Hr | exact H].
      * intros Hw. right. split; [|exact Hw].
        destruct (Qlt_le_dec (dp_y p0) y) as [Hy|Hy]; [exact Hy|].
        exfalso. apply Hw.
        assert (Hy' : (y < dp_y p0)%Q).
        { destruct (Qle_lt_or_eq _ _ Hy) as [Hq|Hq]; [exact Hq|].
          exfalso. apply Hgy0. exact Hq. }
        apply sumZ_map_zero. apply Forall_forall. intros e He.
        rewrite Forall_forall in Hlev. rewrite <- HpE in He.
        destruct (Hlev e He) as [(w1 & Hw1 & E1) (w2 & Hw2 & E2)].
        assert (Hlow : forall w, w ∈ p0 :: prest -> (dp_y p0 <= dp_y w)%Q).
        { intros w Hw'. apply elem_of_cons in Hw' as [->|Hw']; [lra|].
          rewrite Forall_forall in Hp0. apply Hp0. exact Hw'. }
        apply (crossing_zero_below x y e (dp_y p0)); [| |exact Hy'].
        -- rewrite E1. apply Hlow. exact Hw1.
        -- rewrite E2. apply Hlow. exact Hw2.
    + apply (annotate_Forall (fun e => ~ (x == dp_x (fst e))%Q)).
      apply Forall_forall. intros e He. rewrite HpE in He.
      apply Hgen. apply Hends. exact He.
    + apply (annotate_Forall (fun e => vertex_level (dp_y p0) prest (fst e) /\
                                       vertex_level (dp_y p0) prest (snd e))).
      eapply Forall_impl; [exact Hlev|].
      intros e [(w1 & Hw1 & E1) (w2 & Hw2 & E2)].
      split; [apply (level_of_pts p0 prest _ w1) | apply (level_of_pts p0 prest _ w2)];
        assumption.
Qed.

Lemma LefPolygonToRects_decomposition_witness :
  manhattan sample_polygon /\
  let rects := polygon_rects insertion_sort sample_polygon in
  LefPolygonToRects insertion_sort [] sample_polygon = ([] ++ rects)%list /\
  Forall rect_wf rects /\
  (forall i j r s, i <> j -> rects !! i = Some r -> rects !! j = Some s ->
                   rect_disjoint r s) /\
  (forall x y, off_grid sample_polygon x y ->
     ((exists r, r ∈ rects /\ inside r x y) <-> enclosed sample_polygon x y)).
Proof.
  assert (Hm : manhattan sample_polygon).
  { unfold manhattan, manhattan_edge. simpl.
    repeat (constructor; [first [left; reflexivity | right; reflexivity]|]).
    constructor. }
  split; [exact Hm|].
  apply (LefPolygonToRects_decomposition insertion_sort insertion_sort_perm
           insertion_sort_lefLowY insertion_sort_lefLowX [] sample_polygon Hm).
Defined.

(** The sample polygon gives the rectangle of its upper arm and the
    rectangle of its base. *)
Lemma polygon_rects_sample :
  polygon_rects insertion_sort sample_polygon
  = [mkDSEG 0 1 1 2 0; mkDSEG 0 0 2 1 0].
Proof. vm_compute. reflexivity. Qed.

(** * More properties of the code *)

Local Open Scope list_scope.

(** ** Characters *)

Lemma code_inj a b : code a = code b -> a = b.
Proof.
  unfold code. intros H. apply Nat2Z.inj in H.
  rewrite <- (ascii_nat_embedding a), <- (ascii_nat_embedding b). congruence.
Qed.

Lemma code_range c : 0 <= code c < 256.
Proof. unfold code. pose proof (nat_ascii_bounded c). lia. Qed.

Lemma ascii_eqb_code a b : ascii_eqb a b = true <-> code a = code b.
Proof.
  unfold ascii_eqb. rewrite Ascii.eqb_eq. split; [intros ->; reflexivity | apply code_inj].
Qed.

Lemma ascii_eqb_false_code a b : ascii_eqb a b = false <-> code a <> code b.
Proof.
  rewrite <- ascii_eqb_code. destruct (ascii_eqb a b); split; congruence.
Qed.

Lemma code_tolower c :
  code (tolower c) = if isupper c then code c + 32 else code c.
Proof.
  unfold tolower. destruct (isupper c) eqn:E; [|reflexivity].
  unfold isupper in E. unfold code in *.
  rewrite nat_ascii_embedding; lia.
Qed.

Lemma code_toupper c :
  code (toupper c) = if islower c then code c - 32 else code c.
Proof.
  unfold toupper. destruct (islower c) eqn:E; [|reflexivity].
  unfold islower in E. unfold code in *.
  pose proof (nat_ascii_bounded c).
  rewrite nat_ascii_embedding; lia.
Qed.

Ltac chars :=
  unfold isupper, islower in *;
  repeat match goal with
         | c : ascii |- _ =>
             lazymatch goal with
             | _ : 0 <= code c < 256 |- _ => fail
             | _ => pose proof (code_range c)
             end
         end;
  repeat match goal with
         | |- context [(?a <=? ?b) ] => destruct (Z.leb_spec a b)
         | H : context [(?a <=? ?b) ] |- _ => destruct (Z.leb_spec a b)
         end;
  simpl in *; try lia.

Lemma tolower_toupper a b : tolower a = tolower b <-> toupper a = toupper b.
Proof.
  split; intros H; apply (f_equal code) in H; apply code_inj;
    rewrite ?code_tolower, ?code_toupper in *; chars.
Qed.

Lemma tolower_idem c : tolower (tolower c) = tolower c.
Proof.
  apply code_inj. rewrite !code_tolower.
  assert (H : isupper (tolower c) = false).
  { unfold isupper at 1. rewrite code_tolower. chars. }
  rewrite H. reflexivity.
Qed.

(** The test of one character in the matching loop of [Lookup]. *)
Lemma Lookup_char_match t s :
  negb (ascii_eqb t " "%char) &&
  (ascii_eqb t s || (isupper t && islower s && ascii_eqb (tolower t) s)
   || (islower t && isupper s && ascii_eqb (toupper t) s)) = true
  <-> t <> " "%char /\ tolower t = tolower s.
Proof.
  split.
  - intros H. apply andb_true_iff in H as [H1 H2]. split.
    + intros ->. discriminate H1.
    + apply code_inj. rewrite !code_tolower.
      apply orb_true_iff in H2 as [H2|H2]; [apply orb_true_iff in H2 as [H2|H2]|].
      * apply ascii_eqb_code in H2. rewrite H2.
        assert (isupper t = isupper s) as -> by (unfold isupper; rewrite H2; reflexivity).
        reflexivity.
      * apply andb_true_iff in H2 as [H2 H3]. apply andb_true_iff in H2 as [H2 H4].
        apply ascii_eqb_code in H3. rewrite code_tolower, H2 in H3.
        rewrite H2. assert (isupper s = false) as -> by chars. lia.
      * apply andb_true_iff in H2 as [H2 H3]. apply andb_true_iff in H2 as [H2 H4].
        apply ascii_eqb_code in H3. rewrite code_toupper, H2 in H3.
        rewrite H4. assert (isupper t = false) as -> by chars. lia.
  - intros [H1 H2]. apply andb_true_iff. split.
    + destruct (ascii_eqb t " "%char) eqn:E; [|reflexivity].
      apply ascii_eqb_code, code_inj in E. contradiction.
    + apply (f_equal code) in H2. rewrite !code_tolower in H2.
      destruct (ascii_eqb t s) eqn:E; [reflexivity|].
      apply ascii_eqb_false_code in E. simpl.
      destruct (isupper t) eqn:Et, (isupper s) eqn:Es; try lia.
      * assert (islower s = true) as -> by chars. simpl.
        assert (ascii_eqb (tolower t) s = true) as ->;
          [|simpl; rewrite ?orb_true_r; reflexivity].
        apply ascii_eqb_code. rewrite code_tolower, Et. exact H2.
      * assert (islower t = true) as -> by chars. simpl.
        assert (ascii_eqb (toupper t) s = true) as ->;
          [|simpl; rewrite ?orb_true_r; reflexivity].
        apply ascii_eqb_code. rewrite code_toupper.
        assert (islower t = true) as -> by chars. lia.
Qed.

(** The matching loop of [Lookup] uses up the string exactly when the
    string, ignoring case, is the head of the entry before any space. *)
Lemma Lookup_match_spec :
  forall str entry tabc,
    Lookup_match str entry = (EmptyString, tabc) <->
    exists e1, entry = (e1 ++ tabc)%string /\ no_space e1 /\
               LefLower e1 = LefLower str.
Proof.
  induction str as [|c str IH]; intros entry tabc.
  - simpl. split.
    + intros H. assert (tabc = entry) as ->.
      { destruct entry; simpl in H; congruence. }
      exists EmptyString. simpl. auto.
    + intros (e1 & -> & _ & H). destruct e1; [|discriminate].
      simpl. destruct tabc; reflexivity.
  - split.
    + intros H. destruct entry as [|t entry]; [discriminate|].
      simpl in H.
      destruct (negb (ascii_eqb t " "%char) &&
                (ascii_eqb t c || isupper t && islower c && ascii_eqb (tolower t) c
                 || islower t && isupper c && ascii_eqb (toupper t) c)) eqn:E;
        [|discriminate].
      apply Lookup_char_match in E as [E1 E2].
      apply IH in H as (e1 & -> & Hn & Hl).
      exists (String t e1). simpl. rewrite E2, Hl. auto.
    + intros (e1 & -> & Hn & Hl). destruct e1 as [|t e1]; [discriminate|].
      simpl in Hl, Hn. injection Hl as Ht Hl. destruct Hn as [Hs Hn].
      assert (E : negb (ascii_eqb t " "%char) &&
                (ascii_eqb t c || isupper t && islower c && ascii_eqb (tolower t) c
                 || islower t && isupper c && ascii_eqb (toupper t) c) = true)
        by (apply Lookup_char_match; auto).
      simpl. rewrite E. apply IH. exists e1. auto.
Qed.

Lemma Lookup_abbrev_spec str entry :
  Lookup_abbrev str entry = true <-> abbreviates str entry.
Proof.
  unfold Lookup_abbrev, abbreviates.
  destruct (Lookup_match str entry) as [s' tabc] eqn:E. simpl. split.
  - intros H. destruct s'; [|discriminate].
    apply Lookup_match_spec in E as (e1 & He & Hn & Hl). eauto.
  - intros (e1 & e2 & He & Hn & Hl).
    assert (E' : Lookup_match str entry = (EmptyString, e2))
      by (apply Lookup_match_spec; eauto).
    rewrite E in E'. injection E' as -> _. reflexivity.
Qed.

Lemma first_char_end (s : string) :
  ascii_eqb (first_char s) " "%char || ascii_eqb (first_char s) zero = true
  <-> first_char s = zero \/ first_char s = " "%char.
Proof.
  rewrite orb_true_iff. unfold ascii_eqb. rewrite !Ascii.eqb_eq. tauto.
Qed.

Lemma Lookup_exact_spec str entry :
  Lookup_exact str entry = true <-> names_entry str entry.
Proof.
  unfold Lookup_exact, names_entry.
  destruct (Lookup_match str entry) as [s' tabc] eqn:E. split.
  - intros H. destruct s'; [|discriminate].
    apply first_char_end in H.
    apply Lookup_match_spec in E as (e1 & He & Hn & Hl). eauto 8.
  - intros (e1 & e2 & He & Hn & Hl & Hend).
    assert (E' : Lookup_match str entry = (EmptyString, e2))
      by (apply Lookup_match_spec; eauto).
    rewrite E in E'. injection E' as -> ->. apply first_char_end. exact Hend.
Qed.

Lemma Lookup_exact_abbrev str entry :
  Lookup_exact str entry = true -> Lookup_abbrev str entry = true.
Proof.
  unfold Lookup_exact, Lookup_abbrev.
  destruct (Lookup_match str entry) as [[|] tabc]; simpl; congruence.
Qed.

(** ** Keyword tables: [Lookup] and [LookupFull] *)

Lemma Lookup_from_cons str entry rest pos m :
  Lookup_from str (entry :: rest) pos m =
  if Lookup_exact str entry then pos
  else if Lookup_abbrev str entry
       then Lookup_from str rest (pos + 1) (if m =? -2 then pos else -1)
       else Lookup_from str rest (pos + 1) m.
Proof.
  unfold Lookup_exact, Lookup_abbrev. simpl.
  destruct (Lookup_match str entry) as [[|c s'] tabc]; simpl; [|reflexivity].
  destruct (ascii_eqb (first_char tabc) " "%char || ascii_eqb (first_char tabc) zero);
    [reflexivity|].
  destruct (m =? -2); reflexivity.
Qed.

(** What the search loop of [Lookup] returns from position [pos] with the
    value [m] of [match]: the first exact entry; or, with no exact entry,
    [m] if no entry is abbreviated, the only abbreviated entry if nothing
    was matched before, and -1 when two matches are known. *)
Lemma Lookup_from_cases str :
  forall table pos m,
    0 <= pos ->
    let r := Lookup_from str table pos m in
    (exists l1 e l2, table = (l1 ++ e :: l2)%list /\
        Forall (fun e' => Lookup_exact str e' = false) l1 /\
        Lookup_exact str e = true /\ r = pos + Z.of_nat (length l1)) \/
    (Forall (fun e => Lookup_exact str e = false) table /\
     ((Forall (fun e => Lookup_abbrev str e = false) table /\ r = m) \/
      (m = -2 /\ exists l1 e l2, table = (l1 ++ e :: l2)%list /\
          Forall (fun e' => Lookup_abbrev str e' = false) l1 /\
          Forall (fun e' => Lookup_abbrev str e' = false) l2 /\
          Lookup_abbrev str e = true /\ r = pos + Z.of_nat (length l1)) \/
      (r = -1 /\ m <> -2 /\ Exists (fun e => Lookup_abbrev str e = true) table) \/
      (r = -1 /\ exists l1 e l2 e' l3, table = (l1 ++ e :: l2 ++ e' :: l3)%list /\
          Lookup_abbrev str e = true /\ Lookup_abbrev str e' = true))).
Proof.
  induction table as [|e0 rest IH]; intros pos m Hpos r.
  - right. split; [constructor|]. left. split; [constructor | reflexivity].
  - subst r. rewrite Lookup_from_cons.
    destruct (Lookup_exact str e0) eqn:Ex.
    { left. exists [], e0, rest. simpl. split_and!; auto. lia. }
    assert (Hshift : forall l1 : list string,
               pos + 1 + Z.of_nat (length l1) = pos + Z.of_nat (length (e0 :: l1)))
      by (intros; simpl length; lia).
    destruct (Lookup_abbrev str e0) eqn:Ab.
    + specialize (IH (pos + 1) (if m =? -2 then pos else -1) ltac:(lia)).
      destruct IH as [(l1 & e & l2 & -> & H1 & H2 & H3)|[Hne IH]].
      { left. exists (e0 :: l1), e, l2. rewrite H3, Hshift. split_and!; auto. }
      right. split; [constructor; assumption|].
      destruct IH as [[Hna Hr]|[[Hm _]|[(Hr & _ & Hex)|(Hr & l1 & e & l2 & e' & l3 & -> & H1 & H2)]]].
      * rewrite Hr. destruct (Z.eqb_spec m (-2)) as [->|Hm].
        -- right. left. split; [reflexivity|].
           exists [], e0, rest. simpl. split_and!; auto. lia.
        -- right. right. left. split_and!; auto.
      * exfalso. destruct (Z.eqb_spec m (-2)); lia.
      * right. right. right. split; [exact Hr|].
        apply Exists_exists in Hex as (e & Hin & He).
        apply list_elem_of_split in Hin as (l2 & l3 & ->).
        exists [], e0, l2, e, l3. auto.
      * right. right. right. split; [exact Hr|].
        exists (e0 :: l1), e, l2, e', l3. auto.
    + specialize (IH (pos + 1) m ltac:(lia)).
      destruct IH as [(l1 & e & l2 & -> & H1 & H2 & H3)|[Hne IH]].
      { left. exists (e0 :: l1), e, l2. rewrite H3, Hshift. split_and!; auto. }
      right. split; [constructor; assumption|].
      destruct IH as [[Hna Hr]|[(Hm & l1 & e & l2 & -> & H1 & H2 & H3 & Hr)|[(Hr & Hm & Hex)|(Hr & l1 & e & l2 & e' & l3 & -> & H1 & H2)]]].
      * left. split; [constructor; assumption | exact Hr].
      * right. left. split; [exact Hm|].
        exists (e0 :: l1), e, l2. rewrite Hr, Hshift. split_and!; auto.
      * right. right. left. split_and!; auto.
      * right. right. right. split; [exact Hr|].
        exists (e0 :: l1), e, l2, e', l3. auto.
Qed.

Lemma Forall_false_not {A} (f : A -> bool) (P : A -> Prop) (l : list A) :
  (forall a, f a = true <-> P a) ->
  (Forall (fun a => f a = false) l <-> Forall (fun a => ~ P a) l).
Proof.
  intros H. split; intros HF; eapply Forall_impl; try exact HF; intros a Ha; simpl in *.
  - intros HP. apply H in HP. congruence.
  - destruct (f a) eqn:E; [|reflexivity]. exfalso. apply Ha, H, E.
Qed.

(** The first entry of a list with a property is at one position only. *)
Lemma first_split_unique {A} (P : A -> Prop) :
  forall (l1 l1' : list A) e e' l2 l2',
    (l1 ++ e :: l2 = l1' ++ e' :: l2')%list ->
    Forall (fun a => ~ P a) l1 -> P e ->
    Forall (fun a => ~ P a) l1' -> P e' ->
    length l1 = length l1'.
Proof.
  induction l1 as [|a l1 IH]; intros l1' e e' l2 l2' Heq H1 He H1' He'.
  - destruct l1' as [|a' l1']; [reflexivity|].
    simpl in Heq. injection Heq as -> _.
    apply Forall_cons in H1' as [Hn _]. contradiction.
  - destruct l1' as [|a' l1'].
    + simpl in Heq. injection Heq as -> _.
      apply Forall_cons in H1 as [Hn _]. contradiction.
    + simpl in Heq. injection Heq as -> Heq.
      apply Forall_cons in H1 as [_ H1]. apply Forall_cons in H1' as [_ H1'].
      simpl. f_equal. eapply IH; eauto.
Qed.

(** X1.  [Lookup] returns the position of the first entry that the string
    names (ignoring case, up to a space of the entry); failing that, the
    position of the entry it abbreviates when there is only one, -1 when
    it abbreviates several entries and -2 when it abbreviates none. *)
Theorem Lookup_result (str : string) (table : list string) :
  let r := Lookup str table in
  (r = -2 \/ r = -1 \/ 0 <= r < Z.of_nat (length table)) /\
  (r = -2 <-> Forall (fun e => ~ abbreviates str e) table) /\
  (forall l1 e l2, table = (l1 ++ e :: l2)%list ->
     Forall (fun e' => ~ names_entry str e') l1 -> names_entry str e ->
     r = Z.of_nat (length l1)) /\
  (0 <= r ->
     exists l1 e l2, table = (l1 ++ e :: l2)%list /\ r = Z.of_nat (length l1) /\
       abbreviates str e /\
       (names_entry str e \/
        (Forall (fun e' => ~ abbreviates str e') l1 /\
         Forall (fun e' => ~ abbreviates str e') l2))) /\
  (r = -1 ->
     Forall (fun e => ~ names_entry str e) table /\
     exists l1 e l2 e' l3, table = (l1 ++ e :: l2 ++ e' :: l3)%list /\
       abbreviates str e /\ abbreviates str e').
Proof.
  intros r.
  pose proof (Forall_false_not (Lookup_exact str) (names_entry str)) as HFe.
  pose proof (Forall_false_not (Lookup_abbrev str) (abbreviates str)) as HFa.
  specialize (fun l => HFe l (Lookup_exact_spec str)).
  specialize (fun l => HFa l (Lookup_abbrev_spec str)).
  destruct (Lookup_from_cases str table 0 (-2) ltac:(lia))
    as [(l1 & e & l2 & Ht & H1 & He & Hr)|[Hne Hc]]; fold (Lookup str table) in *;
    fold r in Hr || idtac.
  - (* an entry is named *)
    apply HFe in H1. apply Lookup_exact_spec in He as Hn.
    apply Lookup_exact_abbrev, Lookup_abbrev_spec in He.
    assert (Hlen : Z.of_nat (length l1) < Z.of_nat (length table)).
    { rewrite Ht, length_app. simpl. lia. }
    split_and!.
    + right. right. lia.
    + split; [lia|]. intros HF. exfalso. rewrite Forall_forall in HF.
      apply (HF e); [|exact He]. rewrite Ht. apply elem_of_app. right. left.
    + intros l1' e' l2' Ht' H1' Hn'. rewrite Hr.
      rewrite Ht in Ht'.
      rewrite (first_split_unique (names_entry str) l1 l1' e e' l2 l2' Ht' H1 Hn H1' Hn').
      lia.
    + intros _. exists l1, e, l2. split_and!; auto; lia.
    + lia.
  - apply HFe in Hne.
    assert (Hnoexact : forall l1 e l2, table = (l1 ++ e :: l2)%list ->
              names_entry str e -> False).
    { intros l1 e l2 Ht Hn. rewrite Forall_forall in Hne. apply (Hne e); [|exact Hn].
      rewrite Ht. apply elem_of_app. right. left. }
    destruct Hc as [[Hna Hr]|[(_ & l1 & e & l2 & Ht & H1 & H2 & He & Hr)|[(_ & Hm & _)|(Hr & l1 & e & l2 & e' & l3 & Ht & He & He')]]];
      fold (Lookup str table) in *; fold r in Hr || idtac.
    + (* nothing is abbreviated *)
      apply HFa in Hna. split_and!.
      * left. exact Hr.
      * split; auto.
      * intros l1 e l2 Ht _ Hn. exfalso. eapply Hnoexact; eauto.
      * lia.
      * lia.
    + (* one entry is abbreviated *)
      apply HFa in H1. apply HFa in H2. apply Lookup_abbrev_spec in He.
      assert (Hlen : Z.of_nat (length l1) < Z.of_nat (length table)).
      { rewrite Ht, length_app. simpl. lia. }
      split_and!.
      * right. right. lia.
      * split; [lia|]. intros HF. exfalso. rewrite Forall_forall in HF.
        apply (HF e); [|exact He]. rewrite Ht. apply elem_of_app. right. left.
      * intros l1' e' l2' Ht' _ Hn. exfalso. eapply Hnoexact; eauto.
      * intros _. exists l1, e, l2. split_and!; auto; lia.
      * lia.
    + contradiction.
    + (* several entries are abbreviated *)
      apply Lookup_abbrev_spec in He, He'. split_and!.
      * right. left. exact Hr.
      * split; [lia|]. intros HF. exfalso. rewrite Forall_forall in HF.
        apply (HF e); [|exact He]. rewrite Ht. apply elem_of_app. right. left.
      * intros l1' e'' l2' Ht' _ Hn. exfalso. eapply Hnoexact; eauto.
      * lia.
      * intros _. split; [exact Hne|]. exists l1, e, l2, e', l3. auto.
Qed.

Lemma Lookup_named str table l1 e l2 :
  table = (l1 ++ e :: l2)%list ->
  Forall (fun e' => ~ names_entry str e') l1 -> names_entry str e ->
  Lookup str table = Z.of_nat (length l1).
Proof.
  intros Ht H1 Hn.
  pose proof (Forall_false_not (Lookup_exact str) (names_entry str)) as HFe.
  specialize (fun l => HFe l (Lookup_exact_spec str)).
  destruct (Lookup_from_cases str table 0 (-2) ltac:(lia))
    as [(l1' & e' & l2' & Ht' & H1' & He' & Hr)|[Hne _]].
  - unfold Lookup. rewrite Hr. apply HFe in H1'. apply Lookup_exact_spec in He'.
    rewrite Ht in Ht'.
    rewrite (first_split_unique (names_entry str) l1 l1' e e' l2 l2' Ht' H1 Hn H1' He').
    lia.
  - exfalso. apply HFe in Hne. rewrite Forall_forall in Hne.
    apply (Hne e); [|exact Hn]. rewrite Ht. apply elem_of_app. right. left.
Qed.

Lemma plain_no_space s : plain s -> no_space s.
Proof. induction s; simpl; intuition. Qed.

Lemma append_cons c s t : (String c s ++ t)%string = String c (s ++ t)%string.
Proof. reflexivity. Qed.

Lemma append_nil t : (EmptyString ++ t)%string = t.
Proof. reflexivity. Qed.

Lemma append_empty s : (s ++ EmptyString)%string = s.
Proof.
  induction s as [|c s IH]; [reflexivity|].
  rewrite append_cons, IH. reflexivity.
Qed.

(** A keyword is only named by the strings that are the keyword, ignoring
    case. *)
Lemma names_plain str e :
  plain e -> (names_entry str e <-> LefLower e = LefLower str).
Proof.
  intros Hp. split.
  - intros (e1 & e2 & -> & _ & Hl & Hend).
    assert (e2 = EmptyString) as ->; [|rewrite append_empty; exact Hl].
    clear Hl. induction e1 as [|c e1 IH].
    + rewrite append_nil in Hp.
      destruct e2 as [|c e2]; [reflexivity|]. simpl in Hp, Hend.
      destruct Hp as (H1 & H2 & _). destruct Hend; contradiction.
    + rewrite append_cons in Hp. apply IH. apply Hp.
  - intros Hl. exists e, EmptyString. rewrite append_empty.
    split_and!; auto using plain_no_space.
Qed.

(** X2.  In a table of keywords (no space, no NUL), a string that is a
    keyword of the table, ignoring case, is found at the first position
    that holds this keyword, whatever the other entries it abbreviates. *)
Theorem Lookup_keyword (table l1 l2 : list string) (e str : string) :
  table = (l1 ++ e :: l2)%list ->
  Forall plain table ->
  LefLower str = LefLower e ->
  Forall (fun e' => LefLower e' <> LefLower e) l1 ->
  Lookup str table = Z.of_nat (length l1).
Proof.
  intros Ht Hp Hl H1. subst table.
  apply Forall_app in Hp as [Hp1 Hp2]. apply Forall_cons in Hp2 as [Hpe _].
  apply (Lookup_named str _ l1 e l2 eq_refl).
  - rewrite Forall_forall in *. intros e' Hin Hn.
    apply (names_plain str e' (Hp1 e' Hin)) in Hn. apply (H1 e' Hin). congruence.
  - apply names_plain; [exact Hpe | congruence].
Qed.

Lemma Lookup_keyword_witness :
  Lookup "routed" net_property_keys = 1.
Proof.
  apply (Lookup_keyword net_property_keys ["USE"] 
           ["FIXED"; "COVER"; "SHAPE"; "SOURCE"; "WEIGHT"; "PROPERTY"] "ROUTED" "routed").
  - reflexivity.
  - unfold net_property_keys. repeat constructor; discriminate.
  - reflexivity.
  - repeat constructor. discriminate.
Defined.

Lemma LookupFull_eq_spec :
  forall name entry,
    String.eqb name entry || LookupFull_eq name entry = true
    <-> LefLower entry = LefLower name.
Proof.
  assert (H : forall name entry,
             LookupFull_eq name entry = true <-> LefLower entry = LefLower name).
  { induction name as [|c name IH]; intros [|t entry]; simpl; split;
      try congruence; try reflexivity.
    - intros H. apply andb_true_iff in H as [H1 H2].
      apply ascii_eqb_code, code_inj in H1. apply tolower_toupper in H1.
      apply IH in H2. congruence.
    - intros [= H1 H2]. apply andb_true_iff. split.
      + apply ascii_eqb_code. f_equal. apply tolower_toupper. congruence.
      + apply IH. exact H2. }
  intros name entry. rewrite orb_true_iff, H. split; [|auto].
  intros [E|E]; [|exact E]. apply String.eqb_eq in E. subst. reflexivity.
Qed.

Lemma LookupFull_from_cases name :
  forall table pos,
    (Forall (fun e => LefLower e <> LefLower name) table /\
     LookupFull_from name table pos = -1) \/
    (exists l1 e l2, table = (l1 ++ e :: l2)%list /\
        Forall (fun e' => LefLower e' <> LefLower name) l1 /\
        LefLower e = LefLower name /\
        LookupFull_from name table pos = pos + Z.of_nat (length l1)).
Proof.
  induction table as [|e0 rest IH]; intros pos.
  - left. split; [constructor | reflexivity].
  - simpl LookupFull_from.
    destruct (String.eqb name e0 || LookupFull_eq name e0) eqn:E.
    + apply LookupFull_eq_spec in E. right. exists [], e0, rest.
      split_and!; auto. simpl. lia.
    + assert (Hne : LefLower e0 <> LefLower name).
      { intros H. apply LookupFull_eq_spec in H. congruence. }
      destruct (IH (pos + 1)) as [[H1 H2]|(l1 & e & l2 & -> & H1 & H2 & H3)].
      * left. split; [constructor; assumption | exact H2].
      * right. exists (e0 :: l1), e, l2. split_and!; auto.
        rewrite H3. simpl length. lia.
Qed.

(** X3.  [LookupFull] returns the position of the first entry that is the
    name, ignoring case, and -1 when there is none. *)
Theorem LookupFull_result (name : string) (table : list string) :
  let r := LookupFull name table in
  (r = -1 <-> Forall (fun e => LefLower e <> LefLower name) table) /\
  (0 <= r <->
     exists l1 e l2, table = (l1 ++ e :: l2)%list /\ r = Z.of_nat (length l1) /\
       Forall (fun e' => LefLower e' <> LefLower name) l1 /\
       LefLower e = LefLower name) /\
  (r = -1 \/ 0 <= r < Z.of_nat (length table)).
Proof.
  intros r. unfold LookupFull in r.
  destruct (LookupFull_from_cases name table 0)
    as [[H1 H2]|(l1 & e & l2 & Ht & H1 & H2 & H3)]; fold r in H2 || fold r in H3.
  - split_and!.
    + split; auto.
    + split; [lia|]. intros (l1 & e & l2 & -> & _ & _ & He). exfalso.
      rewrite Forall_forall in H1. apply (H1 e); [|exact He].
      apply elem_of_app. right. left.
    + left. exact H2.
  - simpl in H3. split_and!.
    + split; [lia|]. intros HF. exfalso. rewrite Forall_forall in HF.
      apply (HF e); [|exact H2]. rewrite Ht. apply elem_of_app. right. left.
    + split; [|lia]. intros _. exists l1, e, l2. auto.
    + right. rewrite Ht, length_app. simpl. lia.
Qed.

(** ** Layer records *)

Lemma LefFindLayer_from_cases token :
  forall LefInfo n,
    match LefFindLayer_from n LefInfo token with
    | Some k =>
        exists l1 l l2, LefInfo = (l1 ++ l :: l2)%list /\ k = (n + length l1)%nat /\
          lefName l = token /\ Forall (fun l' => lefName l' <> token) l1
    | None => Forall (fun l => lefName l <> token) LefInfo
    end.
Proof.
  intros LefInfo. induction LefInfo as [|l0 rest IH]; intros n; simpl.
  - constructor.
  - destruct (String.eqb_spec (lefName l0) token) as [E|E].
    + exists [], l0, rest. simpl. split_and!; auto.
    + specialize (IH (S n)).
      destruct (LefFindLayer_from (S n) rest token) as [k|].
      * destruct IH as (l1 & l & l2 & -> & -> & H1 & H2).
        exists (l0 :: l1), l, l2. simpl. split_and!; auto; lia.
      * constructor; assumption.
Qed.

(** X4.  [LefFindLayer] returns the first record of the registry with the
    given name, and nothing when no record has the name; [LefFindLayerNum]
    is the layer number of that record, and -1 when there is none. *)
Theorem LefFindLayer_first (LefInfo : list lefLayer) (token : string) :
  match LefFindLayer LefInfo token with
  | Some k =>
      exists l1 l l2, LefInfo = (l1 ++ l :: l2)%list /\ k = length l1 /\
        lefName l = token /\ Forall (fun l' => lefName l' <> token) l1 /\
        LefLookup LefInfo token = Some l /\
        LefFindLayerNum LefInfo token = type l
  | None =>
      Forall (fun l => lefName l <> token) LefInfo /\
      LefLookup LefInfo token = None /\
      LefFindLayerNum LefInfo token = -1
  end.
Proof.
  unfold LefLookup, LefFindLayerNum, LefFindLayer.
  pose proof (LefFindLayer_from_cases token LefInfo 0) as H.
  destruct (LefFindLayer_from 0 LefInfo token) as [k|].
  - destruct H as (l1 & l & l2 & -> & -> & H1 & H2).
    exists l1, l, l2. simpl.
    rewrite lookup_app_r by lia. rewrite Nat.sub_diag. simpl. auto 8.
  - simpl. auto.
Qed.

Lemma LefFindLayerByNum_cases layer :
  forall LefInfo,
    match LefFindLayerByNum LefInfo layer with
    | Some l =>
        exists l1 l2, LefInfo = (l1 ++ l :: l2)%list /\ type l = layer /\
          Forall (fun l' => type l' <> layer) l1
    | None => Forall (fun l => type l <> layer) LefInfo
    end.
Proof.
  intros LefInfo. induction LefInfo as [|l0 rest IH]; simpl.
  - constructor.
  - destruct (Z.eqb_spec (type l0) layer) as [E|E].
    + exists [], rest. simpl. auto.
    + destruct (LefFindLayerByNum rest layer) as [l|].
      * destruct IH as (l1 & l2 & -> & H1 & H2).
        exists (l0 :: l1), l2. simpl. auto.
      * constructor; assumption.
Qed.

Lemma LefGetMaxLayer_from_spec :
  forall LefInfo m,
    let r := LefGetMaxLayer_from m LefInfo in
    m < r /\ Forall (fun l => type l < r) LefInfo /\
    (r = m + 1 \/ exists l, l ∈ LefInfo /\ r = type l + 1).
Proof.
  intros LefInfo. induction LefInfo as [|l0 rest IH]; intros m r.
  - subst r. simpl. split_and!; [lia | constructor | left; reflexivity].
  - subst r. simpl.
    specialize (IH (if m <? type l0 then type l0 else m)).
    destruct IH as (H1 & H2 & H3).
    destruct (Z.ltb_spec m (type l0)) as [E|E].
    + split_and!; [lia | constructor; [lia | exact H2] |].
      right. destruct H3 as [H3|(l & Hl & H3)].
      * exists l0. split; [left | exact H3].
      * exists l. split; [right; exact Hl | exact H3].
    + split_and!; [lia | constructor; [lia | exact H2] |].
      destruct H3 as [H3|(l & Hl & H3)]; [left; exact H3|].
      right. exists l. split; [right; exact Hl | exact H3].
Qed.

Lemma LefGetMaxRouteLayer_from_spec :
  forall LefInfo m,
    let r := LefGetMaxRouteLayer_from m LefInfo in
    m < r /\
    Forall (fun l => lefClass l = CLASS_ROUTE -> type l < r) LefInfo /\
    (r = m + 1 \/
     exists l, l ∈ LefInfo /\ lefClass l = CLASS_ROUTE /\ r = type l + 1).
Proof.
  intros LefInfo. induction LefInfo as [|l0 rest IH]; intros m r.
  - subst r. simpl. split_and!; [lia | constructor | left; reflexivity].
  - subst r. simpl.
    destruct (lefClass_eqb (lefClass l0) CLASS_ROUTE) eqn:Ec; simpl.
    + apply lefClass_eqb_eq in Ec.
      specialize (IH (if m <? type l0 then type l0 else m)).
      destruct IH as (H1 & H2 & H3).
      destruct (Z.ltb_spec m (type l0)) as [E|E].
      * split_and!; [lia | constructor; [lia | exact H2] |].
        right. destruct H3 as [H3|(l & Hl & Hc & H3)].
        -- exists l0. split_and!; [left | exact Ec | exact H3].
        -- exists l. split_and!; [right; exact Hl | exact Hc | exact H3].
      * split_and!; [lia | constructor; [lia | exact H2] |].
        destruct H3 as [H3|(l & Hl & Hc & H3)]; [left; exact H3|].
        right. exists l. split_and!; [right; exact Hl | exact Hc | exact H3].
    + apply lefClass_eqb_neq in Ec.
      specialize (IH m). destruct IH as (H1 & H2 & H3).
      split_and!; [lia | constructor; [contradiction | exact H2] |].
      destruct H3 as [H3|(l & Hl & Hc & H3)]; [left; exact H3|].
      right. exists l. split_and!; [right; exact Hl | exact Hc | exact H3].
Qed.

Lemma LefGetMaxRouteLayer_from_le :
  forall LefInfo m m', m <= m' ->
    LefGetMaxRouteLayer_from m LefInfo <= LefGetMaxLayer_from m' LefInfo.
Proof.
  intros LefInfo. induction LefInfo as [|l0 rest IH]; intros m m' H; simpl; [lia|].
  destruct (lefClass_eqb (lefClass l0) CLASS_ROUTE); simpl;
    apply IH; destruct (Z.ltb_spec m (type l0)), (Z.ltb_spec m' (type l0)); lia.
Qed.

(** X5.  [LefGetMaxLayer] is one more than the largest layer number of the
    registry (0 when no record has a number): no record has this number or
    a larger one, so a lookup by this number finds nothing.
    [LefGetMaxRouteLayer] is the same over the route layers, and is never
    larger. *)
Theorem LefGetMaxLayer_bound (LefInfo : list lefLayer) :
  let m := LefGetMaxLayer LefInfo in
  let mr := LefGetMaxRouteLayer LefInfo in
  0 <= mr <= m /\
  Forall (fun l => type l < m) LefInfo /\
  Forall (fun l => lefClass l = CLASS_ROUTE -> type l < mr) LefInfo /\
  (m = 0 \/ exists l, l ∈ LefInfo /\ type l = m - 1) /\
  (mr = 0 \/ exists l, l ∈ LefInfo /\ lefClass l = CLASS_ROUTE /\ type l = mr - 1) /\
  LefFindLayerByNum LefInfo m = None.
Proof.
  intros m mr. unfold LefGetMaxLayer in m. unfold LefGetMaxRouteLayer in mr.
  destruct (LefGetMaxLayer_from_spec LefInfo (-1)) as (H1 & H2 & H3).
  destruct (LefGetMaxRouteLayer_from_spec LefInfo (-1)) as (R1 & R2 & R3).
  pose proof (LefGetMaxRouteLayer_from_le LefInfo (-1) (-1) ltac:(lia)) as Hle.
  fold m in H1, H2, H3, Hle. fold mr in R1, R2, R3, Hle.
  split_and!; try lia; try assumption.
  - destruct H3 as [H3|(l & Hl & H3)]; [left; lia|].
    right. exists l. split; [exact Hl | lia].
  - destruct R3 as [R3|(l & Hl & Hc & R3)]; [left; lia|].
    right. exists l. split_and!; [exact Hl | exact Hc | lia].
  - pose proof (LefFindLayerByNum_cases m LefInfo) as Hf.
    destruct (LefFindLayerByNum LefInfo m) as [l|]; [|reflexivity].
    destruct Hf as (l1 & l2 & Ht & Hty & _). exfalso.
    rewrite Forall_forall in H2. specialize (H2 l).
    rewrite Ht in H2. specialize (H2 ltac:(apply elem_of_app; right; left)). lia.
Qed.

(** ** Route pitches *)

Lemma LefSetRoutePitchX_find LefInfo layer value :
  forall layer',
    LefFindLayerByNum (LefSetRoutePitchX LefInfo layer value) layer' =
    if layer' =? layer then
      match LefFindLayerByNum LefInfo layer with
      | Some l => Some (if lefClass_eqb (lefClass l) CLASS_ROUTE
                        then set_pitchx l value else l)
      | None => None
      end
    else LefFindLayerByNum LefInfo layer'.
Proof.
  intros layer'. induction LefInfo as [|l0 rest IH]; simpl.
  - destruct (layer' =? layer); reflexivity.
  - destruct (Z.eqb_spec (type l0) layer) as [E|E]; simpl.
    + assert (Et : type (if lefClass_eqb (lefClass l0) CLASS_ROUTE
                         then set_pitchx l0 value else l0) = type l0)
        by (destruct (lefClass_eqb (lefClass l0) CLASS_ROUTE); reflexivity).
      rewrite Et. destruct (Z.eqb_spec layer' layer) as [E'|E'].
      * destruct (Z.eqb_spec (type l0) layer'); [reflexivity | lia].
      * destruct (Z.eqb_spec (type l0) layer'); [lia | reflexivity].
    + rewrite IH. destruct (Z.eqb_spec layer' layer) as [E'|E'].
      * destruct (Z.eqb_spec (type l0) layer'); [lia | reflexivity].
      * destruct (Z.eqb_spec (type l0) layer'); reflexivity.
Qed.

Lemma LefSetRoutePitchY_find LefInfo layer value :
  forall layer',
    LefFindLayerByNum (LefSetRoutePitchY LefInfo layer value) layer' =
    if layer' =? layer then
      match LefFindLayerByNum LefInfo layer with
      | Some l => Some (if lefClass_eqb (lefClass l) CLASS_ROUTE
                        then set_pitchy l value else l)
      | None => None
      end
    else LefFindLayerByNum LefInfo layer'.
Proof.
  intros layer'. induction LefInfo as [|l0 rest IH]; simpl.
  - destruct (layer' =? layer); reflexivity.
  - destruct (Z.eqb_spec (type l0) layer) as [E|E]; simpl.
    + assert (Et : type (if lefClass_eqb (lefClass l0) CLASS_ROUTE
                         then set_pitchy l0 value else l0) = type l0)
        by (destruct (lefClass_eqb (lefClass l0) CLASS_ROUTE); reflexivity).
      rewrite Et. destruct (Z.eqb_spec layer' layer) as [E'|E'].
      * destruct (Z.eqb_spec (type l0) layer'); [reflexivity | lia].
      * destruct (Z.eqb_spec (type l0) layer'); [lia | reflexivity].
    + rewrite IH. destruct (Z.eqb_spec layer' layer) as [E'|E'].
      * destruct (Z.eqb_spec (type l0) layer'); [lia | reflexivity].
      * destruct (Z.eqb_spec (type l0) layer'); reflexivity.
Qed.

Lemma LefSetRoutePitchX_names LefInfo layer value :
  map lefName (LefSetRoutePitchX LefInfo layer value) = map lefName LefInfo.
Proof.
  induction LefInfo as [|l0 rest IH]; simpl; [reflexivity|].
  destruct (type l0 =? layer); simpl; [|rewrite IH; reflexivity].
  destruct (lefClass_eqb (lefClass l0) CLASS_ROUTE); reflexivity.
Qed.

Lemma LefSetRoutePitchX_noop LefInfo layer value :
  no_route_record LefInfo layer -> LefSetRoutePitchX LefInfo layer value = LefInfo.
Proof.
  unfold no_route_record. induction LefInfo as [|l0 rest IH]; simpl; [reflexivity|].
  destruct (type l0 =? layer).
  - intros H. apply lefClass_eqb_neq in H. rewrite H. reflexivity.
  - intros H. rewrite (IH H). reflexivity.
Qed.

(** X6.  [LefSetRoutePitchX] on a layer number that a route layer answers
    for makes [LefGetRoutePitchX] of that layer return the value set; it
    leaves the Y pitch of the layer, every other layer number and the names
    of the registry as they are, and it changes nothing when no route layer
    answers for the number.  [LefSetRoutePitchY] does the same for the Y
    pitch. *)
Theorem LefSetRoutePitch_get (LefInfo : list lefLayer) (PitchX PitchY : double)
    (layer : Z) (value : double) :
  let LefInfoX := LefSetRoutePitchX LefInfo layer value in
  let LefInfoY := LefSetRoutePitchY LefInfo layer value in
  (no_route_record LefInfo layer -> LefInfoX = LefInfo) /\
  (forall l, LefFindLayerByNum LefInfo layer = Some l -> lefClass l = CLASS_ROUTE ->
     LefGetRoutePitchX LefInfoX PitchX layer = value /\
     LefGetRoutePitchY LefInfoY PitchY layer = value) /\
  LefGetRoutePitchY LefInfoX PitchY layer = LefGetRoutePitchY LefInfo PitchY layer /\
  LefGetRoutePitchX LefInfoY PitchX layer = LefGetRoutePitchX LefInfo PitchX layer /\
  (forall layer', layer' <> layer ->
     LefFindLayerByNum LefInfoX layer' = LefFindLayerByNum LefInfo layer' /\
     LefFindLayerByNum LefInfoY layer' = LefFindLayerByNum LefInfo layer') /\
  map lefName LefInfoX = map lefName LefInfo.
Proof.
  intros LefInfoX LefInfoY. subst LefInfoX LefInfoY. split_and!.
  - apply LefSetRoutePitchX_noop.
  - intros l Hl Hc. apply lefClass_eqb_eq in Hc.
    unfold LefGetRoutePitchX, LefGetRoutePitchY.
    rewrite LefSetRoutePitchX_find, LefSetRoutePitchY_find, Z.eqb_refl, Hl, Hc.
    simpl. rewrite Hc. auto.
  - unfold LefGetRoutePitchY. rewrite LefSetRoutePitchX_find, Z.eqb_refl.
    destruct (LefFindLayerByNum LefInfo layer) as [l|]; [|reflexivity].
    destruct (lefClass_eqb (lefClass l) CLASS_ROUTE) eqn:Hc; simpl; rewrite Hc;
      reflexivity.
  - unfold LefGetRoutePitchX. rewrite LefSetRoutePitchY_find, Z.eqb_refl.
    destruct (LefFindLayerByNum LefInfo layer) as [l|]; [|reflexivity].
    destruct (lefClass_eqb (lefClass l) CLASS_ROUTE) eqn:Hc; simpl; rewrite Hc;
      reflexivity.
  - intros layer' Hne.
    rewrite LefSetRoutePitchX_find, LefSetRoutePitchY_find.
    destruct (Z.eqb_spec layer' layer); [contradiction | auto].
  - apply LefSetRoutePitchX_names.
Qed.

Lemma LefSetRoutePitch_get_witness :
  LefGetRoutePitchX (LefSetRoutePitchX sample_registry 1 (3 # 4)) 1 1 = 3 # 4 /\
  LefGetRoutePitchY (LefSetRoutePitchY sample_registry 1 (3 # 4)) 1 1 = 3 # 4.
Proof.
  apply (proj1 (proj2 (LefSetRoutePitch_get sample_registry 1 1 1 (3 # 4))) metal2);
    reflexivity.
Defined.

(** ** Spacing rules *)

Lemma insert_rule_after_split newrule :
  forall next,
    exists l1 l2,
      insert_rule_after next newrule = (l1 ++ newrule :: l2)%list /\
      next = (l1 ++ l2)%list /\
      Forall (fun r => (sr_width r <= sr_width newrule)%Q) l1 /\
      match l2 with
      | [] => True
      | n :: _ => (sr_width newrule < sr_width n)%Q
      end.
Proof.
  induction next as [|n rest IH]; simpl.
  - exists [], []. simpl. auto.
  - destruct (Qltb (sr_width newrule) (sr_width n)) eqn:E.
    + apply Qltb_lt in E. exists [], (n :: rest). simpl. auto.
    + apply Qltb_ge in E. destruct IH as (l1 & l2 & E1 & E2 & H1 & H2).
      exists (n :: l1), l2. simpl. rewrite E1, E2. auto.
Qed.

Lemma wide_spacing_loop_app width :
  forall l1 l2 s,
    Forall (fun r => (sr_width r <= width)%Q) l1 ->
    wide_spacing_loop (l1 ++ l2) width s =
    wide_spacing_loop l2 width (match last l1 with Some r => sr_spacing r | None => s end).
Proof.
  induction l1 as [|r l1 IH]; intros l2 s H; [reflexivity|].
  apply Forall_cons in H as [Hr H]. simpl.
  assert (E : Qltb width (sr_width r) = false).
  { destruct (Qltb width (sr_width r)) eqn:E; [|reflexivity].
    apply Qltb_lt in E. lra. }
  rewrite E, (IH l2 _ H).
  destruct l1 as [|r' l1]; [reflexivity|].
  change (last (r :: r' :: l1)) with (last (r' :: l1)).
  destruct (last (r' :: l1)) eqn:El; [reflexivity|].
  apply last_None in El. discriminate.
Qed.

Lemma StronglySorted_insert_middle {A} (R : A -> A -> Prop) (l1 l2 : list A) a :
  StronglySorted R (l1 ++ l2) ->
  Forall (fun x => R x a) l1 -> Forall (R a) l2 ->
  StronglySorted R (l1 ++ a :: l2).
Proof.
  induction l1 as [|x l1 IH]; simpl; intros Hs H1 H2.
  - constructor; assumption.
  - apply StronglySorted_inv in Hs as [Hs Hx].
    apply Forall_cons in H1 as [Hxa H1].
    constructor; [apply IH; assumption|].
    apply Forall_app in Hx as [Hx1 Hx2].
    apply Forall_app. split; [exact Hx1|]. constructor; assumption.
Qed.

Lemma StronglySorted_app_r {A} (R : A -> A -> Prop) (l1 l2 : list A) :
  StronglySorted R (l1 ++ l2) -> StronglySorted R l2.
Proof.
  induction l1 as [|x l1 IH]; simpl; intros H; [exact H|].
  apply StronglySorted_inv in H as [H _]. apply IH, H.
Qed.

(** X7.  The insertion of a spacing rule with a width range keeps the rules
    that were there, in their order, and keeps the rule at the head at the
    head.  When the head is not wider than the new rule, a query for the
    width of the new rule returns its spacing, and rules that were in
    ascending order of width stay so. *)
Theorem insert_spacing_rule_sorted (rules : list lefSpacingRule)
    (newrule : lefSpacingRule) :
  let rules' := insert_spacing_rule rules newrule in
  Permutation rules' (newrule :: rules) /\
  (exists l1 l2, rules = (l1 ++ l2)%list /\ rules' = (l1 ++ newrule :: l2)%list) /\
  (forall h, head rules = Some h -> head rules' = Some h) /\
  ((forall h, head rules = Some h -> (sr_width h <= sr_width newrule)%Q) ->
   (forall s, wide_spacing_loop rules' (sr_width newrule) s = sr_spacing newrule) /\
   (StronglySorted (fun a b => (sr_width a <= sr_width b)%Q) rules ->
    StronglySorted (fun a b => (sr_width a <= sr_width b)%Q) rules')).
Proof.
  intros rules'. subst rules'. destruct rules as [|h next].
  { simpl. split_and!.
    - reflexivity.
    - exists [], []. auto.
    - intros h [=].
    - intros _. split.
      + intros s. destruct (Qltb (sr_width newrule) (sr_width newrule)) eqn:E;
          [apply Qltb_lt in E; lra | reflexivity].
      + intros _. repeat constructor. }
  destruct (insert_rule_after_split newrule next) as (l1 & l2 & E1 & E2 & H1 & H2).
  cbn [insert_spacing_rule]. rewrite E1. split_and!.
  - rewrite E2. change (h :: l1 ++ newrule :: l2) with ((h :: l1) ++ newrule :: l2).
    rewrite <- Permutation_middle. reflexivity.
  - exists (h :: l1), l2. rewrite E2. auto.
  - auto.
  - intros Hh. specialize (Hh h eq_refl). split.
    + intros s.
      change (h :: l1 ++ newrule :: l2) with ((h :: l1) ++ newrule :: l2).
      rewrite wide_spacing_loop_app by (constructor; assumption).
      simpl wide_spacing_loop.
      destruct (Qltb (sr_width newrule) (sr_width newrule)) eqn:E;
        [apply Qltb_lt in E; lra|].
      destruct l2 as [|n l2]; [reflexivity|]. simpl.
      apply Qltb_lt in H2. unfold Qltb in *. rewrite H2. reflexivity.
    + intros Hs. rewrite E2 in Hs.
      change (h :: l1 ++ newrule :: l2) with ((h :: l1) ++ newrule :: l2).
      apply StronglySorted_insert_middle.
      * exact Hs.
      * constructor; assumption.
      * destruct l2 as [|n l2]; [constructor|].
        change (h :: l1 ++ n :: l2) with ((h :: l1) ++ n :: l2) in Hs.
        apply StronglySorted_app_r in Hs.
        apply StronglySorted_inv in Hs as [_ Hn].
        constructor; [lra|].
        eapply Forall_impl; [exact Hn|]. intros r Hr. simpl in Hr. lra.
Qed.

Lemma insert_spacing_rule_sorted_witness :
  wide_spacing_loop (insert_spacing_rule wide_rules (mkSpacingRule 3 (3 # 2))) 3 (1 # 2)
    = 3 # 2 /\
  StronglySorted (fun a b => (sr_width a <= sr_width b)%Q)
    (insert_spacing_rule wide_rules (mkSpacingRule 3 (3 # 2))).
Proof.
  destruct (insert_spacing_rule_sorted wide_rules (mkSpacingRule 3 (3 # 2)))
    as (_ & _ & _ & H).
  destruct H as [H1 H2].
  - intros h [= <-]. simpl. lra.
  - split; [apply (H1 (1 # 2))|]. apply H2.
    unfold wide_rules. repeat constructor; simpl; lra.
Defined.

(** X8.  For a route layer whose spacing rules are in ascending order of
    width, [LefGetRouteWideSpacing] returns the spacing of the last rule
    that is not wider than the wire, and the spacing of the first rule when
    every rule is wider; it fails on a route layer with no rule, the list
    being read without a test. *)
Theorem LefGetRouteWideSpacing_sorted (LefInfo : list lefLayer)
    (PitchX PitchY : double) (layer : Z) (width : double) (lefl : lefLayer) :
  LefFindLayerByNum LefInfo layer = Some lefl ->
  lefClass lefl = CLASS_ROUTE ->
  StronglySorted (fun a b => (sr_width a <= sr_width b)%Q)
    (rt_spacing (info_route lefl)) ->
  match rt_spacing (info_route lefl) with
  | [] => LefGetRouteWideSpacing LefInfo PitchX PitchY layer width = None
  | sr :: _ =>
      exists l1 l2,
        rt_spacing (info_route lefl) = (l1 ++ l2)%list /\
        Forall (fun r => (sr_width r <= width)%Q) l1 /\
        Forall (fun r => (width < sr_width r)%Q) l2 /\
        LefGetRouteWideSpacing LefInfo PitchX PitchY layer width
        = Some (match last l1 with
                | Some r => sr_spacing r
                | None => sr_spacing sr
                end)
  end.
Proof.
  intros Hf Hc Hs. unfold LefGetRouteWideSpacing. rewrite Hf.
  apply lefClass_eqb_eq in Hc. rewrite Hc.
  destruct (rt_spacing (info_route lefl)) as [|sr rest] eqn:Er; [reflexivity|].
  rewrite <- Er in *. clear Er.
  assert (H : forall rules s,
             StronglySorted (fun a b => (sr_width a <= sr_width b)%Q) rules ->
             exists l1 l2, rules = (l1 ++ l2)%list /\
               Forall (fun r => (sr_width r <= width)%Q) l1 /\
               Forall (fun r => (width < sr_width r)%Q) l2 /\
               wide_spacing_loop rules width s
               = match last l1 with Some r => sr_spacing r | None => s end).
  { clear. induction rules as [|r rules IH]; intros s Hs.
    - exists [], []. simpl. auto.
    - apply StronglySorted_inv in Hs as [Hs Hr]. simpl.
      destruct (Qltb width (sr_width r)) eqn:E.
      + apply Qltb_lt in E. exists [], (r :: rules). simpl. split_and!; auto.
        constructor; [exact E|].
        eapply Forall_impl; [exact Hr|]. intros r' Hr'. simpl in Hr'. lra.
      + apply Qltb_ge in E.
        destruct (IH (sr_spacing r) Hs) as (l1 & l2 & -> & H1 & H2 & H3).
        exists (r :: l1), l2. split_and!; auto.
        rewrite H3. destruct l1 as [|r' l1]; [reflexivity|].
        change (last (r :: r' :: l1)) with (last (r' :: l1)).
        destruct (last (r' :: l1)) eqn:El; [reflexivity|].
        apply last_None in El. discriminate. }
  destruct (H (rt_spacing (info_route lefl)) (sr_spacing sr) Hs)
    as (l1 & l2 & E & H1 & H2 & H3).
  exists l1, l2. rewrite H3. auto.
Qed.

Lemma LefGetRouteWideSpacing_sorted_witness :
  exists l1 l2,
    wide_rules = (l1 ++ l2)%list /\
    Forall (fun r => (sr_width r <= 3)%Q) l1 /\
    Forall (fun r => (3 < sr_width r)%Q) l2 /\
    LefGetRouteWideSpacing [metal3] 1 1 2 3
    = Some (match last l1 with Some r => sr_spacing r | None => 1 # 2 end).
Proof.
  apply (LefGetRouteWideSpacing_sorted [metal3] 1 1 2 3 metal3);
    [reflexivity | reflexivity |].
  simpl. unfold wide_rules. repeat constructor; simpl; lra.
Defined.

(** ** Diagnostics in sequence *)

Lemma filter_app_length {A} (f : A -> bool) (l1 l2 : list A) :
  length (List.filter f (l1 ++ l2))
  = (length (List.filter f l1) + length (List.filter f l2))%nat.
Proof. rewrite List.filter_app, length_app. reflexivity. Qed.

(** X9.  With [Verbose] set, a run of diagnostics counts every call, prints
    the messages only as long as fewer than [LEF_MAX_ERRORS] were counted,
    prints the notice that further ones are suppressed once, when the count
    reaches [LEF_MAX_ERRORS], and never prints the totals. *)
Theorem LefError_calls_cap (LEF_MAX_ERRORS Verbose : Z)
    (calls : list (err_type * string)) (st : err_counts) :
  Verbose <> 0 ->
  let e0 := fatal st + nonfatal st in
  let n := Z.of_nat (length calls) in
  let '(st', out) := LefError_calls LEF_MAX_ERRORS Verbose calls st in
  fatal st' =
    fatal st + Z.of_nat (length (List.filter (fun c => is_fatal (fst c)) calls)) /\
  fatal st' + nonfatal st' = e0 + n /\
  Z.of_nat (length (List.filter is_message out))
    = Z.max 0 (Z.min n (LEF_MAX_ERRORS - e0)) /\
  Z.of_nat (length (List.filter is_suppressed out))
    = (if (e0 <=? LEF_MAX_ERRORS) && (LEF_MAX_ERRORS <? e0 + n) then 1 else 0) /\
  existsb is_totals out = false.
Proof.
  intros HV. revert st. induction calls as [|[type msg] rest IH]; intros st e0 n.
  - subst e0 n. simpl. split_and!; try lia; try reflexivity.
    destruct (Z.leb_spec (fatal st + nonfatal st) LEF_MAX_ERRORS),
             (Z.ltb_spec LEF_MAX_ERRORS (fatal st + nonfatal st + Z.of_nat 0)); simpl;
      try reflexivity; lia.
  - cbn [LefError_calls].
    destruct (LefError LEF_MAX_ERRORS Verbose type (Some msg) st) as [st1 out1] eqn:E1.
    specialize (IH st1).
    destruct (LefError_calls LEF_MAX_ERRORS Verbose rest st1) as [st2 out2].
    cbv zeta in IH. destruct IH as (I1 & I2 & I3 & I4 & I5).
    unfold LefError in E1.
    destruct (Z.eqb_spec Verbose 0) as [|_]; [contradiction|].
    assert (Hst1 : fatal st1 + nonfatal st1 = e0 + 1 /\
                   fatal st1 = fatal st + (if is_fatal type then 1 else 0) /\
                   out1 = (if e0 <? LEF_MAX_ERRORS
                           then [DiagMessage
                                   match type with
                                   | DEF_WARNING | DEF_ERROR => "D"%char
                                   | _ => "L"%char
                                   end msg]
                           else if e0 =? LEF_MAX_ERRORS
                                then [DiagSuppressed
                                        match type with
                                        | DEF_WARNING | DEF_ERROR => "D"%char
                                        | _ => "L"%char
                                        end]
                                else [])).
    { subst e0. destruct type; injection E1 as <- <-; simpl; split_and!; try lia;
        reflexivity. }
    destruct Hst1 as (S1 & S2 & S3).
    assert (Hn : n = Z.of_nat (length rest) + 1) by (subst n; simpl length; lia).
    rewrite !filter_app_length, !Nat2Z.inj_add, I3, I4, S1.
    rewrite existsb_app, I5, orb_false_r.
    cbn [List.filter fst]. 
    split_and!.
    + rewrite I1, S2. destruct (is_fatal type); simpl length; lia.
    + lia.
    + rewrite S3. destruct (Z.ltb_spec e0 LEF_MAX_ERRORS);
        [|destruct (Z.eqb_spec e0 LEF_MAX_ERRORS)]; simpl; lia.
    + rewrite S3.
      destruct (Z.ltb_spec e0 LEF_MAX_ERRORS);
        [|destruct (Z.eqb_spec e0 LEF_MAX_ERRORS)]; simpl;
        destruct (Z.leb_spec (e0 + 1) LEF_MAX_ERRORS),
                 (Z.ltb_spec LEF_MAX_ERRORS (e0 + 1 + Z.of_nat (length rest))),
                 (Z.leb_spec e0 LEF_MAX_ERRORS),
                 (Z.ltb_spec LEF_MAX_ERRORS (e0 + n)); simpl; lia.
    + rewrite S3. destruct (e0 <? LEF_MAX_ERRORS); [reflexivity|].
      destruct (e0 =? LEF_MAX_ERRORS); reflexivity.
Qed.

Lemma LefError_calls_cap_witness :
  let '(st', out) :=
    LefError_calls 2 1
      [(DEF_ERROR, "a"); (DEF_WARNING, "b"); (DEF_ERROR, "c"); (DEF_ERROR, "d")]
      (mkErr 0 0) in
  fatal st' = 0 + 3 /\
  fatal st' + nonfatal st' = 0 + 0 + 4 /\
  Z.of_nat (length (List.filter is_message out)) = Z.max 0 (Z.min 4 (2 - (0 + 0))) /\
  Z.of_nat (length (List.filter is_suppressed out)) = 1 /\
  existsb is_totals out = false.
Proof.
  apply (LefError_calls_cap 2 1
           [(DEF_ERROR, "a"); (DEF_WARNING, "b"); (DEF_ERROR, "c"); (DEF_ERROR, "d")]
           (mkErr 0 0)).
  discriminate.
Defined.

(** ** Polygons *)

(** X10.  [lefLowX] and [lefLowY] are comparison functions as [qsort]
    needs them: they return -1, 0 or 1, the order of the arguments changes
    the sign, 0 means equal coordinates, and "not above" is transitive. *)
Theorem lefLow_comparators (p q r : DPOINT) :
  (lefLowX p q = -1 \/ lefLowX p q = 0 \/ lefLowX p q = 1) /\
  lefLowX q p = - lefLowX p q /\
  (lefLowX p q = 0 <-> (dp_x p == dp_x q)%Q) /\
  (lefLowX p q = -1 <-> (dp_x p < dp_x q)%Q) /\
  (lefLowX p q <= 0 -> lefLowX q r <= 0 -> lefLowX p r <= 0) /\
  (lefLowY p q = -1 \/ lefLowY p q = 0 \/ lefLowY p q = 1) /\
  lefLowY q p = - lefLowY p q /\
  (lefLowY p q = 0 <-> (dp_y p == dp_y q)%Q) /\
  (lefLowY p q = -1 <-> (dp_y p < dp_y q)%Q) /\
  (lefLowY p q <= 0 -> lefLowY q r <= 0 -> lefLowY p r <= 0).
Proof.
  unfold lefLowX, lefLowY.
  split_and!; qcases; try (split; intros; try lia; lra); try lia;
    try (intros; try lia; lra); auto.
Qed.

Lemma edge_dir_cases e d :
  edge_dir e = Some d ->
  (d = HEDGE /\ (dp_y (fst e) == dp_y (snd e))%Q) \/
  (d = REDGE /\ (dp_x (fst e) == dp_x (snd e))%Q /\ (dp_y (fst e) < dp_y (snd e))%Q) \/
  (d = FEDGE /\ (dp_x (fst e) == dp_x (snd e))%Q /\ (dp_y (snd e) < dp_y (fst e))%Q).
Proof.
  destruct e as [p q]. unfold edge_dir. simpl.
  destruct (Qeq_bool (dp_y p) (dp_y q)) eqn:Ey; qb Ey.
  - intros [= <-]. left. auto.
  - destruct (Qeq_bool (dp_x p) (dp_x q)) eqn:Ex; qb Ex; [|discriminate].
    destruct (Qltb (dp_y p) (dp_y q)) eqn:E1; qb E1.
    + intros [= <-]. right. left. auto.
    + destruct (Qltb (dp_y q) (dp_y p)) eqn:E2; qb E2.
      * intros [= <-]. right. right. auto.
      * exfalso. apply Ey. lra.
Qed.

Lemma edge_dir_None e : edge_dir e = None <-> ~ manhattan_edge e.
Proof.
  split.
  - intros H Hm. destruct (manhattan_edge_dir e Hm) as [d Hd]. congruence.
  - intros H. destruct (edge_dir e) as [d|] eqn:E; [|reflexivity].
    exfalso. apply H. unfold manhattan_edge.
    destruct (edge_dir_cases e d E) as [[_ Hy]|[(_ & Hx & _)|(_ & Hx & _)]]; auto.
Qed.

(** X11.  [lefOrient] fails exactly when an edge is neither horizontal nor
    vertical; otherwise it gives one direction per edge: rising for a
    vertical edge that goes up, falling for one that goes down, and
    horizontal for an edge whose ends are at the same height. *)
Theorem lefOrient_directions (edges : list edge) :
  (lefOrient edges = None <-> Exists (fun e => ~ manhattan_edge e) edges) /\
  (forall dir, lefOrient edges = Some dir ->
     Forall2 (fun e d =>
                (d = HEDGE /\ (dp_y (fst e) == dp_y (snd e))%Q) \/
                (d = REDGE /\ (dp_x (fst e) == dp_x (snd e))%Q /\
                 (dp_y (fst e) < dp_y (snd e))%Q) \/
                (d = FEDGE /\ (dp_x (fst e) == dp_x (snd e))%Q /\
                 (dp_y (snd e) < dp_y (fst e))%Q)) edges dir).
Proof.
  induction edges as [|e edges [IH1 IH2]].
  - split; [|intros dir [= <-]; constructor].
    simpl. split; [discriminate | intros H; inversion H].
  - cbn [lefOrient]. split.
    + destruct (edge_dir e) as [d|] eqn:Ed.
      * destruct (lefOrient edges) as [dir|].
        -- split; [discriminate|]. intros H. exfalso.
           apply Exists_cons in H as [H|H].
           ++ apply edge_dir_None in H. congruence.
           ++ apply IH1 in H. discriminate.
        -- split; [|reflexivity]. intros _. apply Exists_cons_tl.
           apply IH1. reflexivity.
      * split; [|reflexivity]. intros _. apply Exists_cons_hd.
        apply edge_dir_None. exact Ed.
    + intros dir H. destruct (edge_dir e) as [d|] eqn:Ed; [|discriminate].
      destruct (lefOrient edges) as [dir'|]; [|discriminate].
      injection H as <-. constructor; [|apply IH2; reflexivity].
      apply edge_dir_cases. exact Ed.
Qed.

(** X12.  The placement of a rectangle of a macro keeps its layer and its
    extents: without rotation the width and the height are those of the
    rectangle of the macro; with rotation the width is the height of the
    rectangle of the macro, and the difference of the Y corners is the
    opposite of its width, so that the corners come out in reverse order
    along Y. *)
Theorem place_rect_extents (gateginfo gate : GATE) (r : DSEG) :
  let r' := place_rect gateginfo gate r in
  ds_layer r' = ds_layer r /\
  (orient_R90 gate = false ->
     (ds_x2 r' - ds_x1 r' == ds_x2 r - ds_x1 r)%Q /\
     (ds_y2 r' - ds_y1 r' == ds_y2 r - ds_y1 r)%Q) /\
  (orient_R90 gate = true ->
     (ds_x2 r' - ds_x1 r' == ds_y2 r - ds_y1 r)%Q /\
     (ds_y2 r' - ds_y1 r' == - (ds_x2 r - ds_x1 r))%Q).
Proof.
  unfold place_rect.
  destruct (orient_R90 gate), (orient_MX gate), (orient_MY gate); simpl;
    split_and!; try reflexivity; try discriminate; intros _; split; ring.
Qed.

Lemma scan_on_vertices (V : list DPOINT) (a b : DPOINT) :
  a ∈ V -> b ∈ V ->
  forall E w xbot rex,
    Forall (fun ed => fst (fst ed) ∈ V) E ->
    (w <> 0 -> exists p, p ∈ V /\ xbot = dp_x p) ->
    Forall (on_vertices V) rex ->
    Forall (on_vertices V) (scan_edges (dp_y a) (dp_y b) E w xbot rex).
Proof.
  intros Ha Hb. induction E as [|[e d] E IH]; intros w xbot rex HE Hx Hrex.
  - exact Hrex.
  - apply Forall_cons in HE as [He HE]. simpl in He. cbn [scan_edges].
    assert (Hx' : exists p, p ∈ V /\ (if w =? 0 then dp_x (fst e) else xbot) = dp_x p).
    { destruct (Z.eqb_spec w 0) as [_|Hw]; [exists (fst e); auto | apply Hx, Hw]. }
    assert (Hnew : Forall (on_vertices V)
              (mkDSEG (if w =? 0 then dp_x (fst e) else xbot) (dp_y a)
                      (dp_x (fst e)) (dp_y b) (dp_layer (fst e)) :: rex)).
    { constructor; [|exact Hrex]. destruct Hx' as (p & Hp & Ep).
      exists p, (fst e), a, b. simpl. split_and!; auto. }
    cbv zeta.
    repeat match goal with
           | |- context [if ?c then _ else _] =>
               lazymatch c with
               | (w =? 0) => fail
               | (d =? REDGE) => fail
               | _ => destruct c
               end
           end; apply IH; auto.
Qed.

Lemma sweep_on_vertices (V : list DPOINT) E xbot0 :
  Forall (fun ed => fst (fst ed) ∈ V) E ->
  forall pts a rex,
    a ∈ V -> Forall (fun p => p ∈ V) pts ->
    Forall (on_vertices V) rex ->
    Forall (on_vertices V) (sweep E xbot0 (dp_y a) pts rex).
Proof.
  intros HE. induction pts as [|p pts IH]; intros a rex Ha Hpts Hrex.
  - exact Hrex.
  - apply Forall_cons in Hpts as [Hp Hpts]. cbn [sweep].
    destruct (Qeq_bool (dp_y a) (dp_y p)).
    + apply IH; auto.
    + apply IH; auto.
      apply scan_on_vertices; auto. intros H. contradiction.
Qed.

Lemma close_path_points pointlist :
  Forall (fun v => exists p, p ∈ pointlist /\ dp_x v = dp_x p /\
                             dp_y v = dp_y p /\ dp_layer v = dp_layer p)
         (close_path pointlist).
Proof.
  assert (Hself : Forall (fun v => exists p, p ∈ pointlist /\ dp_x v = dp_x p /\
                             dp_y v = dp_y p /\ dp_layer v = dp_layer p) pointlist).
  { apply Forall_forall. intros v Hv. exists v. auto. }
  destruct pointlist as [|first rest]; [constructor|].
  unfold close_path.
  destruct (negb (Qeq_bool (dp_x (List.last (first :: rest) first)) (dp_x first))
            || negb (Qeq_bool (dp_y (List.last (first :: rest) first)) (dp_y first)));
    [|exact Hself].
  apply Forall_app. split; [exact Hself|].
  constructor; [|constructor]. exists first. split; [left|]. simpl. auto.
Qed.

Lemma on_vertices_impl (V W : list DPOINT) r :
  Forall (fun v => exists p, p ∈ W /\ dp_x v = dp_x p /\
                             dp_y v = dp_y p /\ dp_layer v = dp_layer p) V ->
  on_vertices V r -> on_vertices W r.
Proof.
  intros H (p & q & a & b & Hp & Hq & Ha & Hb & E1 & E2 & E3 & E4 & E5).
  rewrite Forall_forall in H.
  destruct (H p Hp) as (p' & Hp' & Px & _).
  destruct (H q Hq) as (q' & Hq' & Qx & _ & Ql).
  destruct (H a Ha) as (a' & Ha' & _ & Ay & _).
  destruct (H b Hb) as (b' & Hb' & _ & By & _).
  exists p', q', a', b'. split_and!; auto; congruence.
Qed.

(** X13.  Whatever the polygon, the rectangles that [LefPolygonToRects]
    appends have their sides at X and Y coordinates of points of the point
    list, and the layer of a point of the list: the function makes up no
    coordinate.  The rectangles that were in the list stay at its head. *)
Theorem polygon_rects_on_vertices
    (qsort : forall A : Type, (A -> A -> Z) -> list A -> list A)
    (qsort_perm : forall A cmp l, Permutation (qsort A cmp l) l)
    (rectList : list DSEG) (pointlist : list DPOINT) :
  exists rects,
    LefPolygonToRects qsort rectList pointlist = rectList ++ rects /\
    Forall (on_vertices pointlist) rects.
Proof.
  exists (polygon_rects qsort pointlist). split.
  { destruct pointlist; simpl; [rewrite app_nil_r|]; reflexivity. }
  eapply Forall_impl;
    [|intros r; apply (on_vertices_impl (close_path pointlist) pointlist r),
                      close_path_points].
  unfold polygon_rects.
  set (edges := polygon_edges (close_path pointlist)).
  destruct (Z.of_nat (length edges) <? 4); [constructor|].
  assert (Hedges : Forall (fun e => fst e ∈ close_path pointlist) edges).
  { subst edges. destruct (close_path pointlist) as [|v0 L]; [constructor|].
    eapply Forall_impl; [apply polygon_edges_ends|]. intros e [H _]. exact H. }
  destruct (lefOrient _) as [dir|]; [|constructor].
  destruct (qsort DPOINT lefLowY (map fst edges)) as [|p0 prest] eqn:Epts;
    [constructor|].
  assert (Hpts : Forall (fun p => p ∈ close_path pointlist) (p0 :: prest)).
  { rewrite <- Epts. apply Forall_forall. intros p Hp.
    rewrite qsort_perm in Hp. apply list_elem_of_fmap in Hp as (e & -> & He).
    rewrite Forall_forall in Hedges. apply Hedges, He. }
  apply Forall_cons in Hpts as [Hp0 Hpts].
  apply sweep_on_vertices; try assumption; [|constructor].
  apply Forall_forall. intros [e d] Hin. simpl.
  apply list_elem_of_In, in_combine_l, list_elem_of_In in Hin.
  rewrite qsort_perm in Hin. rewrite Forall_forall in Hedges. apply Hedges, Hin.
Qed.

Lemma polygon_rects_on_vertices_witness :
  exists rects,
    LefPolygonToRects insertion_sort [] sample_polygon = [] ++ rects /\
    Forall (on_vertices sample_polygon) rects.
Proof.
  apply (polygon_rects_on_vertices insertion_sort insertion_sort_perm [] sample_polygon).
Defined.

(** ** Sections and statements *)

Lemma LookupFull_single name section :
  LefLower name = LefLower section -> (LookupFull name [section] =? 0) = true.
Proof.
  intros H. unfold LookupFull. simpl.
  assert (E : String.eqb name section || LookupFull_eq name section = true)
    by (apply LookupFull_eq_spec; congruence).
  rewrite E. reflexivity.
Qed.

Lemma Lookup_END tok : LefLower tok = "end" -> Lookup tok end_section = 0.
Proof.
  intros H.
  apply (Lookup_named tok end_section [] "END" ["ENDEXT"] eq_refl); [constructor|].
  apply names_plain; [repeat split; discriminate | symmetry; exact H].
Qed.

Lemma LefSkipSection_loop_end cfg section tok name rest :
  LefLower tok = "end" -> LefLower name = LefLower section ->
  forall pre fuel st,
    (length pre < fuel)%nat ->
    input st = pre ++ tok :: name :: rest ->
    Forall (fun t => Lookup t end_section < 0) pre ->
    LefSkipSection_loop cfg fuel section st = Some (tt, set_input st rest).
Proof.
  intros Htok Hname. apply Lookup_END in Htok. apply LookupFull_single in Hname.
  induction pre as [|t pre IH]; intros fuel st Hfuel Hin Hpre.
  - destruct fuel as [|fuel]; [simpl in Hfuel; lia|].
    simpl. unfold bind, LefNextToken. rewrite Hin. simpl. rewrite Htok. simpl.
    unfold LefParseEndStatement, bind, LefNextToken. simpl.
    unfold ret. rewrite Hname. reflexivity.
  - destruct fuel as [|fuel]; [simpl in Hfuel; lia|].
    apply Forall_cons in Hpre as [Ht Hpre].
    simpl. unfold bind, LefNextToken. rewrite Hin. simpl.
    destruct (Z.eqb_spec (Lookup t end_section) 0); [lia|].
    destruct (Z.eqb_spec (Lookup t end_section) 1); [lia|].
    rewrite (IH fuel (set_input st (pre ++ tok :: name :: rest)));
      [reflexivity | simpl in Hfuel; lia | reflexivity | exact Hpre].
Qed.

Lemma LefSkipSection_loop_eof cfg section :
  forall tokens fuel st,
    (length tokens < fuel)%nat ->
    input st = tokens ->
    Forall (fun t => Lookup t end_section < 0) tokens ->
    LefSkipSection_loop cfg fuel section st
    = LefErrorM cfg LEF_ERROR "Section has no END record!" (set_input st []).
Proof.
  induction tokens as [|t tokens IH]; intros fuel st Hfuel Hin Hpre.
  - destruct fuel as [|fuel]; [simpl in Hfuel; lia|].
    simpl. unfold bind, LefNextToken. rewrite Hin.
    destruct st; simpl in *; subst; reflexivity.
  - destruct fuel as [|fuel]; [simpl in Hfuel; lia|].
    apply Forall_cons in Hpre as [Ht Hpre].
    simpl. unfold bind, LefNextToken. rewrite Hin. simpl.
    destruct (Z.eqb_spec (Lookup t end_section) 0); [lia|].
    destruct (Z.eqb_spec (Lookup t end_section) 1); [lia|].
    rewrite (IH fuel (set_input st tokens));
      [reflexivity | simpl in Hfuel; lia | reflexivity | exact Hpre].
Qed.

(** X14.  [LefSkipSection] passes over the tokens up to the first END, and
    returns after the name that follows it when this is the name of the
    section, ignoring case: the input is then what follows, and nothing is
    reported or changed.  When the input holds no END (nor ENDEXT), all of
    it is read and one error is reported. *)
Theorem LefSkipSection_skips (cfg : Config) (section : string) (st : DefState) :
  (forall pre tok name rest,
     input st = pre ++ tok :: name :: rest ->
     Forall (fun t => Lookup t end_section < 0) pre ->
     LefLower tok = "end" -> LefLower name = LefLower section ->
     LefSkipSection cfg section st = Some (tt, set_input st rest)) /\
  (Forall (fun t => Lookup t end_section < 0) (input st) ->
   exists e out,
     LefError (cfg_LEF_MAX_ERRORS cfg) (cfg_Verbose cfg) LEF_ERROR
       (Some "Section has no END record!") (errs st) = (e, out) /\
     LefSkipSection cfg section st
     = Some (tt, set_diag (set_input st []) e (diags st ++ out))).
Proof.
  split.
  - intros pre tok name rest Hin Hpre Htok Hname.
    unfold LefSkipSection, bind, get.
    apply (LefSkipSection_loop_end cfg section tok name rest Htok Hname pre);
      [|exact Hin | exact Hpre].
    rewrite Hin, length_app. simpl. lia.
  - intros Hpre. unfold LefSkipSection, bind, get.
    rewrite (LefSkipSection_loop_eof cfg section (input st));
      [|lia | reflexivity | exact Hpre].
    unfold LefErrorM. simpl.
    destruct (LefError _ _ _ _ _) as [e out]. exists e, out. auto.
Qed.

Lemma LefSkipSection_skips_witness :
  LefSkipSection sample_cfg "REGIONS"
    (sample_state ["-"; "r1"; ";"; "End"; "regions"; "NETS"])
  = Some (tt, set_input (sample_state ["-"; "r1"; ";"; "End"; "regions"; "NETS"])
                ["NETS"]).
Proof.
  apply (proj1 (LefSkipSection_skips sample_cfg "REGIONS"
                  (sample_state ["-"; "r1"; ";"; "End"; "regions"; "NETS"]))
           ["-"; "r1"; ";"] "End" "regions" ["NETS"]).
  - reflexivity.
  - repeat constructor.
  - reflexivity.
  - reflexivity.
Defined.

(** ** Geometry statements *)








(** X17.  [LefAddViaGeometry] reads a rectangle at twice its size.  On a
    via with no rectangle yet it becomes the area of the via, and each
    enclosure rectangle already on the via is grown by it, keeping its
    layer: an enclosure that contains the origin then contains the
    rectangle.  On a via that has its area it is linked at the head of the
    other rectangles.  Only the record of the via changes, names and order
    of the registry are kept, and nothing changes when no rectangle is
    read. *)
Theorem LefAddViaGeometry_rect (cfg : Config) (lefl : nat) (curlayer : Z)
    (oscale : double) (st : DefState) :
  (forall st1, LefReadRect cfg curlayer (oscale / 2)%Q st = Some (None, st1) ->
     LefAddViaGeometry cfg lefl curlayer oscale st = Some (tt, st1)) /\
  (forall currect st1 l,
     LefReadRect cfg curlayer (oscale / 2)%Q st = Some (Some currect, st1) ->
     LefInfo st1 !! lefl = Some l ->
     let v := info_via l in
     let v' := add_via_rect v currect in
     LefAddViaGeometry cfg lefl curlayer oscale st
     = Some (tt, set_LefInfo st1 (<[lefl := set_info_via l v']> (LefInfo st1))) /\
     map lefName (<[lefl := set_info_via l v']> (LefInfo st1)) = map lefName (LefInfo st1) /\
     (ds_layer (via_area v) < 0 ->
        via_area v' = currect /\
        Forall2 (fun r r' =>
                   ds_layer r' = ds_layer r /\
                   (ds_x2 r' - ds_x1 r' == (ds_x2 r - ds_x1 r) + (ds_x2 currect - ds_x1 currect))%Q /\
                   (ds_y2 r' - ds_y1 r' == (ds_y2 r - ds_y1 r) + (ds_y2 currect - ds_y1 currect))%Q /\
                   ((ds_x1 r <= 0)%Q -> (0 <= ds_x2 r)%Q ->
                    (ds_y1 r <= 0)%Q -> (0 <= ds_y2 r)%Q ->
                    (ds_x1 r' <= ds_x1 currect)%Q /\ (ds_x2 currect <= ds_x2 r')%Q /\
                    (ds_y1 r' <= ds_y1 currect)%Q /\ (ds_y2 currect <= ds_y2 r')%Q))
                (via_lr v) (via_lr v')) /\
     (0 <= ds_layer (via_area v) ->
        via_area v' = via_area v /\ via_lr v' = currect :: via_lr v)).
Proof.
  split.
  - intros st1 H. unfold LefAddViaGeometry, bind. rewrite H. reflexivity.
  - intros currect st1 l H Hl v v'. split_and!.
    + unfold LefAddViaGeometry, bind. rewrite H. unfold get, deref. rewrite Hl.
      reflexivity.
    + rewrite list_fmap_insert. apply list_insert_id.
      rewrite list_lookup_fmap, Hl. reflexivity.
    + intros Hneg. subst v'. unfold add_via_rect.
      apply Z.ltb_lt in Hneg. rewrite Hneg. simpl. split; [reflexivity|].
      induction (via_lr v) as [|r lr IH]; simpl; constructor; [|exact IH].
      simpl. split_and!; try reflexivity; try ring.
      intros. split_and!; lra.
    + intros Hpos. subst v'. unfold add_via_rect.
      assert (E : (ds_layer (via_area v) <? 0) = false) by (apply Z.ltb_ge; lia).
      rewrite E. simpl. auto.
Qed.




(** ** Via selection *)

Section ViaNames.

Variable P : string -> Z -> Prop.

Lemma insert_entry (m : gmap Z string) b name b' n :
  <[b := name]> m !! b' = Some n -> m !! b' = Some n \/ (b' = b /\ n = name).
Proof.
  destruct (decide (b' = b)) as [->|Hne].
  - rewrite lookup_insert_eq. intros [= <-]. auto.
  - rewrite lookup_insert_ne by auto. auto.
Qed.

Lemma fill_entry (m : gmap Z string) b name b' n :
  fill m b name !! b' = Some n -> m !! b' = Some n \/ (b' = b /\ n = name).
Proof.
  unfold fill. destruct (m !! b); [auto | apply insert_entry].
Qed.

Lemma names_ok_update (T T' : via_tables) b name :
  P name b -> names_ok P T ->
  (forall b' n, ViaXX T' !! b' = Some n -> ViaXX T !! b' = Some n \/ (b' = b /\ n = name)) ->
  (forall b' n, ViaXY T' !! b' = Some n -> ViaXY T !! b' = Some n \/ (b' = b /\ n = name)) ->
  (forall b' n, ViaYX T' !! b' = Some n -> ViaYX T !! b' = Some n \/ (b' = b /\ n = name)) ->
  (forall b' n, ViaYY T' !! b' = Some n -> ViaYY T !! b' = Some n \/ (b' = b /\ n = name)) ->
  names_ok P T'.
Proof.
  intros HP Hok H1 H2 H3 H4 b' n [H|[H|[H|H]]];
    [apply H1 in H | apply H2 in H | apply H3 in H | apply H4 in H];
    (destruct H as [H|[-> ->]]; [|exact HP]); apply Hok; unfold via_table_entry; auto.
Qed.

Ltac entry :=
  intros ? ? ?;
  repeat match goal with
         | H : fill _ _ _ !! _ = Some _ |- _ => apply fill_entry in H
         | H : <[_ := _]> _ !! _ = Some _ |- _ => apply insert_entry in H
         end; intuition.

Lemma assign1_ok EPS name b d1 d2 T :
  P name b -> names_ok P T -> names_ok P (assign1 EPS name b d1 d2 T).
Proof.
  intros HP Hok. unfold assign1.
  repeat match goal with
         | |- context [if ?c then _ else _] => destruct c
         end; try exact Hok;
    apply (names_ok_update T _ b name HP Hok); simpl; entry.
Qed.

Lemma assign3_ok EPS name b d1 d2 T :
  P name b -> names_ok P T -> names_ok P (assign3 EPS name b d1 d2 T).
Proof.
  intros HP Hok. unfold assign3.
  repeat match goal with
         | |- context [if ?c then _ else _] => destruct c
         end; try exact Hok;
    apply (names_ok_update T _ b name HP Hok); simpl; entry.
Qed.

Lemma assign2_ok EPS name b d1 d2 T :
  P name b -> names_ok P T -> names_ok P (assign2 EPS name b d1 d2 T).
Proof.
  intros HP Hok. unfold assign2.
  repeat match goal with
         | |- context [if ?c then _ else _] => destruct c
         end; try exact Hok;
    apply (names_ok_update T _ b name HP Hok); simpl; entry.
Qed.

End ViaNames.

Lemma generate_loop_names MAX_LAYERS :
  forall L hg L' hg',
    generate_loop MAX_LAYERS L hg = Some (L', hg') ->
    Forall2 (fun l l' => lefName l' = lefName l /\ lefClass l' = lefClass l) L L'.
Proof.
  induction L as [|l L IH]; intros hg L' hg' H; simpl in H.
  - injection H as <- _. constructor.
  - destruct (generate_step MAX_LAYERS l) as [[l' flag]|] eqn:Es; [|discriminate].
    destruct (generate_loop MAX_LAYERS L _) as [[rest' hg1]|] eqn:El; [|discriminate].
    injection H as <- _. constructor; [|eapply IH; exact El].
    unfold generate_step in Es.
    repeat match type of Es with
           | context [if ?c then _ else _] => destruct c
           | context [match ?l with [] => _ | _ :: _ => _ end] => destruct l
           end; try discriminate; injection Es as <- _; auto.
Qed.

Lemma via_pass_ok MAX_LAYERS AllowedVias (P : string -> Z -> Prop)
    minroute maxroute hg assign :
  (forall name b d1 d2 T, P name b -> names_ok P T -> names_ok P (assign name b d1 d2 T)) ->
  forall L st,
    (forall lefl b t, lefl ∈ L -> lefClass lefl = CLASS_VIA ->
       via_usable MAX_LAYERS AllowedVias hg lefl b t = true -> P (lefName lefl) b) ->
    names_ok P st.1.1 ->
    names_ok P (via_pass MAX_LAYERS AllowedVias minroute maxroute hg assign L st).1.1.
Proof.
  intros Hassign. induction L as [|lefl L IH]; intros [[new d1] d2] HL Hok.
  - exact Hok.
  - assert (HL' : forall lefl b t, lefl ∈ L -> lefClass lefl = CLASS_VIA ->
              via_usable MAX_LAYERS AllowedVias hg lefl b t = true -> P (lefName lefl) b).
    { intros l b t Hin. apply HL. right. exact Hin. }
    cbn [via_pass].
    destruct (lefClass_eqb (lefClass lefl) CLASS_VIA) eqn:Ec; [|apply IH; assumption].
    apply lefClass_eqb_eq in Ec.
    destruct (via_lr (info_via lefl)) as [|r lr] eqn:Elr; [apply IH; assumption|].
    destruct (via_extent MAX_LAYERS minroute maxroute lefl d1 d2) as [[[b t] d1'] d2'].
    destruct (via_usable MAX_LAYERS AllowedVias hg lefl b t) eqn:Eu.
    + apply IH; [exact HL'|]. simpl. apply Hassign; [|exact Hok].
      apply (HL lefl b t); [left | exact Ec | exact Eu].
    + apply IH; assumption.
Qed.

Lemma set_slot_entry (m : gmap Z string) b v b' n :
  set_slot m b v !! b' = Some n -> m !! b' = Some n \/ (b' = b /\ v = Some n).
Proof.
  unfold set_slot. destruct v as [name|].
  - intros H. apply insert_entry in H as [H|[-> ->]]; auto.
  - destruct (decide (b' = b)) as [->|Hne].
    + rewrite lookup_delete_eq. discriminate.
    + rewrite lookup_delete_ne by auto. auto.
Qed.

Lemma first_of_entry a b c n :
  first_of a b c = Some n -> a = Some n \/ b = Some n \/ c = Some n.
Proof. unfold first_of. destruct a, b; auto. Qed.

Lemma backfill_layer_entry new V b b' n :
  via_table_entry (backfill_layer new V b) b' n ->
  via_table_entry V b' n \/ (b' = b /\ via_table_entry new b n).
Proof.
  unfold backfill_layer, via_table_entry.
  destruct (ViaXX new !! b) as [xx|] eqn:E1, (ViaXY new !! b) as [xy|] eqn:E2,
           (ViaYX new !! b) as [yx|] eqn:E3, (ViaYY new !! b) as [yy|] eqn:E4;
    cbn [ViaXX ViaXY ViaYX ViaYY first_of]; auto;
    intros [H|[H|[H|H]]]; apply set_slot_entry in H as [H|[-> H]]; auto;
    injection H as <-; auto 6.
Qed.

Lemma backfill_entry new :
  forall layers V b' n,
    via_table_entry (fold_left (backfill_layer new) layers V) b' n ->
    via_table_entry V b' n \/ (b' ∈ layers /\ via_table_entry new b' n).
Proof.
  induction layers as [|b layers IH]; intros V b' n H; simpl in H; [auto|].
  apply IH in H as [H|[Hin H]].
  - apply backfill_layer_entry in H as [H|[-> H]]; [auto|].
    right. split; [left | exact H].
  - right. split; [right; exact Hin | exact H].
Qed.

(** X19.  Every via name that [LefAssignLayerVias] leaves in one of the
    four tables was there before for that base layer, or is the name of a
    record of the registry of class VIA, stored for a base layer between 0
    and [MAX_LAYERS], and found in [AllowedVias] when that list is not
    empty. *)
Theorem LefAssignLayerVias_selects (MAX_LAYERS : Z) (EPS : double)
    (AllowedVias : list string) (LefInfo : list lefLayer)
    (xybdiff xytdiff : double) (V : via_tables)
    (LefInfo' : list lefLayer) (V' : via_tables) :
  LefAssignLayerVias MAX_LAYERS EPS AllowedVias LefInfo xybdiff xytdiff V
    = Some (LefInfo', V') ->
  map lefName LefInfo' = map lefName LefInfo /\
  forall b name,
    via_table_entry V' b name ->
    via_table_entry V b name \/
    selectable_via MAX_LAYERS AllowedVias LefInfo name b.
Proof.
  unfold LefAssignLayerVias, LefAssignLayerVias_new.
  destruct (generate_loop MAX_LAYERS LefInfo ∅) as [[L1 hg]|] eqn:Eg; [|discriminate].
  destruct (route_range L1 (-1) (-1)) as [minroute maxroute].
  intros [= <- <-].
  pose proof (generate_loop_names MAX_LAYERS LefInfo ∅ L1 hg Eg) as Hn.
  split.
  { clear -Hn. induction Hn as [|l l' L L' [H1 _] _ IH]; simpl; congruence. }
  set (P := selectable_via MAX_LAYERS AllowedVias LefInfo).
  assert (HL : forall lefl b t, lefl ∈ L1 -> lefClass lefl = CLASS_VIA ->
             via_usable MAX_LAYERS AllowedVias hg lefl b t = true -> P (lefName lefl) b).
  { intros lefl b t Hin Hc Hu. unfold P, selectable_via.
    assert (Horig : exists l0, l0 ∈ LefInfo /\ lefName l0 = lefName lefl /\
                               lefClass l0 = CLASS_VIA).
    { clear -Hn Hin Hc. induction Hn as [|l l' L L' [H1 H2] _ IH].
      - inversion Hin.
      - apply elem_of_cons in Hin as [->|Hin].
        + exists l. split_and!; [left | auto | congruence].
        + destruct (IH Hin) as (l0 & H0 & H3). exists l0. split; [right|]; auto. }
    unfold via_usable in Hu.
    repeat (apply andb_true_iff in Hu as [Hu ?]).
    split_and!; [exact Horig | lia | lia |].
    intros Hne. destruct AllowedVias as [|a al]; [contradiction|].
    match goal with H : existsb _ _ = true |- _ =>
      apply existsb_exists in H as (x & Hx & Ex) end.
    apply String.eqb_eq in Ex. rewrite Ex. apply list_elem_of_In. exact Hx. }
  assert (Hnew : names_ok P
            (via_passes MAX_LAYERS EPS AllowedVias minroute maxroute hg L1 xybdiff xytdiff)).
  { unfold via_passes.
    apply via_pass_ok; [apply assign3_ok | exact HL |].
    apply via_pass_ok; [apply assign2_ok | exact HL |].
    apply via_pass_ok; [apply assign1_ok | exact HL |].
    intros b name [H|[H|[H|H]]]; simpl in H; rewrite lookup_empty in H; discriminate. }
  intros b name H. unfold backfill in H.
  apply backfill_entry in H as [H|[_ H]]; [left; exact H|].
  right. apply Hnew. exact H.
Qed.

Lemma LefAssignLayerVias_selects_witness :
  exists LefInfo' V',
    LefAssignLayerVias 12 (1 # 10000) [] sample_registry 0 0 no_vias
      = Some (LefInfo', V') /\
    map lefName LefInfo' = map lefName sample_registry /\
    (via_table_entry V' 0 "via12" ->
     via_table_entry no_vias 0 "via12" \/
     selectable_via 12 [] sample_registry "via12" 0).
Proof.
  destruct (LefAssignLayerVias 12 (1 # 10000) [] sample_registry 0 0 no_vias)
    as [[LefInfo' V']|] eqn:E; [|vm_compute in E; discriminate E].
  exists LefInfo', V'. split; [reflexivity|].
  destruct (LefAssignLayerVias_selects 12 (1 # 10000) [] sample_registry 0 0 no_vias
              LefInfo' V' E) as [H1 H2].
  split; [exact H1 | apply H2].
Defined.

(** ** Via sizes *)

Lemma orient_tables_some V orient :
  0 <= orient <= 3 -> exists t, orient_tables V orient = Some t.
Proof.
  intros H. unfold orient_tables.
  repeat (case_match; [eexists; reflexivity|]). lia.
Qed.

(** X20.  [LefGetXYViaWidth] returns a width for each of the four
    orientations 0..3.  The via of the requested orientation is used when
    slot 0 of its table is set and the name at [base] is a known record
    with a rectangle on the layer; when no table of the orientation's
    chain names a known record at [base] the result is the guess
    [MIN PitchX PitchY / 2]; and for orientation 1 the chain is ViaXY,
    ViaYX, ViaYY, ViaYX, so the result does not depend on ViaXX. *)
Theorem LefGetXYViaWidth_fallback LefInfo PitchX PitchY V base layer dir orient :
  (0 <= orient <= 3 ->
   exists w, LefGetXYViaWidth LefInfo PitchX PitchY V base layer dir orient = Some w) /\
  (forall t0 t1 t2 t3 name0 l w,
     orient_tables V orient = Some (t0, t1, t2, t3) ->
     t0 !! 0 = Some name0 ->
     find_via LefInfo t0 base = Some l ->
     via_width l layer dir = Some w ->
     LefGetXYViaWidth LefInfo PitchX PitchY V base layer dir orient = Some w) /\
  (forall t0 t1 t2 t3,
     orient_tables V orient = Some (t0, t1, t2, t3) ->
     find_via LefInfo t0 base = None ->
     find_via LefInfo t1 base = None ->
     find_via LefInfo t2 base = None ->
     find_via LefInfo t3 base = None ->
     LefGetXYViaWidth LefInfo PitchX PitchY V base layer dir orient
     = Some (MIN PitchX PitchY / 2)%Q) /\
  (forall V',
     ViaXY V' = ViaXY V -> ViaYX V' = ViaYX V -> ViaYY V' = ViaYY V ->
     LefGetXYViaWidth LefInfo PitchX PitchY V' base layer dir 1
     = LefGetXYViaWidth LefInfo PitchX PitchY V base layer dir 1).
Proof.
  split_and!.
  - intros H. destruct (orient_tables_some V orient H) as [[[[t0 t1] t2] t3] E].
    unfold LefGetXYViaWidth. rewrite E. eexists; reflexivity.
  - intros t0 t1 t2 t3 name0 l w E E0 Ef Ew.
    unfold LefGetXYViaWidth. rewrite E, E0, Ef. cbn. rewrite Ew. reflexivity.
  - intros t0 t1 t2 t3 E E0 E1 E2 E3.
    unfold LefGetXYViaWidth. rewrite E, E0, E1, E2, E3.
    destruct (t0 !! 0); reflexivity.
  - intros V' Exy Eyx Eyy. unfold LefGetXYViaWidth, orient_tables.
    change (1 =? 0) with false. change (1 =? 1) with true.
    cbv iota. rewrite Exy, Eyx, Eyy. reflexivity.
Qed.

(** ** The generated vias of the output *)

Lemma unmark_step_spec Num_layers l :
  lefName (fst (unmark_step Num_layers l)) = lefName l /\
  snd (unmark_step Num_layers l)
  = lefClass_eqb (lefClass (fst (unmark_step Num_layers l))) CLASS_VIA &&
    via_generated (info_via (fst (unmark_step Num_layers l))) /\
  (snd (unmark_step Num_layers l) = true ->
   exists r1 r2 rest,
     via_lr (info_via (fst (unmark_step Num_layers l))) = r1 :: r2 :: rest /\
     bad_layer Num_layers r1 = false /\ bad_layer Num_layers r2 = false).
Proof.
  unfold unmark_step.
  destruct (lefClass_eqb (lefClass l) CLASS_VIA) eqn:Ec;
    destruct (via_generated (info_via l)) eqn:Eg; cbn [andb];
    try (cbn [fst snd]; rewrite Ec, ?Eg; cbn; split_and!; [reflexivity..|discriminate]).
  destruct (via_lr (info_via l)) as [|r1 [|r2 rest]] eqn:El;
    [| destruct (bad_layer Num_layers r1) eqn:B1
     | destruct (bad_layer Num_layers r1) eqn:B1;
       [| destruct (bad_layer Num_layers r2) eqn:B2]];
    cbn [fst snd];
    try (split_and!; [reflexivity | cbn; rewrite Ec; reflexivity | discriminate]).
  split_and!; [reflexivity | rewrite Ec, Eg; reflexivity |].
  intros _. exists r1, r2, rest. rewrite El. auto.
Qed.

(** X21.  In what [LefWriteGeneratedVias] prints, the count of the [VIAS]
    header is [defvias] plus the number of via records that follow it, each
    record has exactly three rectangles, and nothing at all is printed when
    that count is zero; [END VIAS] is printed only when [defvias] is zero.
    The vias left marked as generated have two leading rectangles on layers
    in [0, Num_layers). *)
Theorem LefWriteGeneratedVias_count CIFLayer Num_layers LefInfo oscale defvias :
  let r := LefWriteGeneratedVias CIFLayer Num_layers LefInfo oscale defvias in
  map lefName (fst r) = map lefName LefInfo /\
  (forall l, In l (fst r) ->
     lefClass l = CLASS_VIA -> via_generated (info_via l) = true ->
     exists r1 r2 rest,
       via_lr (info_via l) = r1 :: r2 :: rest /\
       0 <= ds_layer r1 < Num_layers /\ 0 <= ds_layer r2 < Num_layers) /\
  exists records,
    length records
    = length (List.filter (fun l => lefClass_eqb (lefClass l) CLASS_VIA &&
                                    via_generated (info_via l)) (fst r)) /\
    Forall (fun o => exists name a b c, o = OutVia name [a; b; c]) records /\
    (if defvias + Z.of_nat (length records) =? 0 then snd r = []
     else snd r = OutVias (defvias + Z.of_nat (length records)) :: records ++
                  (if defvias =? 0 then [OutEndVias] else [])).
Proof.
  intros r.
  assert (Efst : fst r = map fst (map (unmark_step Num_layers) LefInfo)).
  { unfold r, LefWriteGeneratedVias. case_match; reflexivity. }
  assert (Hbad : forall x, bad_layer Num_layers x = false ->
                           0 <= ds_layer x < Num_layers).
  { intros x. unfold bad_layer. lia. }
  split_and!.
  - rewrite Efst. clear. revert LefInfo. intros L.
    induction L as [|l L IH]; [reflexivity|].
    cbn [map]. rewrite IH.
    f_equal. apply (unmark_step_spec Num_layers l).
  - intros l Hin Hc Hg. rewrite Efst in Hin.
    rewrite map_map in Hin. apply in_map_iff in Hin as (l0 & <- & _).
    destruct (unmark_step_spec Num_layers l0) as (_ & Es & Hs).
    rewrite Hc, Hg in Es. cbn in Es.
    destruct (Hs Es) as (r1 & r2 & rest & El & B1 & B2).
    exists r1, r2, rest. auto.
  - exists (concat (map (write_via CIFLayer (oscale / 2)) (fst r))).
    assert (Hlen : forall L,
      length (concat (map (write_via CIFLayer (oscale / 2))
                (map fst (map (unmark_step Num_layers) L))))
      = length (List.filter snd (map (unmark_step Num_layers) L)) /\
      length (List.filter (fun l => lefClass_eqb (lefClass l) CLASS_VIA &&
                                    via_generated (info_via l))
                (map fst (map (unmark_step Num_layers) L)))
      = length (List.filter snd (map (unmark_step Num_layers) L)) /\
      Forall (fun o => exists name a b c, o = OutVia name [a; b; c])
        (concat (map (write_via CIFLayer (oscale / 2))
                (map fst (map (unmark_step Num_layers) L))))).
    { intros L. induction L as [|l L (IH1 & IH2 & IH3)];
        [split_and!; [reflexivity | reflexivity | constructor]|].
      cbn [map concat List.filter].
      destruct (unmark_step_spec Num_layers l) as (_ & Es & Hs).
      rewrite length_app, <- Es.
      unfold write_via at 1 3. rewrite <- Es.
      destruct (snd (unmark_step Num_layers l)) eqn:E.
      - destruct (Hs eq_refl) as (r1 & r2 & rest & El & _).
        rewrite El. cbn [length app]. rewrite IH1, IH2.
        split_and!; [reflexivity | reflexivity |].
        constructor; [|exact IH3]. do 4 eexists; reflexivity.
      - cbn [length app]. rewrite IH1, IH2. split_and!; auto. }
    destruct (Hlen LefInfo) as (H1 & H2 & H3).
    rewrite Efst. split_and!; [congruence | exact H3 |].
    rewrite H1. unfold r, LefWriteGeneratedVias.
    destruct (defvias + Z.of_nat _ =? 0); reflexivity.
Qed.

(** ** The bounds of the design at the end of the read *)

Lemma DefRead_finish_spec cfg l st :
  exists st',
    DefRead_finish cfg l st = Some (err_fatal l, st') /\
    Xlowerbound st' = (if Qeq_bool (Xlowerbound st) (Xupperbound st)
                       then dXlowerbound l else Xlowerbound st) /\
    Xupperbound st' = (if Qeq_bool (Xlowerbound st) (Xupperbound st)
                       then dXupperbound l else Xupperbound st) /\
    Ylowerbound st' = (if Qeq_bool (Ylowerbound st) (Yupperbound st)
                       then dYlowerbound l else Ylowerbound st) /\
    Yupperbound st' = (if Qeq_bool (Ylowerbound st) (Yupperbound st)
                       then dYupperbound l else Yupperbound st).
Proof.
  unfold DefRead_finish, bind, modify, ret.
  destruct (LefError _ _ _ _ _) as [e out]. cbn.
  destruct (Qeq_bool (Xlowerbound st) (Xupperbound st)); cbn;
    destruct (Qeq_bool (Ylowerbound st) (Yupperbound st)); cbn;
    (eexists; split; [reflexivity|]); cbn; auto.
Qed.

(** X22.  After a DIEAREA statement the end of the read gives the bounds of
    both axes the corners of the die area when no TRACKS statement came in
    between.  When X tracks came in between and their range reaches beyond
    the midpoint of the die area on either side, the X bounds are the range
    of the tracks on the sides where it reaches beyond the midpoint and the
    midpoint itself on the other side (not the side of the die area), and
    the Y bounds are the corners of the die area. *)
Theorem DefRead_die_tracks_finish cfg l st r st1 :
  LefReadRect cfg 0 (oscale l) st = Some (Some r, st1) ->
  exists l1 st2,
    DefRead_diearea cfg l st = Some (l1, st2) /\
    (exists st3,
       DefRead_finish cfg l1 st2 = Some (err_fatal l, st3) /\
       Xlowerbound st3 = ds_x1 r /\ Xupperbound st3 = ds_x2 r /\
       Ylowerbound st3 = ds_y1 r /\ Yupperbound st3 = ds_y2 r) /\
    (forall os start channels step cl,
       let mid := ((ds_x1 r + ds_x2 r) / 2)%Q in
       let lo := (start / os)%Q in
       let hi := ((start + step * inject_Z channels) / os)%Q in
       (lo < mid \/ mid < hi)%Q ->
       exists st3,
         DefRead_finish cfg l1 (apply_tracks "x"%char os start channels step cl st2)
         = Some (err_fatal l, st3) /\
         Xlowerbound st3 = (if Qltb lo mid then lo else mid) /\
         Xupperbound st3 = (if Qltb mid hi then hi else mid) /\
         Ylowerbound st3 = ds_y1 r /\ Yupperbound st3 = ds_y2 r).
Proof.
  intros Hr.
  assert (Hd : exists st2,
             DefRead_diearea cfg l st = Some (set_die l r, st2) /\
             Xlowerbound st2 = ((ds_x1 r + ds_x2 r) / 2)%Q /\
             Xupperbound st2 = ((ds_x1 r + ds_x2 r) / 2)%Q /\
             Ylowerbound st2 = ((ds_y1 r + ds_y2 r) / 2)%Q /\
             Yupperbound st2 = ((ds_y1 r + ds_y2 r) / 2)%Q).
  { unfold DefRead_diearea, bind. rewrite Hr. cbn.
    eexists. split; [reflexivity|]. cbn. auto. }
  destruct Hd as (st2 & Hd & Hxl & Hxu & Hyl & Hyu).
  exists (set_die l r), st2. split; [exact Hd|]. split.
  - destruct (DefRead_finish_spec cfg (set_die l r) st2)
      as (st3 & Hf & F1 & F2 & F3 & F4).
    exists st3. rewrite Hxl, Hxu, Hyl, Hyu, !Qeq_bool_refl in *.
    split; [exact Hf|]. auto.
  - intros os start channels step cl mid lo hi Hrange.
    destruct (apply_tracks_x os start channels step cl st2)
      as (_ & _ & _ & T1 & T2 & T3 & T4 & _).
    destruct (DefRead_finish_spec cfg (set_die l r)
                (apply_tracks "x"%char os start channels step cl st2))
      as (st3 & Hf & F1 & F2 & F3 & F4).
    exists st3. split; [exact Hf|].
    rewrite T1, T2, T3, T4, Hxl, Hxu, Hyl, Hyu in *.
    fold mid lo hi in F1, F2.
    rewrite Qeq_bool_refl in F3, F4.
    split_and!; [| |exact F3|exact F4].
    + rewrite F1.
      destruct (Qltb lo mid) eqn:E1; destruct (Qltb mid hi) eqn:E2;
        try apply Qltb_lt in E1; try apply Qltb_lt in E2;
        try apply Qltb_ge in E1; try apply Qltb_ge in E2;
        try (exfalso; destruct Hrange; lra);
        match goal with
        | |- context [Qeq_bool ?a ?b] =>
            destruct (Qeq_bool a b) eqn:E3;
            [apply Qeq_bool_true in E3; exfalso; lra | reflexivity]
        end.
    + rewrite F2.
      destruct (Qltb lo mid) eqn:E1; destruct (Qltb mid hi) eqn:E2;
        try apply Qltb_lt in E1; try apply Qltb_lt in E2;
        try apply Qltb_ge in E1; try apply Qltb_ge in E2;
        try (exfalso; destruct Hrange; lra);
        match goal with
        | |- context [Qeq_bool ?a ?b] =>
            destruct (Qeq_bool a b) eqn:E3;
            [apply Qeq_bool_true in E3; exfalso; lra | reflexivity]
        end.
Qed.

Lemma DefRead_die_tracks_finish_witness :
  exists l1 st2 st3,
    DefRead_diearea sample_cfg (set_oscale sample_locals 100)
      (sample_state diearea_tokens) = Some (l1, st2) /\
    DefRead_finish sample_cfg l1 st2 = Some (0, st3) /\
    (Xlowerbound st3 == 0)%Q /\ (Xupperbound st3 == 10)%Q /\
    (Ylowerbound st3 == 0)%Q /\ (Yupperbound st3 == 20)%Q.
Proof.
  destruct (LefReadRect sample_cfg 0 100 (sample_state diearea_tokens))
    as [[[r|] st1]|] eqn:E; try (vm_compute in E; discriminate E).
  destruct (DefRead_die_tracks_finish sample_cfg (set_oscale sample_locals 100)
              (sample_state diearea_tokens) r st1 E)
    as (l1 & st2 & Hd & (st3 & Hf & Hxl & Hxu & Hyl & Hyu) & _).
  exists l1, st2, st3. split; [exact Hd|]. split; [exact Hf|].
  rewrite Hxl, Hxu, Hyl, Hyu.
  vm_compute in E. injection E as <- _.
  split_and!; reflexivity.
Defined.

(** ** Locations *)





(** ** The nets of the design *)

Lemma update_route_id net p f : net_id (update_route net p f) = net_id net.
Proof. reflexivity. Qed.

Lemma stub_removal_id net p : net_id (stub_removal net p) = net_id net.
Proof.
  unfold stub_removal. repeat case_match; reflexivity.
Qed.

Lemma flag_check_id special off L :
  net_id (flag_check special off L) = net_id (rl_net L).
Proof.
  unfold flag_check. repeat case_match; reflexivity.
Qed.

Ltac run_reader :=
  repeat (unfold LefNextToken_deref, bind, ret, get, modify, crash, deref,
            LefNextToken, LefErrorM, endCoord in *;
          simpl in *; simplify_eq;
          repeat (case_match; simplify_eq; simpl in *; try discriminate)).

Lemma route_new_frame cfg oscale special L st L' st' :
  route_new cfg oscale special L st = Some (L', st') ->
  net_id (rl_net L') = net_id (rl_net L) /\ Nlnets st' = Nlnets st.
Proof.
  unfold route_new, new_route. intros H. run_reader; auto.
Qed.

Lemma route_via_frame cfg special noobstruct token L st L' st' :
  route_via cfg special noobstruct token L st = Some (L', st') ->
  net_id (rl_net L') = net_id (rl_net L) /\ Nlnets st' = Nlnets st.
Proof.
  unfold route_via, current_route, new_route. intros H. run_reader; auto.
Qed.

Lemma route_coords_frame cfg oscale special noobstruct L st L' st' :
  route_coords cfg oscale special noobstruct L st = Some (L', st') ->
  net_id (rl_net L') = net_id (rl_net L) /\ Nlnets st' = Nlnets st.
Proof.
  unfold route_coords, route_coord_x, route_coord_y, route_point, flag_check,
    current_route, new_route.
  intros H. run_reader; auto.
Qed.

Lemma route_loop_frame cfg oscale special noobstruct :
  forall fuel initial L st token L' st',
    route_loop cfg fuel oscale special noobstruct initial L st = Some (token, L', st') ->
    net_id (rl_net L') = net_id (rl_net L) /\ Nlnets st' = Nlnets st.
Proof.
  induction fuel as [|fuel IH]; intros initial L st token L' st' H; [discriminate|].
  cbn [route_loop] in H. unfold bind in H.
  destruct initial.
  - cbn in H.
    destruct (route_new cfg oscale special L st) as [[L1 st1]|] eqn:E1; [|discriminate].
    apply route_new_frame in E1 as [Ea Eb]. apply IH in H as [Ha Hb].
    split; congruence.
  - destruct (LefNextToken st) as [[[t|] st0]|] eqn:Et; try discriminate.
    + assert (E0 : Nlnets st0 = Nlnets st).
      { unfold LefNextToken in Et. destruct (input st); simplify_eq; reflexivity. }
      cbn [orb] in H.
      destruct (String.eqb t "NEW" || String.eqb t "new").
      * destruct (route_new cfg oscale special L st0) as [[L1 st1]|] eqn:E1;
          [|discriminate].
        apply route_new_frame in E1 as [Ea Eb]. apply IH in H as [Ha Hb].
        split; congruence.
      * destruct (negb (ascii_eqb (first_char t) "("%char)).
        -- destruct (ascii_eqb (first_char t) ";"%char ||
                     ascii_eqb (first_char t) "+"%char).
           ++ unfold ret in H. simplify_eq. auto.
           ++ destruct (negb (rl_valid L)).
              ** unfold LefErrorM in H.
                 destruct (LefError _ _ _ _ _) as [e out].
                 apply IH in H as [Ha Hb]. split; [exact Ha|].
                 rewrite Hb. exact E0.
              ** destruct (route_via cfg special noobstruct t L st0)
                   as [[L1 st1]|] eqn:E1; [|discriminate].
                 apply route_via_frame in E1 as [Ea Eb]. apply IH in H as [Ha Hb].
                 split; congruence.
        -- destruct (route_coords cfg oscale special noobstruct L st0)
             as [[L1 st1]|] eqn:E1; [|discriminate].
           apply route_coords_frame in E1 as [Ea Eb]. apply IH in H as [Ha Hb].
           split; congruence.
    + unfold ret in H. simplify_eq.
      unfold LefNextToken in Et. destruct (input st); simplify_eq. auto.
Qed.

Lemma DefAddRoutes_frame cfg x0 y0 w0 oscale net special st token net' st' :
  DefAddRoutes cfg x0 y0 w0 oscale net special st = Some (token, net', st') ->
  net_id net' = net_id net /\ Nlnets st' = Nlnets st.
Proof.
  unfold DefAddRoutes, bind, get, ret. intros H.
  destruct (route_loop _ _ _ _ _ _ _ _) as [[[tk L'] st1]|] eqn:E; [|discriminate].
  simplify_eq. apply route_loop_frame in E as [Ea Eb].
  rewrite stub_removal_id. auto.
Qed.

Lemma routes_loop_frame cfg x0 y0 w0 oscale special :
  forall fuel token net st token' net' st',
    routes_loop cfg fuel x0 y0 w0 oscale special token net st
    = Some (token', net', st') ->
    net_id net' = net_id net /\ Nlnets st' = Nlnets st.
Proof.
  induction fuel as [|fuel IH]; intros token net st token' net' st' H;
    [discriminate|].
  cbn [routes_loop] in H.
  destruct token as [t|]; [|unfold ret in H; simplify_eq; auto].
  destruct (ascii_eqb (first_char t) ";"); [unfold ret in H; simplify_eq; auto|].
  unfold bind in H.
  destruct (DefAddRoutes cfg x0 y0 w0 oscale net special st)
    as [[[tk net1] st1]|] eqn:E; [|discriminate].
  apply DefAddRoutes_frame in E as [Ea Eb]. apply IH in H as [Ha Hb].
  cbn [fst snd] in *. split; congruence.
Qed.

Lemma DefReadGatePin_frame cfg net nd instname pinname st net' st' :
  DefReadGatePin cfg net nd instname pinname st = Some (net', st') ->
  net_id net' = net_id net /\ Nlnets st' = Nlnets st /\ input st' = input st.
Proof.
  unfold DefReadGatePin. intros H. run_reader; auto.
Qed.

Lemma LefNextToken_frame st t st' :
  LefNextToken st = Some (t, st') -> Nlnets st' = Nlnets st.
Proof.
  unfold LefNextToken. intros H. destruct (input st); simplify_eq; reflexivity.
Qed.

Lemma LefNextToken_deref_frame st t st' :
  LefNextToken_deref st = Some (t, st') -> Nlnets st' = Nlnets st.
Proof.
  unfold LefNextToken_deref, bind, deref, ret, crash. intros H.
  destruct (LefNextToken st) as [[[t0|] st0]|] eqn:E; simplify_eq.
  eapply LefNextToken_frame; eauto.
Qed.

Lemma LefErrorM_frame cfg type fmt st u st' :
  LefErrorM cfg type fmt st = Some (u, st') ->
  Nlnets st' = Nlnets st /\ input st' = input st.
Proof.
  unfold LefErrorM. destruct (LefError _ _ _ _ _) as [e out].
  intros H. simplify_eq. auto.
Qed.

Lemma net_properties_frame cfg x0 y0 w0 oscale special is_new :
  forall fuel token net nodeidx fixed st net' fixed' st',
    net_properties cfg fuel x0 y0 w0 oscale special is_new token net nodeidx fixed st
    = Some (net', fixed', st') ->
    net_id net' = net_id net /\ Nlnets st' = Nlnets st.
Proof.
  induction fuel as [|fuel IH];
    intros token net nodeidx fixed st net' fixed' st' H; [discriminate|].
  cbn [net_properties] in H.
  destruct token as [t|]; [|unfold ret in H; simplify_eq; auto].
  destruct (ascii_eqb (first_char t) ";"); [unfold ret in H; simplify_eq; auto|].
  destruct (ascii_eqb (first_char t) "(").
  { unfold bind in H.
    destruct (LefNextToken_deref st) as [[i1 st1]|] eqn:E1; [|discriminate].
    destruct (LefNextToken_deref st1) as [[i2 st2]|] eqn:E2; [|discriminate].
    apply LefNextToken_deref_frame in E1, E2.
    destruct (if strcasecmp_eq i1 "pin" then (i2, "pin") else (i1, i2))
      as [instname pinname].
    destruct (DefReadGatePin _ _ _ _ _ _) as [[net1 st3]|] eqn:E3; [|discriminate].
    apply DefReadGatePin_frame in E3 as (Ea & Eb & _).
    destruct (LefNextToken st3) as [[tk st4]|] eqn:E4; [|discriminate].
    apply LefNextToken_frame in E4.
    apply IH in H as [Ha Hb]. split; congruence. }
  destruct (negb (ascii_eqb (first_char t) "+")).
  { unfold bind in H.
    destruct (LefNextToken st) as [[tk st1]|] eqn:E1; [|discriminate].
    apply LefNextToken_frame in E1.
    apply IH in H as [Ha Hb]. split; congruence. }
  unfold bind in H.
  destruct (LefNextToken_deref st) as [[tk st1]|] eqn:E1; [|discriminate].
  apply LefNextToken_deref_frame in E1.
  destruct (Lookup tk net_property_keys <? 0).
  { destruct (LefErrorM _ _ _ _) as [[u st2]|] eqn:E2; [|discriminate].
    apply LefErrorM_frame in E2 as [E2 _].
    apply IH in H as [Ha Hb]. split; congruence. }
  destruct (Lookup tk net_property_keys =? 4).
  { destruct (LefNextToken st1) as [[tk2 st2]|] eqn:E2; [|discriminate].
    apply LefNextToken_frame in E2.
    apply IH in H as [Ha Hb]. split; congruence. }
  destruct ((Lookup tk net_property_keys =? 1) || (Lookup tk net_property_keys =? 2)
            || (Lookup tk net_property_keys =? 3)).
  { destruct (if ((Lookup tk net_property_keys =? 2)
                  || (Lookup tk net_property_keys =? 3)) && is_new
              then (set_ignored net, fixed + 1) else (net, fixed))
      as [net0 fixed0] eqn:E0.
    assert (Hid0 : net_id net0 = net_id net).
    { destruct (_ && is_new); simplify_eq; reflexivity. }
    unfold get in H.
    destruct (routes_loop _ _ _ _ _ _ _ _ _ _) as [[[tk2 net1] st2]|] eqn:E2;
      [|discriminate].
    apply routes_loop_frame in E2 as [Ea Eb].
    apply IH in H as [Ha Hb]. split; congruence. }
  apply IH in H as [Ha Hb]. split; congruence.
Qed.

Lemma strcasecmp_eq_sym a : forall b, strcasecmp_eq a b = strcasecmp_eq b a.
Proof.
  induction a as [|x a IH]; intros [|y b]; try reflexivity.
  cbn [strcasecmp_eq]. rewrite IH. f_equal.
  unfold ascii_eqb. apply eq_true_iff_eq. rewrite !Ascii.eqb_eq. split; congruence.
Qed.

Lemma DefFindNet_from_None nets name :
  forall i, DefFindNet_from i nets name = None ->
            Forall (fun n => strcasecmp_eq (netname n) name = false) nets.
Proof.
  induction nets as [|n nets IH]; intros i H; [constructor|].
  cbn [DefFindNet_from] in H.
  destruct (strcasecmp_eq (netname n) name) eqn:E; [discriminate|].
  constructor; [exact E | eapply IH; eauto].
Qed.

Lemma DefFindNet_from_Some nets name :
  forall i k, DefFindNet_from i nets name = Some k ->
              (i <= k)%nat /\ (k - i < length nets)%nat.
Proof.
  induction nets as [|n nets IH]; intros i k H; [discriminate|].
  cbn [DefFindNet_from] in H.
  destruct (strcasecmp_eq (netname n) name).
  - simplify_eq. cbn [length]. lia.
  - apply IH in H. cbn [length]. lia.
Qed.

Lemma distinct_names_snoc names token :
  distinct_names names ->
  Forall (fun a => strcasecmp_eq a token = false) names ->
  distinct_names (names ++ [token]).
Proof.
  intros Hd Hf i j a b Hi Hj Hab.
  rewrite Forall_forall in Hf.
  destruct (decide (i < length names)%nat) as [Li|Li];
    destruct (decide (j < length names)%nat) as [Lj|Lj].
  - rewrite lookup_app_l in Hi, Hj by assumption. eapply Hd; eauto.
  - rewrite lookup_app_l in Hi by assumption.
    rewrite lookup_app_r in Hj by lia.
    destruct (j - length names)%nat as [|?] eqn:Ej; [|discriminate].
    cbn in Hj. simplify_eq.
    apply list_elem_of_lookup_2, Hf in Hi. congruence.
  - rewrite lookup_app_l in Hj by assumption.
    rewrite lookup_app_r in Hi by lia.
    destruct (i - length names)%nat as [|?] eqn:Ei; [|discriminate].
    cbn in Hi. simplify_eq.
    apply list_elem_of_lookup_2, Hf in Hj.
    rewrite strcasecmp_eq_sym in Hab. congruence.
  - apply lookup_lt_Some in Hi, Hj. rewrite length_app in Hi, Hj. cbn in Hi, Hj. lia.
Qed.

(** What a step of the reader does to the nets: the nets that were there
    keep their positions, names and numbers, new ones come after them, and
    no name that is already there, case ignored, is added. *)
Lemma nets_extended_refl nets :
  exists added,
    net_id <$> nets = (net_id <$> nets) ++ added /\
    (distinct_names (netname <$> nets) -> distinct_names (netname <$> nets)).
Proof. exists []. rewrite app_nil_r. auto. Qed.

Lemma nets_extended_trans (n1 n2 n3 : list NET) :
  (exists added, net_id <$> n2 = (net_id <$> n1) ++ added /\
     (distinct_names (netname <$> n1) -> distinct_names (netname <$> n2))) ->
  (exists added, net_id <$> n3 = (net_id <$> n2) ++ added /\
     (distinct_names (netname <$> n2) -> distinct_names (netname <$> n3))) ->
  exists added, net_id <$> n3 = (net_id <$> n1) ++ added /\
     (distinct_names (netname <$> n1) -> distinct_names (netname <$> n3)).
Proof.
  intros (a1 & E1 & D1) (a2 & E2 & D2). exists (a1 ++ a2).
  rewrite E2, E1, app_assoc. auto.
Qed.

Lemma net_id_names (n1 n2 : list NET) :
  net_id <$> n1 = net_id <$> n2 -> netname <$> n1 = netname <$> n2.
Proof.
  intros H. apply (f_equal (fmap fst)) in H.
  rewrite <- !list_fmap_compose in H. exact H.
Qed.

Lemma DefReadNets_start_nets cfg x0 y0 w0 oscale special l st l' st' :
  DefReadNets_start cfg x0 y0 w0 oscale special l st = Some (l', st') ->
  exists added,
    net_id <$> Nlnets st' = (net_id <$> Nlnets st) ++ added /\
    (distinct_names (netname <$> Nlnets st) ->
     distinct_names (netname <$> Nlnets st')).
Proof.
  unfold DefReadNets_start. intros H. unfold bind at 1 in H.
  destruct (LefNextToken_deref st) as [[token st0]|] eqn:E0; [|discriminate].
  apply LefNextToken_deref_frame in E0.
  unfold bind at 1 in H. unfold get at 1 in H.
  unfold bind at 1 in H.
  destruct (DefFindNet (Nlnets st0) token) as [i|] eqn:Ef.
  - (* an existing net *)
    unfold bind at 1 in H.
    destruct (Nlnets st0 !! i) as [net|] eqn:Ei; [|discriminate].
    cbn -[net_properties new_netnum] in H. unfold bind at 1 in H.
    destruct (LefNextToken st0) as [[tk st1]|] eqn:E1; [|discriminate].
    apply LefNextToken_frame in E1.
    unfold bind at 1 in H. unfold get at 1 in H. unfold bind at 1 in H.
    destruct (net_properties _ _ _ _ _ _ _ _ _ _ _ _ _)
      as [[[net' fixed'] st2]|] eqn:E2; [|discriminate].
    apply net_properties_frame in E2 as [Ea Eb].
    cbn -[net_properties new_netnum] in H. injection H as <- <-. cbn.
    assert (Eids : net_id <$> <[i := net']> (Nlnets st2) = net_id <$> Nlnets st).
    { rewrite list_fmap_insert, Ea, Eb, E1, <- E0.
      apply list_insert_id. rewrite list_lookup_fmap, Ei. reflexivity. }
    exists []. rewrite app_nil_r. split; [exact Eids|].
    rewrite (net_id_names _ _ Eids). auto.
  - (* a new net *)
    destruct (new_netnum cfg token (nl_netidx l)) as [num netidx] eqn:En.
    cbn -[net_properties new_netnum] in H. unfold bind at 1 in H.
    destruct (LefNextToken _) as [[tk st1]|] eqn:E1; [|discriminate].
    apply LefNextToken_frame in E1. cbn in E1.
    unfold bind at 1 in H. unfold get at 1 in H. unfold bind at 1 in H.
    destruct (net_properties _ _ _ _ _ _ _ _ _ _ _ _ _)
      as [[[net' fixed'] st2]|] eqn:E2; [|discriminate].
    apply net_properties_frame in E2 as [Ea Eb].
    cbn -[net_properties new_netnum] in H. injection H as <- <-. cbn.
    assert (Eids : net_id <$> <[length (Nlnets st0) := net']> (Nlnets st2)
                   = (net_id <$> Nlnets st) ++ [(token, num)]).
    { rewrite Eb, E1, <- E0.
      replace (length (Nlnets st0)) with (length (Nlnets st0) + 0)%nat by lia.
      rewrite insert_app_r. cbn. rewrite fmap_app. cbn. rewrite Ea. reflexivity. }
    exists [(token, num)]. split; [exact Eids|].
    intros Hd.
    assert (En' : netname <$> <[length (Nlnets st0) := net']> (Nlnets st2)
                  = (netname <$> Nlnets st) ++ [token]).
    { apply (f_equal (fmap fst)) in Eids.
      rewrite <- list_fmap_compose, fmap_app, <- list_fmap_compose in Eids.
      exact Eids. }
    rewrite En'. apply distinct_names_snoc; [exact Hd|].
    apply DefFindNet_from_None in Ef. rewrite E0 in Ef.
    apply Forall_fmap. exact Ef.
Qed.

Lemma nets_loop_nets cfg sname x0 y0 w0 oscale special :
  forall fuel l st l' st',
    nets_loop cfg fuel sname x0 y0 w0 oscale special l st = Some (l', st') ->
    exists added,
      net_id <$> Nlnets st' = (net_id <$> Nlnets st) ++ added /\
      (distinct_names (netname <$> Nlnets st) ->
       distinct_names (netname <$> Nlnets st')).
Proof.
  induction fuel as [|fuel IH]; intros l st l' st' H; [discriminate|].
  cbn [nets_loop] in H. unfold bind at 1 in H.
  destruct (LefNextToken st) as [[[token|] st0]|] eqn:E0; try discriminate.
  2: { apply LefNextToken_frame in E0. unfold ret in H. injection H as <- <-.
       rewrite E0. apply nets_extended_refl. }
  apply LefNextToken_frame in E0.
  destruct (Lookup token net_keys <? 0).
  { unfold bind at 1 in H.
    destruct (LefErrorM _ _ _ _) as [[u st1]|] eqn:E1; [|discriminate].
    apply LefErrorM_frame in E1 as [E1 _].
    unfold bind at 1, LefEndStatement, modify in H.
    apply IH in H. cbn in H. rewrite E1, E0 in H. exact H. }
  destruct (Lookup token net_keys =? 0).
  { unfold bind at 1 in H.
    destruct (DefReadNets_start _ _ _ _ _ _ _ _) as [[l1 st1]|] eqn:E1;
      [|discriminate].
    apply DefReadNets_start_nets in E1. apply IH in H.
    rewrite E0 in E1. eapply nets_extended_trans; eauto. }
  unfold bind at 1 in H.
  destruct (LefParseEndStatement cfg sname st0) as [[ok st1]|] eqn:E1; [|discriminate].
  assert (E1' : Nlnets st1 = Nlnets st0).
  { unfold LefParseEndStatement, bind in E1.
    destruct (LefNextToken st0) as [[[tk|] st2]|] eqn:E2; try discriminate.
    - apply LefNextToken_frame in E2. unfold ret in E1. injection E1 as <- <-.
      exact E2.
    - apply LefNextToken_frame in E2.
      destruct (LefErrorM _ _ _ _) as [[u st3]|] eqn:E3; [|discriminate].
      apply LefErrorM_frame in E3 as [E3 _].
      unfold ret in E1. injection E1 as <- <-. congruence. }
  destruct ok.
  - unfold ret in H. injection H as <- <-. rewrite E1', E0.
    apply nets_extended_refl.
  - unfold bind at 1 in H.
    destruct (LefErrorM _ _ _ _) as [[u st2]|] eqn:E2; [|discriminate].
    apply LefErrorM_frame in E2 as [E2 _].
    apply IH in H. rewrite E2, E1', E0 in H. exact H.
Qed.

Lemma count_nodes_ids nets : net_id <$> (map count_nodes nets) = net_id <$> nets.
Proof.
  induction nets as [|n nets IH]; [reflexivity|].
  cbn [map fmap list_fmap]. cbn [fmap] in IH. rewrite IH. reflexivity.
Qed.

(** X24.  Reading a NETS or SPECIALNETS section never removes, renames or
    renumbers a net: the names and numbers of the nets after the section
    are those before it, in the same positions, followed by those of the
    nets the section added.  A statement whose name is that of a net
    already there, case ignored, continues that net, so if no two nets had
    the same name before the section, no two have after it.  (The size of
    the array [Nlnets] is not part of the model.) *)
Theorem DefReadNets_keeps_nets cfg x0 y0 w0 sname oscale special total st r st' :
  DefReadNets cfg x0 y0 w0 sname oscale special total st = Some (r, st') ->
  exists added,
    net_id <$> Nlnets st' = (net_id <$> Nlnets st) ++ added /\
    (distinct_names (netname <$> Nlnets st) ->
     distinct_names (netname <$> Nlnets st')).
Proof.
  unfold DefReadNets. intros H. unfold bind at 1, get at 1 in H.
  unfold bind at 1 in H.
  destruct (nets_loop _ _ _ _ _ _ _ _ _ _) as [[l1 st1]|] eqn:E1; [|discriminate].
  apply nets_loop_nets in E1.
  assert (Hend : exists st2,
             Nlnets st' = Nlnets st2 /\
             (Nlnets st2 = Nlnets st1 \/ Nlnets st2 = map count_nodes (Nlnets st1))).
  { unfold bind at 1 in H.
    destruct (special =? 0); cbn [modify ret] in H;
      unfold bind at 1 in H;
      (destruct (nl_processed l1 =? total);
       [unfold ret in H; injection H as <- <-; eexists; split; [reflexivity|]; cbn; auto
       |destruct (LefErrorM _ _ _ _) as [[u st3]|] eqn:E3; [|discriminate];
        apply LefErrorM_frame in E3 as [E3 _];
        unfold ret in H; injection H as <- <-;
        eexists; split; [exact E3|]; cbn; auto]). }
  destruct Hend as (st2 & E2 & Hc).
  assert (Eids : net_id <$> Nlnets st' = net_id <$> Nlnets st1).
  { rewrite E2. destruct Hc as [-> | ->]; [reflexivity | apply count_nodes_ids]. }
  destruct E1 as (added & Ea & Hd). exists added.
  rewrite Eids, (net_id_names _ _ Eids). auto.
Qed.

Lemma DefReadNets_keeps_nets_witness :
  exists r st' added,
    DefReadNets sample_cfg 0 0 0 "NETS" 100 0 1
      (set_Nlnets (sample_state nets_tokens) [net_vdd]) = Some (r, st') /\
    net_id <$> Nlnets st' = [("vdd", 1)] ++ added /\
    distinct_names (netname <$> Nlnets st').
Proof.
  destruct (DefReadNets sample_cfg 0 0 0 "NETS" 100 0 1
              (set_Nlnets (sample_state nets_tokens) [net_vdd]))
    as [[r st']|] eqn:E; [|vm_compute in E; discriminate E].
  destruct (DefReadNets_keeps_nets _ _ _ _ _ _ _ _ _ _ _ E) as (added & Ea & Hd).
  exists r, st', added. split; [reflexivity|]. split; [exact Ea|].
  apply Hd. intros [|i] [|j] a b Hi Hj _; try discriminate. reflexivity.
Defined.

(** ** Layer names in statements *)

(** X25.  The first time [LefReadLayer] meets the name of a cut layer that
    has no number yet (and [MAX_TYPES] is not reached), it gives the layer
    the number [LefGetMaxLayer], which is not negative and is larger than
    the number of every record, writes it into the record and returns it
    without a diagnostic; the same name read again returns the same number
    and leaves the registry as it is. *)
Theorem LefReadLayer_cut_type cfg st token rest i l :
  input st = token :: rest ->
  first_char token <> ";"%char ->
  LefFindLayer (LefInfo st) token = Some i ->
  LefInfo st !! i = Some l ->
  lefClass l = CLASS_CUT ->
  type l < 0 ->
  LefGetMaxLayer (LefInfo st) < cfg_MAX_TYPES cfg ->
  let c := LefGetMaxLayer (LefInfo st) in
  exists st1,
    LefReadLayer cfg st = Some (c, st1) /\
    0 <= c /\ Forall (fun l' => type l' < c) (LefInfo st) /\
    LefInfo st1 = <[i := set_type l c]> (LefInfo st) /\
    input st1 = rest /\ errs st1 = errs st /\ diags st1 = diags st /\
    forall rest',
      exists st2,
        LefReadLayer cfg (set_input st1 (token :: rest')) = Some (c, st2) /\
        LefInfo st2 = LefInfo st1 /\ errs st2 = errs st /\ diags st2 = diags st.
Proof.
  intros Hin Hsemi Hfind Hl Hclass Htype Hmax c.
  destruct (LefGetMaxLayer_from_spec (LefInfo st) (-1)) as (Hc0 & Hall & _).
  fold (LefGetMaxLayer (LefInfo st)) in Hc0, Hall. fold c in Hc0, Hall, Hmax.
  assert (Hs : ascii_eqb (first_char token) ";" = false).
  { apply Ascii.eqb_neq. exact Hsemi. }
  assert (Hlt : (c <? cfg_MAX_TYPES cfg) = true) by (apply Z.ltb_lt; exact Hmax).
  assert (Hneg : (type l <? 0) = true) by (apply Z.ltb_lt; exact Htype).
  exists (set_LefInfo (set_input st rest) (<[i := set_type l c]> (LefInfo st))).
  split_and!; try reflexivity; try lia; try exact Hall.
  - unfold LefReadLayer, LefNextToken_deref, bind, LefNextToken, deref, ret, get,
      modify.
    rewrite Hin. cbn -[LefGetMaxLayer LefFindLayer]. rewrite Hs.
    cbn -[LefGetMaxLayer LefFindLayer]. rewrite Hfind. cbn -[LefGetMaxLayer LefFindLayer].
    rewrite Hl, Hclass. cbn -[LefGetMaxLayer LefFindLayer]. rewrite Hneg.
    cbn -[LefGetMaxLayer LefFindLayer]. fold c. rewrite Hlt. reflexivity.
  - intros rest'.
    assert (Hfind' : LefFindLayer (<[i := set_type l c]> (LefInfo st)) token = Some i).
    { unfold LefFindLayer. rewrite LefFindLayer_from_insert; [exact Hfind|].
      intros old Hold. rewrite Hl in Hold. injection Hold as <-. reflexivity. }
    assert (Hl' : <[i := set_type l c]> (LefInfo st) !! i = Some (set_type l c)).
    { apply list_lookup_insert_eq. eapply lookup_lt_Some; eauto. }
    assert (Hpos : (c <? 0) = false) by (apply Z.ltb_ge; lia).
    eexists. split.
    + unfold LefReadLayer, LefNextToken_deref, bind, LefNextToken, deref, ret, get,
        modify.
      cbn -[LefGetMaxLayer LefFindLayer]. rewrite Hs.
      cbn -[LefGetMaxLayer LefFindLayer]. rewrite Hfind'. cbn -[LefGetMaxLayer LefFindLayer].
      rewrite Hl'. cbn -[LefGetMaxLayer LefFindLayer]. rewrite Hclass.
      cbn -[LefGetMaxLayer LefFindLayer]. fold c. rewrite Hpos. reflexivity.
    + cbn. auto.
Qed.

Lemma LefReadLayer_cut_type_witness :
  exists st1,
    LefReadLayer sample_cfg cut_state = Some (2, st1) /\
    LefInfo st1 = set_type cut_unnumbered 2 :: sample_registry /\
    input st1 = [";"].
Proof.
  destruct (LefReadLayer_cut_type sample_cfg cut_state "V1" [";"] 0%nat cut_unnumbered
              eq_refl ltac:(discriminate) eq_refl eq_refl eq_refl eq_refl eq_refl)
    as (st1 & Hr & _ & _ & Hi & Hin & _).
  exists st1. split; [exact Hr|]. split; [exact Hi | exact Hin].
Defined.
